(** * Mython: the lexer and the evaluator, embedded from the C++ sources

    [parse]   follows src/mython/lexer.h and src/mython/lexer.cpp;
    [runtime] follows src/mython/runtime.cpp;
    [ast]     follows src/mython/statement.cpp.

    The input stream is the list of characters still to be read; C++
    exceptions, failed assertions and undefined behaviour are explicit
    results. *)

From Stdlib Require Import ZArith Ascii String List Lia Bool.
From Stdlib Require Import DecimalString DecimalPos DecimalN DecimalZ.
From stdpp Require Import gmap strings list fin_maps.

Local Open Scope string_scope.
Local Open Scope list_scope.

(** ** Results of the lexer's operations *)

Inductive Failure : Type :=
| LexerError (msg : string)      (* throw LexerError(msg) *)
| std_out_of_range               (* thrown by std::stoi *)
| assertion_failed.              (* assert(...) in CurrentToken *)

Inductive Result (A : Type) : Type :=
| Ok (a : A)
| Throw (e : Failure)
| NoFuel.

Arguments Ok {A} a.
Arguments Throw {A} e.
Arguments NoFuel {A}.

Definition bindR {A B} (r : Result A) (k : A → Result B) : Result B :=
  match r with
  | Ok a => k a
  | Throw e => Throw e
  | NoFuel => NoFuel
  end.

Notation "'do' x <- r ; k" := (bindR r (fun x => k))
  (at level 10, x pattern, r at level 100, k at level 200).

(** ** Tokens (lexer.h, namespace token_type) *)

Module token_type.
Inductive Token : Type :=
| Number (value : Z)
| Id (value : string)
| Char (value : ascii)
| String (value : string)
| Class | Return | If | Else | Def | Newline | Print | Indent | Dedent
| And | Or | Not | Eq | NotEq | LessOrEq | GreaterOrEq
| None | True | False | Eof.
End token_type.

Abbreviation Token := token_type.Token.

Module parse.

(** *** Characters

    The classification functions are those of the "C" locale; bytes
    above 127 are neither digits nor letters. *)

Definition code (c : ascii) : N := N_of_ascii c.

Definition isdigit (c : ascii) : bool :=
  ((48 <=? code c) && (code c <=? 57))%N.

Definition isalpha (c : ascii) : bool :=
  (((65 <=? code c) && (code c <=? 90)) || ((97 <=? code c) && (code c <=? 122)))%N.

Definition same (c d : ascii) : bool := Ascii.eqb c d.

Definition NL : ascii := "010"%char.
Definition CR : ascii := "013"%char.
Definition TAB : ascii := "009"%char.
Definition SPACE : ascii := " "%char.
Definition DQUOTE : ascii := "034"%char.

(** [input_.peek()]: [None] is [EOF]. *)
Definition peek (input : list ascii) : option ascii := head input.

(** [char ch = input_.peek(); ... ch == EOF]: the stream is exhausted, or
    the next byte is 0xFF, which a signed [char] turns into -1. *)
Definition is_EOF (p : option ascii) : bool :=
  match p with
  | Some c => same c "255"%char
  | None => true
  end.

Definition INT_MAX : Z := 2147483647.

(** *** LineOfCode *)

Record LineOfCode : Type := {
  starting_spaces_ : nat;
  line_tokens_ : list Token
}.

Definition GetStartingSpaces (l : LineOfCode) : nat := starting_spaces_ l.
Definition GetTokens (l : LineOfCode) : list Token := line_tokens_ l.

Definition is_Newline (t : Token) : bool :=
  match t with token_type.Newline => true | _ => false end.

Definition is_Eof (t : Token) : bool :=
  match t with token_type.Eof => true | _ => false end.

Definition IsEmpty_tokens (ts : list Token) : bool :=
  match ts with [] => true | _ => forallb is_Newline ts end.

Definition IsAllEof_tokens (ts : list Token) : bool :=
  match ts with [] => true | _ => forallb is_Eof ts end.

Definition IsEmpty (l : LineOfCode) : bool := IsEmpty_tokens (line_tokens_ l).
Definition IsAllEof (l : LineOfCode) : bool := IsAllEof_tokens (line_tokens_ l).

(** [while (input.peek() == '\n') input.get();] *)
Fixpoint SkipNewLinesOnly (input : list ascii) : list ascii :=
  match input with
  | c :: rest => if same c NL then SkipNewLinesOnly rest else input
  | [] => []
  end.

(** [while (input_.get() == ' ') ++count; input_.unget();]  At the end of
    the stream the failed [get] leaves nothing to put back. *)
Fixpoint ProcessSpaces (input : list ascii) : nat * list ascii :=
  match input with
  | c :: rest =>
      if same c SPACE
      then let '(count, rest') := ProcessSpaces rest in (S count, rest')
      else (0, input)
  | [] => (0, [])
  end.

(** Reads up to the newline, which is put back, or to the end. *)
Fixpoint ProcessComment (input : list ascii) : list ascii :=
  match input with
  | c :: rest => if same c NL then input else ProcessComment rest
  | [] => []
  end.

Fixpoint take_digits (input : list ascii) : string * list ascii :=
  match input with
  | c :: rest =>
      if isdigit c
      then let '(s, rest') := take_digits rest in (String c s, rest')
      else (EmptyString, input)
  | [] => (EmptyString, [])
  end.

Fixpoint decimal (acc : Z) (s : string) : Z :=
  match s with
  | EmptyString => acc
  | String c s' => decimal (10 * acc + (Z.of_N (code c) - 48)) s'
  end.

(** [std::stoi] on a string of decimal digits. *)
Definition stoi (s : string) : Result Z :=
  let v := decimal 0 s in
  if (v <=? INT_MAX)%Z then Ok v else Throw std_out_of_range.

Definition ReadNumber (input : list ascii) (toks : list Token)
  : Result (list Token * list ascii) :=
  let '(parsed_num, rest) := take_digits input in
  do v <- stoi parsed_num;
  Ok (toks ++ [token_type.Number v], rest).

(** The loop of [ReadString], entered after the opening quote is read. *)
Fixpoint ReadString_loop (quote_type : ascii) (input : list ascii)
  : Result (string * list ascii) :=
  match input with
  | [] => Throw (LexerError "String parsing error")
  | ch :: rest =>
      if same ch quote_type then Ok (EmptyString, rest)
      else if same ch "\"%char then
        match rest with
        | [] => Throw (LexerError "String parsing error")
        | escaped_char :: rest' =>
            let continue (c : ascii) :=
              do (s, r) <- ReadString_loop quote_type rest';
              Ok (String c s, r) in
            if same escaped_char "n"%char then continue NL
            else if same escaped_char "t"%char then continue TAB
            else if same escaped_char "r"%char then continue CR
            else if same escaped_char DQUOTE then continue DQUOTE
            else if same escaped_char "'"%char then continue "'"%char
            else if same escaped_char "\"%char then continue "\"%char
            else Throw (LexerError
                          (String.append "Unrecognized escape sequence \"
                                         (String escaped_char EmptyString)))
        end
      else if same ch NL || same ch CR then
        Throw (LexerError "Unexpected end of line")
      else
        do (s, r) <- ReadString_loop quote_type rest;
        Ok (String ch s, r)
  end.

Definition ReadString (input : list ascii) (toks : list Token)
  : Result (list Token * list ascii) :=
  match input with
  | quote_type :: rest =>
      do (s, rest') <- ReadString_loop quote_type rest;
      Ok (toks ++ [token_type.String s], rest')
  | [] => Throw (LexerError "String parsing error")
  end.

Definition ident_char (c : ascii) : bool :=
  isalpha c || same c "_"%char || isdigit c.

Fixpoint take_ident (input : list ascii) : string * list ascii :=
  match input with
  | c :: rest =>
      if ident_char c
      then let '(s, rest') := take_ident rest in (String c s, rest')
      else (EmptyString, input)
  | [] => (EmptyString, [])
  end.

Definition keyword_or_Id (parsed_ident : string) : Token :=
  if String.eqb parsed_ident "class" then token_type.Class
  else if String.eqb parsed_ident "return" then token_type.Return
  else if String.eqb parsed_ident "if" then token_type.If
  else if String.eqb parsed_ident "else" then token_type.Else
  else if String.eqb parsed_ident "def" then token_type.Def
  else if String.eqb parsed_ident "print" then token_type.Print
  else if String.eqb parsed_ident "and" then token_type.And
  else if String.eqb parsed_ident "or" then token_type.Or
  else if String.eqb parsed_ident "not" then token_type.Not
  else if String.eqb parsed_ident "None" then token_type.None
  else if String.eqb parsed_ident "True" then token_type.True
  else if String.eqb parsed_ident "False" then token_type.False
  else token_type.Id parsed_ident.

Definition ReadIdentifier (input : list ascii) (toks : list Token)
  : list Token * list ascii :=
  let '(parsed_ident, rest) := take_ident input in
  (toks ++ [keyword_or_Id parsed_ident], rest).

(** [ReadCompSymb(c)]: [c] is one of ! = < >, and the next character,
    an '=', is removed. *)
Definition ReadCompSymb (c : ascii) (input : list ascii) (toks : list Token)
  : list Token * list ascii :=
  let toks' :=
    if same c "!"%char then toks ++ [token_type.NotEq]
    else if same c "="%char then toks ++ [token_type.Eq]
    else if same c "<"%char then toks ++ [token_type.LessOrEq]
    else if same c ">"%char then toks ++ [token_type.GreaterOrEq]
    else toks in
  (toks', tail input).

Definition ends_with_Newline (toks : list Token) : bool :=
  match last toks with
  | Some t => is_Newline t
  | Datatypes.None => false
  end.

(** The do-while loop of [ReadLine]; every turn either ends the loop or
    consumes a character, so the fuel only has to exceed the length of
    the input. *)
Fixpoint ReadLine_loop (fuel : nat) (input : list ascii) (toks : list Token)
  : Result (list Token * list ascii) :=
  match fuel with
  | O => NoFuel
  | S fuel' =>
      let at_EOF :=
        let toks1 :=
          if negb (IsEmpty_tokens toks) && negb (ends_with_Newline toks)
          then toks ++ [token_type.Newline] else toks in
        Ok (toks1 ++ [token_type.Eof], input) in
      match input with
      | [] => at_EOF
      | c :: rest =>
            if same c SPACE then
              ReadLine_loop fuel' (snd (ProcessSpaces input)) toks
            else if same c "#"%char then
              ReadLine_loop fuel' (ProcessComment input) toks
            else if is_EOF (peek input) then
              at_EOF
            else if same c DQUOTE || same c "'"%char then
              do (toks', input') <- ReadString input toks;
              ReadLine_loop fuel' input' toks'
            else if isdigit c then
              do (toks', input') <- ReadNumber input toks;
              ReadLine_loop fuel' input' toks'
            else if isalpha c || same c "_"%char then
              let '(toks', input') := ReadIdentifier input toks in
              ReadLine_loop fuel' input' toks'
            else if (same c "!"%char || same c "="%char || same c "<"%char || same c ">"%char)
                    && match peek rest with Some d => same d "="%char | Datatypes.None => false end
            then
              let '(toks', input') := ReadCompSymb c rest toks in
              ReadLine_loop fuel' input' toks'
            else if same c NL then
              Ok (toks ++ [token_type.Newline], rest)
            else
              ReadLine_loop fuel' rest (toks ++ [token_type.Char c])
      end
  end.

(** [LineOfCode::LineOfCode(input)], that is [ReadLine] on a fresh
    object; the second component is what is left of the stream. *)
Definition ReadLine (input : list ascii) : Result (LineOfCode * list ascii) :=
  let input1 := SkipNewLinesOnly input in
  let '(spaces, input2) := ProcessSpaces input1 in
  do (toks, rest) <- ReadLine_loop (S (length input2)) input2 [];
  Ok ({| starting_spaces_ := spaces; line_tokens_ := toks |}, rest).

(** *** Lexer *)

Record Lexer : Type := {
  tokens_ : list Token;
  input_ : list ascii;
  cur_token_ : nat;
  cur_indent_ : nat
}.

Definition set_input (lx : Lexer) (rest : list ascii) : Lexer :=
  {| tokens_ := tokens_ lx; input_ := rest;
     cur_token_ := cur_token_ lx; cur_indent_ := cur_indent_ lx |}.

(** [assert(!tokens_.empty() && cur_token_ < tokens_.size());
     return tokens_[cur_token_];] *)
Definition CurrentToken (lx : Lexer) : Result Token :=
  match tokens_ lx !! cur_token_ lx with
  | Some t => Ok t
  | Datatypes.None => Throw assertion_failed
  end.

Definition IncorrectIndent : Failure := LexerError "Incorrect indent.".

Fixpoint ParseLine_fuel (fuel : nat) (lx : Lexer) : Result (Token * Lexer) :=
  match fuel with
  | O => NoFuel
  | S fuel' =>
      do (line, rest) <- ReadLine (input_ lx);
      if negb (GetStartingSpaces line mod 2 =? 0)%nat then Throw IncorrectIndent
      else if negb (IsAllEof line) && negb (IsEmpty line) then
        let cur := length (tokens_ lx) in
        let level := GetStartingSpaces line / 2 in
        let '(indent, toks) :=
          if (cur_indent_ lx <? level)%nat then
            (level, tokens_ lx ++ replicate (level - cur_indent_ lx) token_type.Indent)
          else if (level <? cur_indent_ lx)%nat then
            (level, tokens_ lx ++ replicate (cur_indent_ lx - level) token_type.Dedent)
          else (cur_indent_ lx, tokens_ lx) in
        let lx' := {| tokens_ := toks ++ GetTokens line; input_ := rest;
                      cur_token_ := cur; cur_indent_ := indent |} in
        do t <- CurrentToken lx';
        Ok (t, lx')
      else if IsAllEof line then
        let cur := length (tokens_ lx) in
        let lx' := {| tokens_ := tokens_ lx
                                 ++ replicate (cur_indent_ lx) token_type.Dedent
                                 ++ [token_type.Eof];
                      input_ := rest;
                      cur_token_ := cur; cur_indent_ := cur_indent_ lx |} in
        do t <- CurrentToken lx';
        Ok (t, lx')
      else ParseLine_fuel fuel' (set_input lx rest)
  end.

(** The recursive call of [ParseLine] is made after a line that holds a
    newline and nothing else, so the depth of the recursion is bounded by
    the length of the input. *)
Definition ParseLine (lx : Lexer) : Result (Token * Lexer) :=
  ParseLine_fuel (S (length (input_ lx))) lx.

(** [Lexer::Lexer(input)] *)
Definition Lexer_new (input : list ascii) : Result (Token * Lexer) :=
  ParseLine {| tokens_ := []; input_ := input; cur_token_ := 0; cur_indent_ := 0 |}.

(** [cur_token_ == tokens_.size() - 1] on [size_t]: for an empty buffer
    the right-hand side wraps around to the largest value. *)
Definition at_last_token (lx : Lexer) : bool :=
  match length (tokens_ lx) with
  | O => false
  | S n => (cur_token_ lx =? n)%nat
  end.

Definition NextToken (lx : Lexer) : Result (Token * Lexer) :=
  if at_last_token lx then ParseLine lx
  else
    let lx' := {| tokens_ := tokens_ lx; input_ := input_ lx;
                  cur_token_ := S (cur_token_ lx); cur_indent_ := cur_indent_ lx |} in
    do t <- CurrentToken lx';
    Ok (t, lx').

(** *** The token stream a client sees

    The first token is [CurrentToken()] after construction; the client
    calls [NextToken()] until it is handed [Eof]. *)
Fixpoint drain (fuel : nat) (cur : Token) (lx : Lexer) : Result (list Token * Lexer) :=
  if is_Eof cur then Ok ([cur], lx)
  else
    match fuel with
    | O => NoFuel
    | S fuel' =>
        do (t, lx') <- NextToken lx;
        do (ts, lx'') <- drain fuel' t lx';
        Ok (cur :: ts, lx'')
    end.

Definition TokenStream (fuel : nat) (input : list ascii) : Result (list Token * Lexer) :=
  do (t, lx) <- Lexer_new input;
  drain fuel t lx.

(** *** Comparison and output of tokens, and the templates of lexer.h *)

(** [t.index()]: the place of the alternative held by [t] in the list of
    [std::variant<...>] that defines [TokenBase]. *)
Definition index (t : Token) : nat :=
  match t with
  | token_type.Number _ => 0
  | token_type.Id _ => 1
  | token_type.Char _ => 2
  | token_type.String _ => 3
  | token_type.Class => 4
  | token_type.Return => 5
  | token_type.If => 6
  | token_type.Else => 7
  | token_type.Def => 8
  | token_type.Newline => 9
  | token_type.Print => 10
  | token_type.Indent => 11
  | token_type.Dedent => 12
  | token_type.And => 13
  | token_type.Or => 14
  | token_type.Not => 15
  | token_type.Eq => 16
  | token_type.NotEq => 17
  | token_type.LessOrEq => 18
  | token_type.GreaterOrEq => 19
  | token_type.None => 20
  | token_type.True => 21
  | token_type.False => 22
  | token_type.Eof => 23
  end.

(** [t.TryAs<T>()] for the four alternatives that have a value. *)
Definition TryAs_Number (t : Token) : option Z :=
  match t with token_type.Number value => Some value | _ => Datatypes.None end.
Definition TryAs_Id (t : Token) : option string :=
  match t with token_type.Id value => Some value | _ => Datatypes.None end.
Definition TryAs_Char (t : Token) : option ascii :=
  match t with token_type.Char value => Some value | _ => Datatypes.None end.
Definition TryAs_String (t : Token) : option string :=
  match t with token_type.String value => Some value | _ => Datatypes.None end.

(** [operator==(lhs, rhs)].  [lhs.Is<T>()] is [TryAs] giving a value;
    [rhs.As<T>()] is [std::get], which throws [std::bad_variant_access]
    when [rhs] holds another alternative: the result is [None] then. *)
Definition Token_eq (lhs rhs : Token) : option bool :=
  if negb (index lhs =? index rhs)%nat then Some false
  else
    match TryAs_Char lhs with
    | Some l => r ← TryAs_Char rhs; Some (same l r)
    | Datatypes.None =>
    match TryAs_Number lhs with
    | Some l => r ← TryAs_Number rhs; Some (l =? r)%Z
    | Datatypes.None =>
    match TryAs_String lhs with
    | Some l => r ← TryAs_String rhs; Some (String.eqb l r)
    | Datatypes.None =>
    match TryAs_Id lhs with
    | Some l => r ← TryAs_Id rhs; Some (String.eqb l r)
    | Datatypes.None => Some true
    end end end end.

(** [operator!=(lhs, rhs)] *)
Definition Token_neq (lhs rhs : Token) : option bool :=
  negb <$> Token_eq lhs rhs.

(** [t.Is<T>()], that is [std::holds_alternative<T>(t)]; the type [T] is
    given by a token of this type. *)
Definition Is (T t : Token) : bool := (index t =? index T)%nat.

(** What [os << value] writes for the [int] of a [Number]. *)
Definition int_text (value : Z) : string := NilZero.string_of_int (Z.to_int value).

(** [operator<<(os, rhs)]: the text written to [os].  The tests are made
    in the order of the macros. *)
Definition Token_print (rhs : Token) : string :=
  match TryAs_Number rhs with
  | Some value => String.append "Number{" (String.append (int_text value) "}")
  | Datatypes.None =>
  match TryAs_Id rhs with
  | Some value => String.append "Id{" (String.append value "}")
  | Datatypes.None =>
  match TryAs_String rhs with
  | Some value => String.append "String{" (String.append value "}")
  | Datatypes.None =>
  match TryAs_Char rhs with
  | Some value => String.append "Char{" (String value "}")
  | Datatypes.None =>
      if Is token_type.Class rhs then "Class"
      else if Is token_type.Return rhs then "Return"
      else if Is token_type.If rhs then "If"
      else if Is token_type.Else rhs then "Else"
      else if Is token_type.Def rhs then "Def"
      else if Is token_type.Newline rhs then "Newline"
      else if Is token_type.Print rhs then "Print"
      else if Is token_type.Indent rhs then "Indent"
      else if Is token_type.Dedent rhs then "Dedent"
      else if Is token_type.And rhs then "And"
      else if Is token_type.Or rhs then "Or"
      else if Is token_type.Not rhs then "Not"
      else if Is token_type.Eq rhs then "Eq"
      else if Is token_type.NotEq rhs then "NotEq"
      else if Is token_type.LessOrEq rhs then "LessOrEq"
      else if Is token_type.GreaterOrEq rhs then "GreaterOrEq"
      else if Is token_type.None rhs then "None"
      else if Is token_type.True rhs then "True"
      else if Is token_type.False rhs then "False"
      else if Is token_type.Eof rhs then "Eof"
      else "Unknown token :("
  end end end end.

(** [Lexer::Expect<T>()]: the current token, when it is of the type [T]. *)
Definition Expect (T : Token) (lx : Lexer) : Result Token :=
  do t <- CurrentToken lx;
  if negb (Is T t) then Throw (LexerError "Wrong current token type")
  else CurrentToken lx.

(** [t.As<T>().value != value], for a token [t] of the type of [expected];
    [expected] is the token [T{value}]. *)
Definition value_differs (t expected : Token) : bool :=
  match t, expected with
  | token_type.Number l, token_type.Number r => negb (l =? r)%Z
  | token_type.Id l, token_type.Id r => negb (String.eqb l r)
  | token_type.Char l, token_type.Char r => negb (same l r)
  | token_type.String l, token_type.String r => negb (String.eqb l r)
  | _, _ => false
  end.

(** [Lexer::Expect<T>(value)], with [expected] the token [T{value}]. *)
Definition Expect_value (expected : Token) (lx : Lexer) : Result unit :=
  do t <- CurrentToken lx;
  if negb (Is expected t) then Throw (LexerError "Wrong current token value")
  else
    do t' <- CurrentToken lx;
    if value_differs t' expected then Throw (LexerError "Wrong current token value")
    else Ok tt.

(** [Lexer::ExpectNext<T>()] *)
Definition ExpectNext (T : Token) (lx : Lexer) : Result (Token * Lexer) :=
  do (t, lx') <- NextToken lx;
  if negb (Is T t) then Throw (LexerError "Wrong next token type")
  else
    do t' <- CurrentToken lx';
    Ok (t', lx').

(** [Lexer::ExpectNext<T>(value)], with [expected] the token [T{value}]. *)
Definition ExpectNext_value (expected : Token) (lx : Lexer) : Result Lexer :=
  do (t, lx') <- NextToken lx;
  if negb (Is expected t) then Throw (LexerError "Wrong next token value")
  else
    do t' <- CurrentToken lx';
    if value_differs t' expected then Throw (LexerError "Wrong next token value")
    else Ok lx'.

End parse.

(** ** Outcomes of evaluation

    [Normal a s]: the call returns [a] and leaves the state [s].
    [Thrown e s]: the call is left by the C++ exception [e].
    [Undefined]: the call has undefined behaviour (a null typed view is
    dereferenced, a signed operation overflows).
    [OutOfFuel]: the bound on the depth of the evaluation is reached. *)

Inductive Outcome (E S A : Type) : Type :=
| Normal (a : A) (s : S)
| Thrown (e : E) (s : S)
| Undefined
| OutOfFuel.

Arguments Normal {E S A} a s.
Arguments Thrown {E S A} e s.
Arguments Undefined {E S A}.
Arguments OutOfFuel {E S A}.

Definition M (E S A : Type) : Type := S → Outcome E S A.

Definition ret {E S A} (a : A) : M E S A := fun s => Normal a s.
Definition throw {E S A} (e : E) : M E S A := fun s => Thrown e s.
Definition undefined {E S A} : M E S A := fun _ => Undefined.

Definition bind {E S A B} (m : M E S A) (k : A → M E S B) : M E S B :=
  fun s =>
    match m s with
    | Normal a s' => k a s'
    | Thrown e s' => Thrown e s'
    | Undefined => Undefined
    | OutOfFuel => OutOfFuel
    end.

Notation "x <~ m ;; k" := (bind m (fun x => k))
  (at level 100, m at level 99, k at level 200, right associativity).
Notation "m ;;; k" := (bind m (fun _ => k))
  (at level 100, k at level 200, right associativity).

Definition get_state {E S} : M E S S := fun s => Normal s s.
Definition modify_state {E S} (f : S → S) : M E S unit := fun s => Normal tt (f s).

(** Runs a computation on the second component of the state. *)
Definition on_snd {E S1 S2 A} (m : M E S2 A) : M E (S1 * S2) A :=
  fun s =>
    match m (snd s) with
    | Normal a s2 => Normal a (fst s, s2)
    | Thrown e s2 => Thrown e (fst s, s2)
    | Undefined => Undefined
    | OutOfFuel => OutOfFuel
    end.

(** Runs a computation in a frame of its own, which is dropped when the
    computation ends. *)
Definition in_frame {E S1 S2 A} (frame : S1) (m : M E (S1 * S2) A) : M E S2 A :=
  fun s2 =>
    match m (frame, s2) with
    | Normal a s => Normal a (snd s)
    | Thrown e s => Thrown e (snd s)
    | Undefined => Undefined
    | OutOfFuel => OutOfFuel
    end.

(** ** The runtime (runtime.cpp) *)

Module runtime.

(** Modelled from the spec: struct Method of runtime.h, which is not
    among the sources: "a record name, formal_params, body where body
    is an owned AST node". *)
Record Method (Executable : Type) : Type := {
  name : string;
  formal_params : list string;
  body : Executable
}.
Arguments name {Executable} _.
Arguments formal_params {Executable} _.
Arguments body {Executable} _.

(** Modelled from the spec: the data members of class Class of
    runtime.h: "name, ordered method list, optional non-owning reference
    to a parent Class".  The index [methods_map_] is computed from
    [methods_] by the constructor (see [GetMethod]). *)
#[local] Unset Elimination Schemes.
Inductive Class (Executable : Type) : Type := mkClass {
  name_ : string;
  methods_ : list (Method Executable);
  parent_ : option (Class Executable)
}.
#[local] Set Elimination Schemes.
Arguments mkClass {Executable} _ _ _.
Arguments name_ {Executable} _.
Arguments methods_ {Executable} _.
Arguments parent_ {Executable} _.

(** Modelled from the spec: the classes derived from Object in runtime.h:
    "Number (signed integer), Bool, String, Class, ClassInstance".  A
    ClassInstance is mutable and shared: the object is named by its
    address [this]; its member [cls_], which never changes, comes with the
    name, and its member [closure_] is kept in the store ([World]). *)
Inductive Object (Executable : Type) : Type :=
| Number (value : Z)
| String (value : string)
| Bool (value : bool)
| ClassObject (cls : Class Executable)
| ClassInstance (cls_ : Class Executable) (this : nat).
Arguments Number {Executable} _.
Arguments String {Executable} _.
Arguments Bool {Executable} _.
Arguments ClassObject {Executable} _.
Arguments ClassInstance {Executable} _ _.

(** Modelled from the spec: class ObjectHolder of runtime.h: a "nullable"
    handle with the construction modes "owning" ([Own]) and "borrowing"
    ([Share]); [None_] is the empty holder [ObjectHolder::None()]. *)
Inductive ObjectHolder (Executable : Type) : Type :=
| None_
| Own (object : Object Executable)
| Share (object : Object Executable).
Arguments None_ {Executable}.
Arguments Own {Executable} _.
Arguments Share {Executable} _.

(** The exceptions thrown by the evaluator: [std::runtime_error], and
    [ExeptionWithObject], the signal raised by a return statement. *)
Inductive Signal (Executable : Type) : Type :=
| runtime_error (what : string)
| ExeptionWithObject (obj_ : ObjectHolder Executable)
| out_of_range.
Arguments runtime_error {Executable} _.
Arguments ExeptionWithObject {Executable} _.
Arguments out_of_range {Executable}.

(** What an evaluation reads and writes besides the closure it is given:
    the member [closure_] of every ClassInstance object, by address; the
    text written to the output stream of the Context; the counter behind
    [NewInstanceId()].  Objects are never reclaimed: the store does not
    follow the reference counts of the holders; where a node uses an
    object after the holder it came from, whether the object is there
    still is computed from the holders of the state ([ast.survives]). *)
Record World (Executable : Type) : Type := {
  instances : list (gmap string (ObjectHolder Executable));
  output : string;
  instance_id : nat
}.
Arguments instances {Executable} _.
Arguments output {Executable} _.
Arguments instance_id {Executable} _.

Definition INT_MIN : Z := -2147483648.
Definition INT_MAX : Z := 2147483647.

(** The result of an operation on [int]: outside the range of the type
    the behaviour is undefined. *)
Definition int_result {E S} (v : Z) : M E S Z :=
  if ((INT_MIN <=? v) && (v <=? INT_MAX))%Z then ret v else undefined.

Section Objects.
Context {Executable : Type}.

Local Abbreviation ObjectHolder := (ObjectHolder Executable).
Local Abbreviation Object := (Object Executable).
Local Abbreviation Class := (Class Executable).
Local Abbreviation Method := (Method Executable).
Local Abbreviation World := (World Executable).
Local Abbreviation Signal := (Signal Executable).
Local Abbreviation Closure := (gmap string ObjectHolder).

(** [ObjectHolder::Get()] *)
Definition Get (h : ObjectHolder) : option Object :=
  match h with
  | None_ => None
  | Own o => Some o
  | Share o => Some o
  end.

(** [ObjectHolder::operator bool()] *)
Definition non_empty (h : ObjectHolder) : bool :=
  match Get h with Some _ => true | None => false end.

(** Modelled from the spec: the template TryAs of runtime.h: "returns a
    typed view when the holder is non-empty and the underlying value
    matches tag T". *)
Definition TryAs_Number (h : ObjectHolder) : option Z :=
  match Get h with Some (Number v) => Some v | _ => None end.
Definition TryAs_String (h : ObjectHolder) : option string :=
  match Get h with Some (String v) => Some v | _ => None end.
Definition TryAs_Bool (h : ObjectHolder) : option bool :=
  match Get h with Some (Bool v) => Some v | _ => None end.
Definition TryAs_Class (h : ObjectHolder) : option Class :=
  match Get h with Some (ClassObject c) => Some c | _ => None end.
Definition TryAs_ClassInstance (h : ObjectHolder) : option (Class * nat) :=
  match Get h with Some (ClassInstance cls this) => Some (cls, this) | _ => None end.

Definition IsTrue (obj : ObjectHolder) : bool :=
  if negb (non_empty obj) then false
  else
    match TryAs_Bool obj with
    | Some v => v
    | None =>
        match TryAs_Number obj with
        | Some v => negb (v =? 0)%Z
        | None =>
            match TryAs_String obj with
            | Some v => negb (String.eqb v "")
            | None =>
                match TryAs_Class obj with
                | Some _ => false
                | None =>
                    match TryAs_ClassInstance obj with
                    | Some _ => false
                    | None => true
                    end
                end
            end
        end
    end.

(** The constructor of Class sets [methods_map_[methods_.at(i).name] = i]
    for i = 0, 1, ...: of two methods of one name the later one is
    indexed. *)
Fixpoint indexed_method (methods : list Method) (n : string) : option Method :=
  match methods with
  | [] => None
  | m :: rest =>
      match indexed_method rest n with
      | Some m' => Some m'
      | None => if String.eqb (name m) n then Some m else None
      end
  end.

Fixpoint GetMethod (c : Class) (n : string) : option Method :=
  match c with
  | mkClass _ methods parent =>
      match indexed_method methods n with
      | Some m => Some m
      | None =>
          match parent with
          | Some p => GetMethod p n
          | None => None
          end
      end
  end.

Definition GetName (c : Class) : string := name_ c.

(** [ClassInstance::HasMethod], for an object whose member [cls_] is [cls]. *)
Definition HasMethod (cls : Class) (method : string) (argument_count : nat) : bool :=
  match GetMethod cls method with
  | Some p_method => (length (formal_params p_method) =? argument_count)%nat
  | None => false
  end.

(** [h.TryAs<ClassInstance>() && h.TryAs<ClassInstance>()->HasMethod(method, n)]:
    the typed view when both hold. *)
Definition instance_with_method (h : ObjectHolder) (method : string) (n : nat)
  : option (Class * nat) :=
  match TryAs_ClassInstance h with
  | Some (cls, this) => if HasMethod cls method n then Some (cls, this) else None
  | None => None
  end.

(** The scope that [Call] hands to the body: [locals["self"]] is set
    first, then [locals[formal_params.at(i)] = actual_args.at(i)] for
    i = 0, 1, ... *)
Fixpoint bind_params (locals : Closure) (formals : list string)
         (actuals : list ObjectHolder) : Closure :=
  match formals, actuals with
  | p :: formals', a :: actuals' => bind_params (<[p := a]> locals) formals' actuals'
  | _, _ => locals
  end.

Definition Call_locals (cls : Class) (this : nat) (formals : list string)
           (actuals : list ObjectHolder) : Closure :=
  bind_params (<["self" := Share (ClassInstance cls this)]> ∅) formals actuals.

(** The virtual [Executable::Execute]. *)
Variable Execute : Executable → M Signal (Closure * World) ObjectHolder.

(** [ClassInstance::Call], on the object of class [cls] at address [this]. *)
Definition Call (cls : Class) (this : nat) (method : string)
           (actual_args : list ObjectHolder) : M Signal World ObjectHolder :=
  if negb (HasMethod cls method (length actual_args)) then
    throw (runtime_error (String.append "Error call " (String.append method ".")))
  else
    match GetMethod cls method with
    | None => undefined
    | Some p_method =>
        in_frame (Call_locals cls this (formal_params p_method) actual_args)
                 (Execute (body p_method))
    end.

(** Modelled from the spec: the text that [os << this] writes for a
    ClassInstance without [__str__], "an implementation-defined
    address-like token". *)
Definition address_text (this : nat) : string :=
  String.append "0x" (NilEmpty.string_of_uint (Nat.to_uint this)).

(** The virtual [Object::Print(os, context)]; the result is the text
    written to [os].  For Number and String: modelled from the spec
    (runtime.h is not among the sources), "prints its decimal form".
    A chain of [__str__] results that are instances again is followed
    for at most [fuel] steps. *)
Fixpoint Print (fuel : nat) (o : Object) : M Signal World string :=
  match o with
  | Number v => ret (NilZero.string_of_int (Z.to_int v))
  | String v => ret v
  | Bool v => ret (if v then "True" else "False")
  | ClassObject c => ret (String.append "Class " (name_ c))
  | ClassInstance cls this =>
      if HasMethod cls "__str__" 0 then
        match fuel with
        | O => fun _ => OutOfFuel
        | S fuel' =>
            r <~ Call cls this "__str__" [] ;;
            match Get r with
            | Some o' => Print fuel' o'
            | None => undefined
            end
        end
      else ret (address_text this)
  end.

(** [holder.TryAs<Bool>()->GetValue()] *)
Definition unwrap_Bool (h : ObjectHolder) : M Signal World bool :=
  match TryAs_Bool h with
  | Some v => ret v
  | None => undefined
  end.

Definition Equal (lhs rhs : ObjectHolder) : M Signal World bool :=
  fun w =>
    match TryAs_Bool lhs, TryAs_Bool rhs with
    | Some l, Some r => Normal (Bool.eqb l r) w
    | _, _ =>
    match TryAs_Number lhs, TryAs_Number rhs with
    | Some l, Some r => Normal (l =? r)%Z w
    | _, _ =>
    match TryAs_String lhs, TryAs_String rhs with
    | Some l, Some r => Normal (String.eqb l r) w
    | _, _ =>
    match instance_with_method lhs "__eq__" 1 with
    | Some (cls, this) => (r <~ Call cls this "__eq__" [rhs] ;; unwrap_Bool r) w
    | None =>
        if negb (non_empty lhs) && negb (non_empty rhs) then Normal true w
        else Thrown (runtime_error "Cannot compare objects for equality") w
    end end end end.

Definition Less (lhs rhs : ObjectHolder) : M Signal World bool :=
  fun w =>
    match TryAs_Bool lhs, TryAs_Bool rhs with
    | Some l, Some r => Normal (negb l && r) w
    | _, _ =>
    match TryAs_Number lhs, TryAs_Number rhs with
    | Some l, Some r => Normal (l <? r)%Z w
    | _, _ =>
    match TryAs_String lhs, TryAs_String rhs with
    | Some l, Some r => Normal (String.ltb l r) w
    | _, _ =>
    match instance_with_method lhs "__lt__" 1 with
    | Some (cls, this) => (r <~ Call cls this "__lt__" [rhs] ;; unwrap_Bool r) w
    | None => Thrown (runtime_error "Cannot compare objects for less") w
    end end end end.

Definition NotEqual (lhs rhs : ObjectHolder) : M Signal World bool :=
  e <~ Equal lhs rhs ;; ret (negb e).

(** [!Less(lhs, rhs, context) && NotEqual(lhs, rhs, context)]: the
    right operand of [&&] is evaluated only when the left one is true. *)
Definition Greater (lhs rhs : ObjectHolder) : M Signal World bool :=
  l <~ Less lhs rhs ;;
  if negb l then NotEqual lhs rhs else ret false.

Definition LessOrEqual (lhs rhs : ObjectHolder) : M Signal World bool :=
  g <~ Greater lhs rhs ;; ret (negb g).

Definition GreaterOrEqual (lhs rhs : ObjectHolder) : M Signal World bool :=
  l <~ Less lhs rhs ;; ret (negb l).

End Objects.

End runtime.

(** ** The evaluation of the syntax tree (statement.cpp) *)

Module ast.

(** The comparators of runtime.cpp that a Comparison node can hold. *)
Inductive Comparator : Type :=
| Equal | Less | NotEqual | Greater | LessOrEqual | GreaterOrEqual.

(** The data members of class VariableValue: the first constructor sets
    [name_], the second one [dotted_ids_]. *)
Record VariableValue : Type := {
  name_ : string;
  dotted_ids_ : list string
}.

(** The node classes whose [Execute] statement.cpp defines, with their
    data members. *)
#[local] Unset Elimination Schemes.
Inductive Statement : Type :=
| Assignment (name_ : string) (rv_ : Statement)
| Value (var : VariableValue)
| Print (args_ : list Statement)
| MethodCall (object_ : Statement) (method_ : string) (args_ : list Statement)
| Stringify (arg_ : Statement)
| Add (lhs_ rhs_ : Statement)
| Sub (lhs_ rhs_ : Statement)
| Mult (lhs_ rhs_ : Statement)
| Div (lhs_ rhs_ : Statement)
| Compound (args_ : list Statement)
| Return (statement_ : Statement)
| ClassDefinition (cls_ : runtime.ObjectHolder Statement)
| FieldAssignment (object_ : VariableValue) (field_name_ : string) (rv_ : Statement)
| IfElse (condition_ if_body_ : Statement) (else_body_ : option Statement)
| Or (lhs_ rhs_ : Statement)
| And (lhs_ rhs_ : Statement)
| Not (arg_ : Statement)
| Comparison (cmp_ : Comparator) (lhs_ rhs_ : Statement)
| NewInstance (class__ : runtime.Class Statement) (args_ : list Statement)
| MethodBody (body_ : Statement).
#[local] Set Elimination Schemes.

Abbreviation ObjectHolder := (runtime.ObjectHolder Statement).
Abbreviation Object := (runtime.Object Statement).
Abbreviation Class := (runtime.Class Statement).
Abbreviation Method := (runtime.Method Statement).
Abbreviation World := (runtime.World Statement).
Abbreviation Signal := (runtime.Signal Statement).
Abbreviation Closure := (gmap string (runtime.ObjectHolder Statement)).
Abbreviation Exec A := (M Signal (Closure * World) A).

Definition NL : ascii := "010"%char.

Definition ADD_METHOD : string := "__add__".
Definition INIT_METHOD : string := "__init__".

(** *** Access to the closure and to the world *)

Definition closure_lookup (n : string) : Exec (option ObjectHolder) :=
  fun s => Normal (fst s !! n) s.

(** [closure[n] = v] *)
Definition closure_set (n : string) (v : ObjectHolder) : Exec unit :=
  modify_state (fun s => (<[n := v]> (fst s), snd s)).

(** [context.GetOutputStream() << text] *)
Definition write (text : string) : M Signal World unit :=
  modify_state (fun w =>
    {| runtime.instances := runtime.instances w;
       runtime.output := String.append (runtime.output w) text;
       runtime.instance_id := runtime.instance_id w |}).

(** Modelled from the spec: NewInstanceId of statement.h, which is not
    among the sources; it yields the number of the "synthetic, unique
    name" under which NewInstance binds the object. *)
Definition NewInstanceId : M Signal World nat :=
  fun w =>
    Normal (runtime.instance_id w)
           {| runtime.instances := runtime.instances w;
              runtime.output := runtime.output w;
              runtime.instance_id := S (runtime.instance_id w) |}.

Definition to_string (n : nat) : string := NilEmpty.string_of_uint (Nat.to_uint n).

(** [ObjectHolder::Own(ClassInstance(cls))]: a new object, with no
    fields; the result is its address. *)
Definition new_ClassInstance : M Signal World nat :=
  fun w =>
    Normal (length (runtime.instances w))
           {| runtime.instances := runtime.instances w ++ [∅];
              runtime.output := runtime.output w;
              runtime.instance_id := runtime.instance_id w |}.

(** [ptr->Fields()[field] = v] for the instance at address [this]. *)
Definition Fields_set (this : nat) (field : string) (v : ObjectHolder) : M Signal World unit :=
  fun w =>
    match runtime.instances w !! this with
    | None => Undefined
    | Some closure_ =>
        Normal tt
          {| runtime.instances := <[this := <[field := v]> closure_]> (runtime.instances w);
             runtime.output := runtime.output w;
             runtime.instance_id := runtime.instance_id w |}
    end.

(** *** VariableValue::Execute *)

Definition Unknown_variable (n : string) : Signal :=
  runtime.runtime_error (String.append "Unknown variable " n).

(** The loop over [dotted_ids_] and the final lookup; [next_closure] is
    the closure reached so far. *)
Fixpoint walk_dotted_ids (w : World) (next_closure : Closure) (ids : list string)
  : Outcome Signal unit ObjectHolder :=
  match ids with
  | [] => Undefined
  | [back] =>
      match next_closure !! back with
      | Some res => Normal res tt
      | None => Thrown (Unknown_variable back) tt
      end
  | id :: ids' =>
      match next_closure !! id with
      | None => Thrown (Unknown_variable id) tt
      | Some res =>
          match runtime.TryAs_ClassInstance res with
          | Some (_, this) =>
              match runtime.instances w !! this with
              | Some closure_ => walk_dotted_ids w closure_ ids'
              | None => Undefined
              end
          | None => Thrown (runtime.runtime_error "Instance is not a class") tt
          end
      end
  end.

Definition VariableValue_Execute (v : VariableValue) : Exec ObjectHolder :=
  fun s =>
    if negb (String.eqb (name_ v) "") then
      match fst s !! name_ v with
      | Some res => Normal res s
      | None => Thrown (Unknown_variable (name_ v)) s
      end
    else
      match dotted_ids_ v with
      | [] => Thrown (runtime.runtime_error "Unknown variable") s
      | ids =>
          match walk_dotted_ids (snd s) (fst s) ids with
          | Normal res _ => Normal res s
          | Thrown e _ => Thrown e s
          | Undefined => Undefined
          | OutOfFuel => OutOfFuel
          end
      end.

(** *** The lifetime of the receiver of a MethodCall

    Modelled from the spec: the ownership of class ObjectHolder of
    runtime.h, which is not among the sources: an owning holder "co-owns
    the value with any copies", a borrowing holder "wraps an
    externally-owned value without extending lifetime", and values are
    "reference-counted cells".  An object is destroyed, with the holders
    in its fields, when the last holder that owns it is destroyed.

    [MethodCall::Execute] keeps of the holder that the receiver expression
    returns the pointer [class_obj] alone: the holder is a temporary,
    destroyed at the end of the declaration of [class_obj], before
    [class_obj] is used.  The store of [World] keeps the fields of every
    object that was made; whether the object behind [class_obj] is there
    still is computed from the holders of the state: those of the closure,
    those that the frame keeps in [args_executed], and those in the fields
    of the objects that exist.  The closures and the temporaries of the
    callers are not in the state of a frame: what the frame reaches,
    through [self] for one, is taken to exist, and what no holder of the
    state owns is taken to have no owner in a caller either. *)

(** The holder is on the instance at the address [this]. *)
Definition refers (this : nat) (h : ObjectHolder) : bool :=
  match runtime.TryAs_ClassInstance h with
  | Some (_, a) => (a =? this)%nat
  | None => false
  end.

(** The holder is on the instance at the address [this], and owns it. *)
Definition owns (this : nat) (h : ObjectHolder) : bool :=
  match h with
  | runtime.Own (runtime.ClassInstance _ a) => (a =? this)%nat
  | _ => false
  end.

(** The holders that a closure stores. *)
Definition stored (c : Closure) : list ObjectHolder := (map_to_list c).*2.

(** A field of one of the objects at the addresses [from] holds a holder
    that [p] accepts. *)
Definition in_fields (w : World) (p : ObjectHolder → bool) (from : list nat) : bool :=
  existsb (fun a =>
             match runtime.instances w !! a with
             | Some closure_ => existsb p (stored closure_)
             | None => false
             end) from.

Definition addresses (w : World) : list nat := seq 0 (length (runtime.instances w)).

(** The objects that the frame reaches: a holder of [roots] is on them,
    or a field of an object that the frame reaches is; [n] rounds add the
    objects at [n] steps from [roots]. *)
Fixpoint reached (n : nat) (roots : list ObjectHolder) (w : World) (seen : list nat)
  : list nat :=
  match n with
  | O => seen
  | S n' =>
      reached n' roots w
        (List.filter (fun a => existsb (refers a) roots || in_fields w (refers a) seen)
                     (addresses w))
  end.

(** The objects that exist: those that the frame reaches, and those that a
    field of an object that exists owns, as two objects that own one
    another do.  Each of the [n] rounds drops the objects that no longer
    qualify. *)
Fixpoint existing (n : nat) (w : World) (reach : list nat) (exist : list nat) : list nat :=
  match n with
  | O => exist
  | S n' =>
      existing n' w reach
        (List.filter (fun a => existsb (Nat.eqb a) reach || in_fields w (owns a) exist) exist)
  end.

(** A holder of [roots], or of a field of an object that exists, owns the
    instance at [this]. *)
Definition owned (roots : list ObjectHolder) (w : World) (this : nat) : bool :=
  let n := length (runtime.instances w) in
  existsb (owns this) roots
  || in_fields w (owns this) (existing n w (reached (S n) roots w []) (addresses w)).

(** The object of the holder [obj] is there once [obj] is destroyed, in the
    state [s] of a frame that keeps the holders [held]: [obj] does not own
    it, or another holder does. *)
Definition survives (obj : ObjectHolder) (held : list ObjectHolder) (s : Closure * World)
  : bool :=
  match obj with
  | runtime.Own (runtime.ClassInstance _ this) => owned (stored (fst s) ++ held) (snd s) this
  | _ => true
  end.

(** *** Execute

    [Execute] stands for the virtual call [stmt->Execute(closure, context)]
    on a child node, [fuel] bounds the [Print] of an object. *)

Section Nodes.
Variable Execute : Statement → Exec ObjectHolder.
Variable fuel : nat.

(** The loop that fills [args_executed]: the nodes of [args_] are
    executed from the first to the last. *)
Fixpoint ExecuteArgs (args : list Statement) : Exec (list ObjectHolder) :=
  match args with
  | [] => ret []
  | arg :: args' =>
      arg_obj <~ Execute arg ;;
      rest <~ ExecuteArgs args' ;;
      ret (arg_obj :: rest)
  end.

(** [obj->Print(os, context)], or "None" for the empty holder. *)
Definition Print_holder (obj : ObjectHolder) : M Signal World string :=
  match runtime.Get obj with
  | Some o => runtime.Print Execute fuel o
  | None => ret "None"
  end.

Fixpoint Print_loop (args : list Statement) : Exec unit :=
  match args with
  | [] => ret tt
  | arg :: args' =>
      obj <~ Execute arg ;;
      text <~ on_snd (Print_holder obj) ;;
      on_snd (write text) ;;;
      match args' with
      | [] => ret tt
      | _ => on_snd (write " ")
      end ;;;
      Print_loop args'
  end.

Fixpoint Compound_loop (args : list Statement) : Exec unit :=
  match args with
  | [] => ret tt
  | stmt :: args' => Execute stmt ;;; Compound_loop args'
  end.

Definition comparator (cmp : Comparator)
  : ObjectHolder → ObjectHolder → M Signal World bool :=
  match cmp with
  | Equal => runtime.Equal Execute
  | Less => runtime.Less Execute
  | NotEqual => runtime.NotEqual Execute
  | Greater => runtime.Greater Execute
  | LessOrEqual => runtime.LessOrEqual Execute
  | GreaterOrEqual => runtime.GreaterOrEqual Execute
  end.

Definition Execute_node (stmt : Statement) : Exec ObjectHolder :=
  match stmt with
  | Assignment name_ rv_ =>
      v <~ Execute rv_ ;;
      closure_set name_ v ;;;
      ret v
  | Value var => VariableValue_Execute var
  | Print args_ =>
      Print_loop args_ ;;;
      on_snd (write (String NL EmptyString)) ;;;
      ret runtime.None_
  | MethodCall object_ method_ args_ =>
      obj <~ Execute object_ ;;
      match runtime.TryAs_ClassInstance obj with
      | Some (cls, class_obj) =>
          (* the holder [obj] is destroyed; [class_obj->HasMethod] *)
          s1 <~ get_state ;;
          if negb (survives obj [] s1) then undefined
          else if runtime.HasMethod cls method_ (length args_) then
            args_executed <~ ExecuteArgs args_ ;;
            (* [class_obj->Call] *)
            s2 <~ get_state ;;
            if negb (survives obj args_executed s2) then undefined
            else on_snd (runtime.Call Execute cls class_obj method_ args_executed)
          else ret runtime.None_
      | None => ret runtime.None_
      end
  | Stringify arg_ =>
      res <~ Execute arg_ ;;
      text <~ on_snd (Print_holder res) ;;
      ret (runtime.Own (runtime.String text))
  | Add lhs_ rhs_ =>
      lhs_obj <~ Execute lhs_ ;;
      rhs_obj <~ Execute rhs_ ;;
      match runtime.TryAs_String lhs_obj, runtime.TryAs_String rhs_obj with
      | Some l, Some r => ret (runtime.Own (runtime.String (String.append l r)))
      | _, _ =>
      match runtime.TryAs_Number lhs_obj, runtime.TryAs_Number rhs_obj with
      | Some l, Some r =>
          v <~ runtime.int_result (l + r) ;; ret (runtime.Own (runtime.Number v))
      | _, _ =>
          match runtime.instance_with_method lhs_obj ADD_METHOD 1 with
          | Some (cls, lhs_class) =>
              on_snd (runtime.Call Execute cls lhs_class ADD_METHOD [rhs_obj])
          | None =>
              throw (runtime.runtime_error "Addition is not implemented for these operands")
          end
      end end
  | Sub lhs_ rhs_ =>
      lhs_obj <~ Execute lhs_ ;;
      rhs_obj <~ Execute rhs_ ;;
      match runtime.TryAs_Number lhs_obj, runtime.TryAs_Number rhs_obj with
      | Some l, Some r =>
          v <~ runtime.int_result (l - r) ;; ret (runtime.Own (runtime.Number v))
      | _, _ =>
          throw (runtime.runtime_error "Subtraction is not implemented for these operands")
      end
  | Mult lhs_ rhs_ =>
      lhs_obj <~ Execute lhs_ ;;
      rhs_obj <~ Execute rhs_ ;;
      match runtime.TryAs_Number lhs_obj, runtime.TryAs_Number rhs_obj with
      | Some l, Some r =>
          v <~ runtime.int_result (l * r) ;; ret (runtime.Own (runtime.Number v))
      | _, _ =>
          throw (runtime.runtime_error "Multiplication is not implemented for these operands")
      end
  | Div lhs_ rhs_ =>
      lhs_obj <~ Execute lhs_ ;;
      rhs_obj <~ Execute rhs_ ;;
      match runtime.TryAs_Number lhs_obj, runtime.TryAs_Number rhs_obj with
      | Some l, Some r =>
          if negb (r =? 0)%Z then
            v <~ runtime.int_result (l ÷ r) ;; ret (runtime.Own (runtime.Number v))
          else throw (runtime.runtime_error "Division is not implemented for these operands")
      | _, _ =>
          throw (runtime.runtime_error "Division is not implemented for these operands")
      end
  | Compound args_ =>
      Compound_loop args_ ;;;
      ret runtime.None_
  | Return statement_ =>
      res_obj <~ Execute statement_ ;;
      throw (runtime.ExeptionWithObject res_obj)
  | ClassDefinition cls_ =>
      match runtime.TryAs_Class cls_ with
      | Some c => closure_set (runtime.GetName c) cls_ ;;; ret cls_
      | None => undefined
      end
  | FieldAssignment object_ field_name_ rv_ =>
      obj <~ VariableValue_Execute object_ ;;
      match runtime.TryAs_ClassInstance obj with
      | Some (_, this) =>
          v <~ Execute rv_ ;;
          on_snd (Fields_set this field_name_ v) ;;;
          ret v
      | None => undefined
      end
  | IfElse condition_ if_body_ else_body_ =>
      condition_obj <~ Execute condition_ ;;
      if runtime.IsTrue condition_obj then Execute if_body_
      else
        match else_body_ with
        | Some else_body => Execute else_body
        | None => ret runtime.None_
        end
  | Or lhs_ rhs_ =>
      lhs_obj <~ Execute lhs_ ;;
      rhs_obj <~ Execute rhs_ ;;
      if runtime.non_empty lhs_obj && runtime.non_empty rhs_obj then
        ret (runtime.Own (runtime.Bool (runtime.IsTrue lhs_obj || runtime.IsTrue rhs_obj)))
      else throw (runtime.runtime_error "'Or' is not implemented for these operands")
  | And lhs_ rhs_ =>
      lhs_obj <~ Execute lhs_ ;;
      rhs_obj <~ Execute rhs_ ;;
      if runtime.non_empty lhs_obj && runtime.non_empty rhs_obj then
        ret (runtime.Own (runtime.Bool (runtime.IsTrue lhs_obj && runtime.IsTrue rhs_obj)))
      else throw (runtime.runtime_error "'And' is not implemented for these operands")
  | Not arg_ =>
      obj <~ Execute arg_ ;;
      if runtime.non_empty obj then
        ret (runtime.Own (runtime.Bool (negb (runtime.IsTrue obj))))
      else throw (runtime.runtime_error "'Not' is not implemented for this argument")
  | Comparison cmp_ lhs_ rhs_ =>
      lhs_obj <~ Execute lhs_ ;;
      rhs_obj <~ Execute rhs_ ;;
      b <~ on_snd (comparator cmp_ lhs_obj rhs_obj) ;;
      ret (runtime.Own (runtime.Bool b))
  | NewInstance class__ args_ =>
      id <~ on_snd NewInstanceId ;;
      let name := String.append (to_string id) (String "_" (runtime.GetName class__)) in
      class_inst <~ on_snd new_ClassInstance ;;
      closure_set name (runtime.Own (runtime.ClassInstance class__ class_inst)) ;;;
      (if runtime.HasMethod class__ INIT_METHOD (length args_)
       then
         args_executed <~ ExecuteArgs args_ ;;
         on_snd (runtime.Call Execute class__ class_inst INIT_METHOD args_executed) ;;;
         ret tt
       else ret tt) ;;;
      res <~ closure_lookup name ;;
      match res with
      | Some h => ret h
      | None => throw runtime.out_of_range
      end
  | MethodBody body_ =>
      fun s =>
        match Execute body_ s with
        | Normal _ s' => Normal runtime.None_ s'
        | Thrown (runtime.ExeptionWithObject obj_) s' => Normal obj_ s'
        | Thrown e s' => Thrown e s'
        | Undefined => Undefined
        | OutOfFuel => OutOfFuel
        end
  end.

End Nodes.

(** The evaluator: [fuel] bounds the depth of the nested calls of
    [Execute]. *)
Fixpoint Execute (fuel : nat) (stmt : Statement) : Exec ObjectHolder :=
  match fuel with
  | O => fun _ => OutOfFuel
  | S fuel' => Execute_node (Execute fuel') fuel' stmt
  end.

End ast.

(** * The vocabulary of the properties *)

Section LexerVocabulary.
Import parse.

(** An exception other than the one of [ParseLine]. *)
Definition not_indent_error (e : Failure) : Prop := e ≠ IncorrectIndent.

(** What [ParseLine] does with a line that it does not skip and whose
    count of leading spaces is even. *)
Definition ParseLine_emit (lx : Lexer) (line : LineOfCode) (rest : list ascii)
  : Result (Token * Lexer) :=
  if negb (IsAllEof line) && negb (IsEmpty line) then
    let cur := length (tokens_ lx) in
    let level := GetStartingSpaces line / 2 in
    let '(indent, toks) :=
      if (cur_indent_ lx <? level)%nat then
        (level, tokens_ lx ++ replicate (level - cur_indent_ lx) token_type.Indent)
      else if (level <? cur_indent_ lx)%nat then
        (level, tokens_ lx ++ replicate (cur_indent_ lx - level) token_type.Dedent)
      else (cur_indent_ lx, tokens_ lx) in
    let lx' := {| tokens_ := toks ++ GetTokens line; input_ := rest;
                  cur_token_ := cur; cur_indent_ := indent |} in
    do t <- CurrentToken lx';
    Ok (t, lx')
  else
    let cur := length (tokens_ lx) in
    let lx' := {| tokens_ := tokens_ lx
                             ++ replicate (cur_indent_ lx) token_type.Dedent
                             ++ [token_type.Eof];
                  input_ := rest;
                  cur_token_ := cur; cur_indent_ := cur_indent_ lx |} in
    do t <- CurrentToken lx';
    Ok (t, lx').

(** A character of the inside of a line: neither the newline nor the byte
    that [ReadLine] takes for the end of the stream. *)
Definition line_char (c : ascii) : Prop := same c NL = false ∧ same c "255"%char = false.

Definition line_chars (pre : list ascii) : Prop := Forall line_char pre.

(** The tokens of the inside of a line. *)
Definition plain (t : Token) : bool :=
  match t with
  | token_type.Eof | token_type.Indent | token_type.Dedent => false
  | _ => true
  end.

(** A source without the byte 0xFF that is empty or ends with a newline. *)
Definition well_terminated (input : list ascii) : Prop :=
  Forall (λ c, same c "255"%char = false) input ∧ (input = [] ∨ last input = Some NL).

(** The indent level behind the tokens [ts], from the level [level]; there
    is none when a [Dedent] comes at level 0. *)
Fixpoint indent_after (level : nat) (ts : list Token) : option nat :=
  match ts with
  | [] => Some level
  | token_type.Indent :: ts' => indent_after (S level) ts'
  | token_type.Dedent :: ts' =>
      match level with
      | O => None
      | S level' => indent_after level' ts'
      end
  | _ :: ts' => indent_after level ts'
  end.

Definition no_Eof (ts : list Token) : Prop := Forall (λ t, is_Eof t = false) ts.

(** A stream that is complete: it ends with its only [Eof], and every
    [Indent] is closed by a [Dedent] before the end. *)
Definition complete_stream (ts : list Token) : Prop :=
  (∃ body, ts = body ++ [token_type.Eof] ∧ no_Eof body) ∧ indent_after 0 ts = Some 0.

(** The state of a lexer while its client reads the stream of such a
    source: no [Eof] lies before the cursor, and the buffer is either a
    complete stream or holds no [Eof] and leads to the level [cur_indent_]. *)
Definition stream_inv (lx : Lexer) : Prop :=
  well_terminated (input_ lx)
  ∧ no_Eof (take (cur_token_ lx) (tokens_ lx))
  ∧ ((no_Eof (tokens_ lx) ∧ indent_after 0 (tokens_ lx) = Some (cur_indent_ lx))
     ∨ complete_stream (tokens_ lx)).

(** A name that [ReadIdentifier] reads: a letter or an underscore, then
    letters, digits and underscores. *)
Definition identifier (v : string) : bool :=
  match v with
  | String c s => (isalpha c || same c "_"%char) && forallb ident_char (list_ascii_of_string s)
  | EmptyString => false
  end.

(** The words that [ReadIdentifier] turns into tokens of their own. *)
Definition keywords : list string :=
  ["class"; "return"; "if"; "else"; "def"; "print"; "and"; "or"; "not"; "None"; "True"; "False"].

(** The tokens of the inside of a line, with what [ReadLine] guarantees
    about their values. *)
Definition lexeme (t : Token) : bool :=
  match t with
  | token_type.Number v => (0 <=? v)%Z && (v <=? INT_MAX)%Z
  | token_type.Id v => identifier v && negb (existsb (String.eqb v) keywords)
  | token_type.Char c =>
      negb (same c SPACE || same c NL || same c "#"%char || same c "255"%char
            || same c DQUOTE || same c "'"%char || isdigit c || isalpha c || same c "_"%char)
  | token_type.Newline | token_type.Eof | token_type.Indent | token_type.Dedent => false
  | _ => true
  end.

(** The tokens of a stream: those of the inside of a line, and the four
    that mark the structure. *)
Definition stream_token (t : Token) : bool :=
  match t with
  | token_type.Newline | token_type.Eof | token_type.Indent | token_type.Dedent => true
  | _ => lexeme t
  end.

(** The exceptions of [ReadLine]: those of [ReadString], and the one of
    [std::stoi]. *)
Definition reading_error (e : Failure) : Prop :=
  e = LexerError "String parsing error"
  ∨ e = LexerError "Unexpected end of line"
  ∨ (∃ c, e = LexerError (String.append "Unrecognized escape sequence \" (String c EmptyString)))
  ∨ e = std_out_of_range.

(** The cursor of the lexer is on a token of the buffer. *)
Definition cursor_in_buffer (lx : Lexer) : Prop := (cur_token_ lx < length (tokens_ lx))%nat.

(** The state of a lexer while its client reads the stream of any source:
    no [Eof] lies before the cursor, the tokens are well formed, and the
    buffer either holds no [Eof] and leads to the level [cur_indent_], or
    ends with its only [Eof]; a [Dedent] never comes at level 0. *)
Definition buffer_inv (lx : Lexer) : Prop :=
  no_Eof (take (cur_token_ lx) (tokens_ lx))
  ∧ Forall (λ t, stream_token t = true) (tokens_ lx)
  ∧ ((no_Eof (tokens_ lx) ∧ indent_after 0 (tokens_ lx) = Some (cur_indent_ lx))
     ∨ (∃ body level, tokens_ lx = body ++ [token_type.Eof] ∧ no_Eof body
                      ∧ indent_after 0 (tokens_ lx) = Some level)).

(** The next character of the stream, if any, is not a digit. *)
Definition no_digit_ahead (rest : list ascii) : Prop :=
  match rest with
  | c :: _ => isdigit c = false
  | [] => True
  end.

(** The next character of the stream, if any, cannot continue an
    identifier. *)
Definition no_ident_char_ahead (rest : list ascii) : Prop :=
  match rest with
  | c :: _ => ident_char c = false
  | [] => True
  end.

(** The decimal numeral of [n], without a sign and without leading zeros. *)
Definition numeral (n : N) : list ascii :=
  list_ascii_of_string (NilZero.string_of_uint (N.to_uint n)).

(** The text that stands for the string [s] between the quotes
    [quote_type] of a literal. *)
Fixpoint escaped (quote_type : ascii) (s : string) : list ascii :=
  match s with
  | EmptyString => []
  | String c s' =>
      (if same c NL then ["\"; "n"]%char
       else if same c TAB then ["\"; "t"]%char
       else if same c CR then ["\"; "r"]%char
       else if same c "\"%char then ["\"; "\"]%char
       else if same c quote_type then ["\"%char; quote_type]
       else [c]) ++ escaped quote_type s'
  end.

(** A character that [ReadString] takes as it is. *)
Definition literal_char (quote_type c : ascii) : Prop :=
  same c quote_type = false ∧ same c "\"%char = false
  ∧ same c NL = false ∧ same c CR = false.

End LexerVocabulary.

Section EvaluatorVocabulary.
Import ast.

(** [VariableValue(n)], the node made by the first constructor. *)
Definition var (n : string) : Statement := Value {| name_ := n; dotted_ids_ := [] |}.

(** [VariableValue(ids)], the node made by the second constructor. *)
Definition dotted (ids : list string) : Statement := Value {| name_ := ""; dotted_ids_ := ids |}.

(** No instance, no output yet. *)
Definition empty_World : World :=
  {| runtime.instances := []; runtime.output := ""; runtime.instance_id := 0 |}.

(** Owning holders of a Number, a String and a Bool. *)
Definition number (v : Z) : ObjectHolder := runtime.Own (runtime.Number v).
Definition text (v : string) : ObjectHolder := runtime.Own (runtime.String v).
Definition boolean (v : bool) : ObjectHolder := runtime.Own (runtime.Bool v).

(** The runtime errors of the nodes and of the comparisons. *)
Definition And_error : Signal := runtime.runtime_error "'And' is not implemented for these operands".
Definition Or_error : Signal := runtime.runtime_error "'Or' is not implemented for these operands".

Definition Div_error : Signal :=
  runtime.runtime_error "Division is not implemented for these operands".
Definition Equal_error : Signal := runtime.runtime_error "Cannot compare objects for equality".
Definition Less_error : Signal := runtime.runtime_error "Cannot compare objects for less".

(** The body [return n] of a method. *)
Definition returns (n : string) : Statement := MethodBody (Return (var n)).

(** A class for the instances of the theorems: [get(self)] returns what it
    finds under the name self; [echo(o)], [__eq__(o)] and [__lt__(o)]
    return their argument; [two(a, b)] returns nothing. *)
Definition Sample : Class :=
  runtime.mkClass "Sample"
    [ {| runtime.name := "get"; runtime.formal_params := ["self"]; runtime.body := returns "self" |};
      {| runtime.name := "echo"; runtime.formal_params := ["o"]; runtime.body := returns "o" |};
      {| runtime.name := "__eq__"; runtime.formal_params := ["o"]; runtime.body := returns "o" |};
      {| runtime.name := "__lt__"; runtime.formal_params := ["o"]; runtime.body := returns "o" |};
      {| runtime.name := "two"; runtime.formal_params := ["a"; "b"];
         runtime.body := MethodBody (Compound []) |} ]
    None.

(** A world with one instance, without fields, at address 0. *)
Definition sample_World : World :=
  {| runtime.instances := [∅]; runtime.output := ""; runtime.instance_id := 1 |}.

Definition sample_instance : ObjectHolder := runtime.Own (runtime.ClassInstance Sample 0).

Definition sample_closure : Closure :=
  <["obj" := sample_instance]> (<["one" := number 1]> (<["zero" := number 0]>
    (<["yes" := runtime.Own (runtime.Bool true)]> ∅))).

(** A closure with a holder of every kind. *)
Definition holders : Closure :=
  <["number" := number 1]>
    (<["string" := runtime.Own (runtime.String "s")]>
       (<["bool" := runtime.Own (runtime.Bool true)]>
          (<["class" := runtime.Own (runtime.ClassObject Sample)]>
             (<["none" := runtime.None_]>
                (<["obj" := sample_instance]> ∅))))).

(** [object.f = number] *)
Definition assign_field (object : string) : Statement :=
  FieldAssignment {| name_ := object; dotted_ids_ := [] |} "f" (var "number").

(** Both holders are on a Bool, or both on a Number, or both on a String. *)
Definition same_kind (lhs rhs : ObjectHolder) : bool :=
  match runtime.TryAs_Bool lhs, runtime.TryAs_Bool rhs with
  | Some _, Some _ => true
  | _, _ =>
  match runtime.TryAs_Number lhs, runtime.TryAs_Number rhs with
  | Some _, Some _ => true
  | _, _ =>
  match runtime.TryAs_String lhs, runtime.TryAs_String rhs with
  | Some _, Some _ => true
  | _, _ => false
  end end end.

(** The order of [std::string]: the order of the dictionary on the bytes,
    taken as numbers from 0 to 255. *)
Inductive lexicographic : string → string → Prop :=
| lexicographic_prefix c t : lexicographic "" (String c t)
| lexicographic_head c d s t :
    (N_of_ascii c < N_of_ascii d)%N → lexicographic (String c s) (String d t)
| lexicographic_tail c s t : lexicographic s t → lexicographic (String c s) (String c t).

(** The relation on integers that a comparator stands for. *)
Definition relation_on_Z (cmp : Comparator) (l r : Z) : bool :=
  match cmp with
  | Equal => bool_decide (l = r)
  | Less => bool_decide (l < r)%Z
  | NotEqual => bool_decide (l ≠ r)
  | Greater => bool_decide (r < l)%Z
  | LessOrEqual => bool_decide (l ≤ r)%Z
  | GreaterOrEqual => bool_decide (r ≤ l)%Z
  end.

(** The result of an arithmetic operation on [int] whose exact value is
    [v], in the state [s]. *)
Definition int_outcome (v : Z) (s : Closure * World) : Outcome Signal (Closure * World) ObjectHolder :=
  if bool_decide (runtime.INT_MIN ≤ v ≤ runtime.INT_MAX)%Z
  then Normal (runtime.Own (runtime.Number v)) s
  else Undefined.

Definition Add_error : Signal :=
  runtime.runtime_error "Addition is not implemented for these operands".
Definition Sub_error : Signal :=
  runtime.runtime_error "Subtraction is not implemented for these operands".
Definition Mult_error : Signal :=
  runtime.runtime_error "Multiplication is not implemented for these operands".
Definition Not_error : Signal :=
  runtime.runtime_error "'Not' is not implemented for this argument".

(** The world after [text] is written to the output stream. *)
Definition written (w : World) (text : string) : World :=
  {| runtime.instances := runtime.instances w;
     runtime.output := String.append (runtime.output w) text;
     runtime.instance_id := runtime.instance_id w |}.

(** The exception of [ClassInstance::Call]. *)
Definition Call_error (method : string) : Signal :=
  runtime.runtime_error (String.append "Error call " (String.append method ".")).

(** The exceptions that the evaluation of a node is left by: neither the
    one of [ClassInstance::Call] nor the [std::out_of_range] of
    [closure.at]. *)
Definition evaluation_signal (e : Signal) : Prop :=
  e ≠ runtime.out_of_range ∧ ∀ method, e ≠ Call_error method.

(** Every name that the closure of [s] binds is bound by the closure of
    [s']. *)
Definition keeps_names (s s' : Closure * World) : Prop :=
  ∀ n, is_Some (fst s !! n) → is_Some (fst s' !! n).

(** What holds of the outcome of an evaluation that starts in [s]. *)
Definition sound {A} (s : Closure * World) (o : Outcome Signal (Closure * World) A) : Prop :=
  match o with
  | Normal _ s' => keeps_names s s'
  | Thrown e s' => keeps_names s s' ∧ evaluation_signal e
  | Undefined | OutOfFuel => True
  end.

(** The same for the functions of the runtime, which are not given the
    closure. *)
Definition sound_w {A} (o : Outcome Signal World A) : Prop :=
  match o with
  | Thrown e _ => evaluation_signal e
  | _ => True
  end.

(** Closures for the instances of the theorems. *)
Definition numbers : Closure := <["two" := number 2]> (<["three" := number 3]> ∅).

Definition operands : Closure :=
  <["max" := number runtime.INT_MAX]> (<["one" := number 1]>
    (<["a" := text "a"]> (<["b" := text "b"]> ∅))).









End EvaluatorVocabulary.

(** * Properties of the lexer *)

Section LexerFacts.
Import parse.

Lemma ReadString_loop_errors quote_type n :
  ∀ input e, (length input ≤ n)%nat →
    ReadString_loop quote_type input = Throw e → not_indent_error e.
Proof.
  induction n as [|n IH]; intros input e Hlen.
  - destruct input; [|simpl in Hlen; lia].
    simpl. intros [= <-]. discriminate.
  - destruct input as [|ch rest]; simpl.
    + intros [= <-]. discriminate.
    + simpl in Hlen. destruct (same ch quote_type); [discriminate|].
      destruct (same ch "\"%char).
      * destruct rest as [|escaped_char rest']; [intros [= <-]; discriminate|].
        simpl in Hlen.
        assert (Hrec : ∀ c, (do (s, r) <- ReadString_loop quote_type rest';
                               Ok (String c s, r)) = Throw e → not_indent_error e).
        { intros c. destruct (ReadString_loop quote_type rest') as [[s r]|e'|] eqn:E;
            simpl; try discriminate.
          intros [= <-]. apply (IH rest'); [lia|exact E]. }
        repeat match goal with
               | |- context [if ?b then _ else _] => destruct b; [apply Hrec|]
               end.
        intros [= <-]. discriminate.
      * destruct (same ch NL || same ch CR); [intros [= <-]; discriminate|].
        destruct (ReadString_loop quote_type rest) as [[s r]|e'|] eqn:E;
          simpl; try discriminate.
        intros [= <-]. apply (IH rest); [lia|exact E].
Qed.

Lemma ReadString_errors input toks e :
  ReadString input toks = Throw e → not_indent_error e.
Proof.
  destruct input as [|q rest]; simpl; [intros [= <-]; discriminate|].
  destruct (ReadString_loop q rest) as [[s r]|e'|] eqn:E; simpl; try discriminate.
  intros [= <-]. eapply ReadString_loop_errors; [reflexivity|exact E].
Qed.

Lemma ReadNumber_errors input toks e :
  ReadNumber input toks = Throw e → not_indent_error e.
Proof.
  unfold ReadNumber. destruct (take_digits input) as [parsed_num rest].
  unfold stoi. destruct (_ <=? _)%Z; simpl; [discriminate|].
  intros [= <-]. discriminate.
Qed.

Lemma ReadLine_loop_errors fuel :
  ∀ input toks e, ReadLine_loop fuel input toks = Throw e → not_indent_error e.
Proof.
  induction fuel as [|fuel IH]; intros input toks e; simpl; [discriminate|].
  destruct input as [|c rest]; [discriminate|].
  repeat match goal with
         | |- context [if ?b then _ else _] => destruct b
         | |- (let '(_, _) := ?p in _) = _ → _ => destruct p
         | |- ReadLine_loop fuel _ _ = _ → _ => apply IH
         | |- Ok _ = Throw _ → _ => discriminate
         end.
  - destruct (ReadString (c :: rest) toks) as [[toks' input']|e'|] eqn:E;
      simpl; try discriminate; [apply IH|].
    intros [= <-]. eapply ReadString_errors, E.
  - destruct (ReadNumber (c :: rest) toks) as [[toks' input']|e'|] eqn:E;
      simpl; try discriminate; [apply IH|].
    intros [= <-]. eapply ReadNumber_errors, E.
Qed.

Lemma ReadLine_errors input e :
  ReadLine input = Throw e → not_indent_error e.
Proof.
  unfold ReadLine. destruct (ProcessSpaces _) as [spaces input2].
  destruct (ReadLine_loop _ input2 []) as [[toks rest]|e'|] eqn:E;
    simpl; try discriminate.
  intros [= <-]. eapply ReadLine_loop_errors, E.
Qed.

Lemma odd_mod_2 n : negb (n mod 2 =? 0)%nat = Nat.odd n.
Proof.
  rewrite <- Nat.bit0_mod, Nat.bit0_odd. now destruct (Nat.odd n).
Qed.

Lemma CurrentToken_errors lx e : CurrentToken lx = Throw e → not_indent_error e.
Proof.
  unfold CurrentToken. destruct (_ !! _); [discriminate|].
  intros [= <-]. discriminate.
Qed.

Lemma ParseLine_fuel_step fuel lx line rest :
  ReadLine (input_ lx) = Ok (line, rest) →
  ParseLine_fuel (S fuel) lx =
    if Nat.odd (GetStartingSpaces line) then Throw IncorrectIndent
    else if negb (IsAllEof line) && IsEmpty line
         then ParseLine_fuel fuel (set_input lx rest)
         else ParseLine_emit lx line rest.
Proof.
  intros HR. cbn [ParseLine_fuel]. rewrite HR. cbn [bindR]. rewrite odd_mod_2.
  destruct (Nat.odd _); [reflexivity|].
  unfold ParseLine_emit.
  destruct (IsAllEof line), (IsEmpty line); reflexivity.
Qed.

Lemma ParseLine_emit_errors lx line rest e :
  ParseLine_emit lx line rest = Throw e → not_indent_error e.
Proof.
  unfold ParseLine_emit.
  destruct (negb (IsAllEof line) && negb (IsEmpty line)).
  - destruct (_ <? _)%nat; [|destruct (_ <? _)%nat];
      (destruct (CurrentToken _) as [t|e'|] eqn:E; simpl; try discriminate;
       intros [= <-]; eapply CurrentToken_errors, E).
  - destruct (CurrentToken _) as [t|e'|] eqn:E; simpl; try discriminate.
    intros [= <-]. eapply CurrentToken_errors, E.
Qed.

(** C2, as amended.  [ParseLine] raises [Incorrect indent.] exactly when
    the line it reads has an odd count of leading spaces, whatever the line
    holds, or when that line is skipped and the error is raised further on.
    A line made of newline tokens only (a blank or comment-only line) with
    an even count is skipped: the next line is read with [tokens_],
    [cur_token_] and [cur_indent_] as they were. *)
Theorem indent_error_iff_odd_leading_spaces fuel lx :
  (ParseLine_fuel (S fuel) lx = Throw IncorrectIndent ↔
   ∃ line rest, ReadLine (input_ lx) = Ok (line, rest) ∧
     (Nat.odd (GetStartingSpaces line) = true ∨
      (Nat.odd (GetStartingSpaces line) = false ∧
       IsAllEof line = false ∧ IsEmpty line = true ∧
       ParseLine_fuel fuel (set_input lx rest) = Throw IncorrectIndent)))
  ∧
  (∀ line rest, ReadLine (input_ lx) = Ok (line, rest) →
     Nat.odd (GetStartingSpaces line) = false →
     IsAllEof line = false → IsEmpty line = true →
     ParseLine_fuel (S fuel) lx = ParseLine_fuel fuel (set_input lx rest)
     ∧ tokens_ (set_input lx rest) = tokens_ lx
     ∧ cur_token_ (set_input lx rest) = cur_token_ lx
     ∧ cur_indent_ (set_input lx rest) = cur_indent_ lx).
Proof.
  split.
  - destruct (ReadLine (input_ lx)) as [[line rest]|e|] eqn:HR.
    + rewrite (ParseLine_fuel_step fuel lx line rest HR). split.
      * intros H. exists line, rest. split; [reflexivity|].
        destruct (Nat.odd _); [now left|right].
        destruct (IsAllEof line), (IsEmpty line); simpl in H;
          try (exfalso; now apply (ParseLine_emit_errors _ _ _ _ H)).
        now repeat split.
      * intros (line' & rest' & [= <- <-] & [Hodd | (Heven & HA & HE & Hrec)]).
        -- now rewrite Hodd.
        -- now rewrite Heven, HA, HE.
    + split.
      * cbn [ParseLine_fuel]. rewrite HR. cbn [bindR]. intros [= ->].
        exfalso. now apply (ReadLine_errors _ _ HR).
      * intros (line & rest & [=] & _).
    + split.
      * cbn [ParseLine_fuel]. rewrite HR. discriminate.
      * intros (line & rest & [=] & _).
  - intros line rest HR Heven HA HE.
    rewrite (ParseLine_fuel_step fuel lx line rest HR), Heven, HA, HE.
    now repeat split.
Qed.

(** C2, as it is stated, fails on a comment-only line that starts with one
    space: the line holds no token but its newline, and it is not skipped:
    [Incorrect indent.] is raised. *)
Lemma odd_indent_raises_on_comment_only_line :
  let lx := {| tokens_ := []; input_ := [SPACE; "#"%char; "c"%char; NL];
               cur_token_ := 0; cur_indent_ := 0 |} in
  ∃ line rest,
    ReadLine (input_ lx) = Ok (line, rest)
    ∧ GetTokens line = [token_type.Newline]
    ∧ IsEmpty line = true
    ∧ GetStartingSpaces line = 1
    ∧ ParseLine lx = Throw IncorrectIndent.
Proof.
  eexists _, _. split; [reflexivity|]. now repeat split.
Qed.

(** The same for a line of three spaces before the stream ends, and for a
    blank line of one space. *)
Example odd_indent_raises_on_blank_lines :
  Lexer_new [SPACE; NL] = Throw IncorrectIndent
  ∧ Lexer_new ["x"%char; NL; SPACE; SPACE; SPACE] = Ok
      (token_type.Id "x",
       {| tokens_ := [token_type.Id "x"; token_type.Newline]; input_ := [SPACE; SPACE; SPACE];
          cur_token_ := 0; cur_indent_ := 0 |})
  ∧ (do (_, lx) <- Lexer_new ["x"%char; NL; SPACE; SPACE; SPACE];
     do (_, lx) <- NextToken lx;
     NextToken lx) = Throw IncorrectIndent.
Proof. now repeat split. Qed.

(** An instance of [indent_error_iff_odd_leading_spaces]: a blank line of
    two spaces is skipped, and the line after it is read with the state
    as it was. *)
Lemma indent_error_iff_odd_leading_spaces_witness :
  let lx := {| tokens_ := [token_type.Id "x"; token_type.Newline];
               input_ := [SPACE; SPACE; NL; "y"%char; NL];
               cur_token_ := 1; cur_indent_ := 0 |} in
  ParseLine_fuel 2 lx = ParseLine_fuel 1 (set_input lx ["y"%char; NL])
  ∧ ParseLine_fuel 2 lx = Ok
      (token_type.Id "y",
       {| tokens_ := [token_type.Id "x"; token_type.Newline; token_type.Id "y"; token_type.Newline];
          input_ := []; cur_token_ := 2; cur_indent_ := 0 |}).
Proof.
  intros lx. split; [|reflexivity].
  apply (proj2 (indent_error_iff_odd_leading_spaces 1 lx)
               {| starting_spaces_ := 2; line_tokens_ := [token_type.Newline] |}
               ["y"%char; NL]); reflexivity.
Defined.

(** C1.  The source [if a:], newline, two spaces, [x] is well formed, and
    its last line is not ended by a newline.  The stream that the client
    reads up to [Eof] opens an indent and never closes it; asked once more,
    the lexer hands out the [Dedent] and a second [Eof], both after the
    first [Eof]. *)
Theorem unterminated_last_line_token_stream :
  let input := ["i"; "f"; " "; "a"; ":"; NL; " "; " "; "x"]%char in
  let stream := [token_type.If; token_type.Id "a"; token_type.Char ":"; token_type.Newline;
                 token_type.Indent; token_type.Id "x"; token_type.Newline; token_type.Eof] in
  let lx := {| tokens_ := stream; input_ := []; cur_token_ := 7; cur_indent_ := 1 |} in
  TokenStream 7 input = Ok (stream, lx)
  ∧ NextToken lx = Ok
      (token_type.Dedent,
       {| tokens_ := stream ++ [token_type.Dedent; token_type.Eof]; input_ := [];
          cur_token_ := 8; cur_indent_ := 1 |}).
Proof. split; reflexivity. Qed.

(** With a newline at the end of the same source the indent is closed
    before the only [Eof]. *)
Example terminated_last_line_token_stream :
  let input := ["i"; "f"; " "; "a"; ":"; NL; " "; " "; "x"; NL]%char in
  ∃ lx, TokenStream 8 input = Ok
    ([token_type.If; token_type.Id "a"; token_type.Char ":"; token_type.Newline;
      token_type.Indent; token_type.Id "x"; token_type.Newline;
      token_type.Dedent; token_type.Eof], lx).
Proof. eexists. reflexivity. Qed.

(** ** The stream of a source that ends with a newline *)

Lemma same_eq c d : same c d = true ↔ c = d.
Proof. apply Ascii.eqb_eq. Qed.

Lemma ProcessSpaces_line pre post :
  line_chars pre →
  ∃ n pre', ProcessSpaces (pre ++ NL :: post) = (n, pre' ++ NL :: post)
            ∧ line_chars pre' ∧ (length pre' ≤ length pre)%nat.
Proof.
  induction 1 as [|c pre Hc Hpre (n & pre' & IH & Hok & Hlen)].
  - exists 0, []. repeat split; [constructor|reflexivity].
  - cbn [app ProcessSpaces]. destruct (same c SPACE).
    + rewrite IH. exists (S n), pre'. repeat split; [exact Hok|simpl; lia].
    + exists 0, (c :: pre). repeat split; [now constructor|lia].
Qed.

Lemma ProcessComment_line pre post :
  line_chars pre → ProcessComment (pre ++ NL :: post) = NL :: post.
Proof.
  induction 1 as [|c pre [Hc _] Hpre IH]; [reflexivity|].
  cbn [app ProcessComment]. now rewrite Hc.
Qed.

Lemma take_digits_line pre post :
  line_chars pre →
  ∃ s pre', take_digits (pre ++ NL :: post) = (s, pre' ++ NL :: post)
            ∧ line_chars pre' ∧ (length pre' ≤ length pre)%nat.
Proof.
  induction 1 as [|c pre Hc Hpre (s & pre' & IH & Hok & Hlen)].
  - exists "", []. repeat split; [constructor|reflexivity].
  - cbn [app take_digits]. destruct (isdigit c).
    + rewrite IH. exists (String c s), pre'. repeat split; [exact Hok|simpl; lia].
    + exists "", (c :: pre). repeat split; [now constructor|lia].
Qed.

Lemma take_ident_line pre post :
  line_chars pre →
  ∃ s pre', take_ident (pre ++ NL :: post) = (s, pre' ++ NL :: post)
            ∧ line_chars pre' ∧ (length pre' ≤ length pre)%nat.
Proof.
  induction 1 as [|c pre Hc Hpre (s & pre' & IH & Hok & Hlen)].
  - exists "", []. repeat split; [constructor|reflexivity].
  - cbn [app take_ident]. destruct (ident_char c).
    + rewrite IH. exists (String c s), pre'. repeat split; [exact Hok|simpl; lia].
    + exists "", (c :: pre). repeat split; [now constructor|lia].
Qed.

Lemma ReadString_loop_line quote_type post n :
  same NL quote_type = false →
  ∀ pre s rest, (length pre ≤ n)%nat → line_chars pre →
    ReadString_loop quote_type (pre ++ NL :: post) = Ok (s, rest) →
    ∃ pre', rest = pre' ++ NL :: post ∧ line_chars pre' ∧ (length pre' ≤ length pre)%nat.
Proof.
  intros Hq. induction n as [|n IH]; intros pre s rest Hlen Hpre.
  - destruct pre; [|simpl in Hlen; lia].
    cbn [app ReadString_loop]. rewrite Hq. cbn. discriminate.
  - destruct Hpre as [|ch pre Hch Hpre].
    + cbn [app ReadString_loop]. rewrite Hq. cbn. discriminate.
    + cbn [app ReadString_loop]. simpl in Hlen.
      destruct (same ch quote_type).
      { intros [= <- <-]. exists pre. repeat split; [exact Hpre|simpl; lia]. }
      destruct (same ch "\"%char).
      * destruct Hpre as [|escaped_char pre He Hpre].
        { cbn. discriminate. }
        cbn [app]. simpl in Hlen.
        assert (Hrec : ∀ c, (do (s0, r) <- ReadString_loop quote_type (pre ++ NL :: post);
                               Ok (String c s0, r)) = Ok (s, rest) →
                  ∃ pre', rest = pre' ++ NL :: post ∧ line_chars pre'
                          ∧ (length pre' ≤ length (ch :: escaped_char :: pre))%nat).
        { intros c.
          destruct (ReadString_loop quote_type (pre ++ NL :: post)) as [[s0 r]|e|] eqn:E;
            cbn [bindR]; try discriminate.
          intros [= <- <-].
          destruct (IH pre s0 r ltac:(lia) Hpre E) as (pre' & -> & Hok & Hl).
          exists pre'. repeat split; [exact Hok|simpl; lia]. }
        repeat match goal with
               | |- context [if ?b then _ else _] => destruct b; [apply Hrec|]
               end.
        discriminate.
      * destruct (same ch NL || same ch CR); [discriminate|].
        destruct (ReadString_loop quote_type (pre ++ NL :: post)) as [[s0 r]|e|] eqn:E;
          cbn [bindR]; try discriminate.
        intros [= <- <-].
        destruct (IH pre s0 r ltac:(lia) Hpre E) as (pre' & -> & Hok & Hl).
        exists pre'. repeat split; [exact Hok|simpl; lia].
Qed.

Lemma keyword_or_Id_plain s : plain (keyword_or_Id s) = true.
Proof. unfold keyword_or_Id. repeat destruct (String.eqb _ _); reflexivity. Qed.

(** On a line that a newline ends, the loop of [ReadLine] stops behind
    that newline, and the tokens it adds are plain ones and the Newline. *)
Lemma ReadLine_loop_line fuel :
  ∀ pre post toks toks' rest,
    line_chars pre →
    ReadLine_loop fuel (pre ++ NL :: post) toks = Ok (toks', rest) →
    rest = post
    ∧ ∃ new, toks' = toks ++ new ++ [token_type.Newline] ∧ Forall (λ t, plain t = true) new.
Proof.
  induction fuel as [|fuel IH]; intros pre post toks toks' rest Hpre; [discriminate|].
  assert (Hnext : ∀ t pre', plain t = true → line_chars pre' →
            ReadLine_loop fuel (pre' ++ NL :: post) (toks ++ [t]) = Ok (toks', rest) →
            rest = post
            ∧ ∃ new, toks' = toks ++ new ++ [token_type.Newline]
                     ∧ Forall (λ t, plain t = true) new).
  { intros t pre' Ht Hpre' H.
    destruct (IH _ _ _ _ _ Hpre' H) as (-> & new & -> & Hnew).
    split; [reflexivity|]. exists (t :: new).
    split; [rewrite <- app_assoc; reflexivity|constructor; assumption]. }
  destruct Hpre as [|c pre [Hnl Heof] Hpre].
  - cbn. intros [= <- <-]. split; [reflexivity|]. now exists [].
  - cbn [app ReadLine_loop peek head is_EOF]. rewrite Heof, Hnl.
    destruct (same c SPACE) eqn:Hsp.
    { destruct (ProcessSpaces_line (c :: pre) post ltac:(now constructor))
        as (n & pre' & E & Hok & _).
      cbn [app] in E. rewrite E. cbn [snd]. now apply IH. }
    destruct (same c "#"%char).
    { pose proof (ProcessComment_line (c :: pre) post ltac:(now constructor)) as E.
      cbn [app] in E. rewrite E. apply (IH []). constructor. }
    destruct (same c DQUOTE || same c "'"%char) eqn:Hquote.
    { cbn [ReadString].
      destruct (ReadString_loop c (pre ++ NL :: post)) as [[s r]|e|] eqn:E;
        cbn [bindR]; try discriminate.
      assert (Hq : same NL c = false).
      { destruct (same NL c) eqn:Hc; [|reflexivity].
        apply same_eq in Hc. subst c. discriminate. }
      destruct (ReadString_loop_line c post _ Hq pre s r (le_n _) Hpre E)
        as (pre' & -> & Hok & _).
      now apply Hnext. }
    destruct (isdigit c).
    { unfold ReadNumber.
      destruct (take_digits_line (c :: pre) post ltac:(now constructor))
        as (s & pre' & E & Hok & _).
      cbn [app] in E. rewrite E.
      destruct (stoi s); cbn [bindR]; try discriminate.
      now apply Hnext. }
    destruct (isalpha c || same c "_"%char).
    { unfold ReadIdentifier.
      destruct (take_ident_line (c :: pre) post ltac:(now constructor))
        as (s & pre' & E & Hok & _).
      cbn [app] in E. rewrite E.
      apply Hnext; [apply keyword_or_Id_plain|exact Hok]. }
    destruct ((same c "!"%char || same c "="%char || same c "<"%char || same c ">"%char)
              && match peek (pre ++ NL :: post) with
                 | Some d => same d "="%char
                 | None => false
                 end) eqn:Hcomp.
    { apply andb_true_iff in Hcomp as [_ Hpeek].
      destruct Hpre as [|d pre Hd Hpre]; [discriminate|].
      unfold ReadCompSymb. cbn [app tail].
      repeat match goal with
             | |- context [if ?b then _ else _] => destruct b; [now apply Hnext|]
             end.
      intros H. exact (IH _ _ _ _ _ Hpre H). }
    now apply Hnext.
Qed.

Lemma well_terminated_nil : well_terminated [].
Proof. split; [constructor|now left]. Qed.

Lemma well_terminated_split c input :
  well_terminated (c :: input) →
  ∃ pre post, c :: input = pre ++ NL :: post ∧ line_chars pre ∧ well_terminated post.
Proof.
  intros [Hff [[=] | Hlast]].
  assert (Hin : NL ∈ c :: input) by now apply last_Some_elem_of.
  apply list_elem_of_split_l in Hin as (pre & post & E & Hpre).
  exists pre, post. split; [exact E|]. rewrite E in Hff, Hlast.
  apply Forall_app in Hff as [Hff1 Hff2]. apply Forall_cons in Hff2 as [_ Hff2].
  split; [|split; [exact Hff2|]].
  - apply Forall_forall. intros d Hd. split.
    + destruct (same d NL) eqn:E'; [|reflexivity].
      apply same_eq in E'. now subst d.
    + rewrite Forall_forall in Hff1. now apply Hff1.
  - destruct post as [|d post]; [now left|right].
    now rewrite last_app_cons, last_cons_cons in Hlast.
Qed.

Lemma SkipNewLinesOnly_well_terminated input :
  well_terminated input →
  well_terminated (SkipNewLinesOnly input)
  ∧ (length (SkipNewLinesOnly input) ≤ length input)%nat.
Proof.
  induction input as [|c input IH]; intros H; [now split|].
  cbn [SkipNewLinesOnly]. destruct (same c NL) eqn:Hc; [|now split].
  destruct H as [Hff Hlast]. apply Forall_cons in Hff as [_ Hff].
  destruct IH as [IH Hlen].
  - split; [exact Hff|]. destruct input as [|d input]; [now left|right].
    destruct Hlast as [[=]|Hlast]. now rewrite last_cons_cons in Hlast.
  - split; [exact IH|simpl; lia].
Qed.

Lemma SkipNewLinesOnly_head input c rest :
  SkipNewLinesOnly input = c :: rest → same c NL = false.
Proof.
  induction input as [|d input IH]; [discriminate|].
  cbn [SkipNewLinesOnly]. destruct (same d NL) eqn:Hd; [exact IH|].
  now intros [= <- <-].
Qed.

(** [ReadLine] on such a source: at its end the line is a lone [Eof];
    before its end the line is made of plain tokens and a [Newline], and
    what is left is such a source again, and a shorter one. *)
Lemma ReadLine_well_terminated input line rest :
  well_terminated input →
  ReadLine input = Ok (line, rest) →
  (line = {| starting_spaces_ := 0; line_tokens_ := [token_type.Eof] |} ∧ rest = [])
  ∨ (∃ new, line_tokens_ line = new ++ [token_type.Newline]
            ∧ Forall (λ t, plain t = true) new
            ∧ well_terminated rest
            ∧ (length rest < length input)%nat).
Proof.
  intros Hwt. unfold ReadLine.
  destruct (SkipNewLinesOnly_well_terminated input Hwt) as [Hwt1 Hlen1].
  destruct (SkipNewLinesOnly input) as [|c input1] eqn:E1.
  - cbn. intros [= <- <-]. now left.
  - destruct (well_terminated_split c input1 Hwt1) as (pre & post & Esplit & Hpre & Hpost).
    rewrite Esplit in Hlen1 |- *.
    destruct (ProcessSpaces_line pre post Hpre) as (n & pre' & -> & Hpre' & Hlen').
    destruct (ReadLine_loop _ _ _) as [[toks r]|e|] eqn:E; cbn [bindR]; try discriminate.
    intros [= <- <-]. right.
    destruct (ReadLine_loop_line _ _ _ _ _ _ Hpre' E) as (-> & new & -> & Hnew).
    exists new. cbn [line_tokens_ app]. repeat split; try assumption.
    + apply Hpost.
    + apply Hpost.
    + rewrite length_app in Hlen1. simpl in Hlen1. lia.
Qed.

Lemma indent_after_app level ts1 ts2 :
  indent_after level (ts1 ++ ts2) =
    match indent_after level ts1 with
    | Some level' => indent_after level' ts2
    | None => None
    end.
Proof.
  revert level. induction ts1 as [|t ts1 IH]; intros level; [reflexivity|].
  destruct t; cbn [app indent_after]; try apply IH.
  destruct level; [reflexivity|apply IH].
Qed.

Lemma indent_after_Indents n level :
  indent_after level (replicate n token_type.Indent) = Some (level + n).
Proof.
  revert level. induction n as [|n IH]; intros level; cbn [replicate indent_after].
  - f_equal. lia.
  - rewrite IH. f_equal. lia.
Qed.

Lemma indent_after_Dedents n level :
  (n ≤ level)%nat → indent_after level (replicate n token_type.Dedent) = Some (level - n).
Proof.
  revert level. induction n as [|n IH]; intros level Hn; cbn [replicate indent_after].
  - f_equal. lia.
  - destruct level as [|level]; [lia|]. rewrite IH by lia. reflexivity.
Qed.

Lemma indent_after_plain level ts :
  Forall (λ t, plain t = true) ts → indent_after level ts = Some level.
Proof.
  induction 1 as [|t ts Ht _ IH]; [reflexivity|].
  destruct t; try discriminate; exact IH.
Qed.

Lemma plain_no_Eof ts : Forall (λ t, plain t = true) ts → no_Eof ts.
Proof. intros H. eapply Forall_impl; [exact H|]. now intros []. Qed.

Lemma no_Eof_replicate n t : is_Eof t = false → no_Eof (replicate n t).
Proof. intros Ht. induction n; constructor; assumption. Qed.

Lemma IsAllEof_tokens_Newline new :
  IsAllEof_tokens (new ++ [token_type.Newline]) = false.
Proof.
  assert (H : forallb is_Eof (new ++ [token_type.Newline]) = false).
  { rewrite forallb_app. cbn. apply andb_false_r. }
  destruct new; [reflexivity|exact H].
Qed.

(** What one call of [ParseLine] adds to the stream of such a source. *)
Lemma ParseLine_fuel_stream fuel :
  ∀ lx t lx1,
    well_terminated (input_ lx) →
    ParseLine_fuel fuel lx = Ok (t, lx1) →
    ∃ new, tokens_ lx1 = tokens_ lx ++ new
      ∧ new !! 0 = Some t
      ∧ cur_token_ lx1 = length (tokens_ lx)
      ∧ well_terminated (input_ lx1)
      ∧ ((no_Eof new ∧ indent_after (cur_indent_ lx) new = Some (cur_indent_ lx1))
         ∨ (∃ body, new = body ++ [token_type.Eof] ∧ no_Eof body
                    ∧ indent_after (cur_indent_ lx) new = Some 0)).
Proof.
  induction fuel as [|fuel IH]; intros lx t lx1 Hwt; [discriminate|].
  destruct (ReadLine (input_ lx)) as [[line rest]|e|] eqn:HR.
  2,3: cbn [ParseLine_fuel]; rewrite HR; discriminate.
  rewrite (ParseLine_fuel_step _ _ _ _ HR).
  destruct (Nat.odd _); [discriminate|].
  destruct (ReadLine_well_terminated _ _ _ Hwt HR)
    as [[-> ->] | (new0 & Hline & Hplain & Hrest & _)].
  - (* the end of the stream *)
    cbn -[replicate]. unfold CurrentToken. cbn -[replicate].
    rewrite lookup_app_r by lia. rewrite Nat.sub_diag.
    set (new := replicate (cur_indent_ lx) token_type.Dedent ++ [token_type.Eof]).
    destruct (new !! 0) as [t0|] eqn:Hnew; cbn [bindR]; [|discriminate].
    intros [= <- <-]. exists new. cbn [tokens_ cur_token_ input_ cur_indent_].
    split; [reflexivity|]. split; [exact Hnew|]. split; [reflexivity|].
    split; [apply well_terminated_nil|].
    right. exists (replicate (cur_indent_ lx) token_type.Dedent).
    split; [reflexivity|]. split; [now apply no_Eof_replicate|].
    unfold new. rewrite indent_after_app, indent_after_Dedents by lia.
    cbn. f_equal. lia.
  - assert (HA : IsAllEof line = false).
    { unfold IsAllEof. rewrite Hline. apply IsAllEof_tokens_Newline. }
    rewrite HA. cbn [negb andb].
    destruct (IsEmpty line) eqn:HE.
    + (* a blank line: the next one is read *)
      intros H. exact (IH (set_input lx rest) t lx1 Hrest H).
    + unfold ParseLine_emit. rewrite HA, HE. cbn [negb andb].
      set (level := (GetStartingSpaces line / 2)%nat). clearbody level.
      assert (Hbr : ∃ brackets,
                (if (cur_indent_ lx <? level)%nat
                 then (level, tokens_ lx ++ replicate (level - cur_indent_ lx) token_type.Indent)
                 else if (level <? cur_indent_ lx)%nat
                      then (level, tokens_ lx
                                   ++ replicate (cur_indent_ lx - level) token_type.Dedent)
                      else (cur_indent_ lx, tokens_ lx))
                = (level, tokens_ lx ++ brackets)
                ∧ no_Eof brackets
                ∧ indent_after (cur_indent_ lx) brackets = Some level).
      { destruct (Nat.ltb_spec (cur_indent_ lx) level) as [Hlt|Hge].
        - eexists. split; [reflexivity|]. split; [now apply no_Eof_replicate|].
          rewrite indent_after_Indents. f_equal. lia.
        - destruct (Nat.ltb_spec level (cur_indent_ lx)) as [Hlt|Hge'].
          + eexists. split; [reflexivity|]. split; [now apply no_Eof_replicate|].
            rewrite indent_after_Dedents by lia. f_equal. lia.
          + exists []. rewrite app_nil_r.
            assert (cur_indent_ lx = level) as -> by lia.
            split; [reflexivity|]. split; [constructor|reflexivity]. }
      destruct Hbr as (brackets & -> & Hb1 & Hb2).
      unfold CurrentToken. cbn [tokens_ cur_token_].
      rewrite <- app_assoc, lookup_app_r by lia. rewrite Nat.sub_diag.
      unfold GetTokens. rewrite Hline.
      set (new := brackets ++ new0 ++ [token_type.Newline]).
      destruct (new !! 0) as [t0|] eqn:Hnew; cbn [bindR]; [|discriminate].
      intros [= <- <-]. exists new. cbn [tokens_ cur_token_ input_ cur_indent_].
      split; [reflexivity|]. split; [exact Hnew|]. split; [reflexivity|].
      split; [exact Hrest|].
      left. split.
      * unfold new. apply Forall_app. split; [exact Hb1|].
        apply Forall_app. split; [now apply plain_no_Eof|now constructor].
      * unfold new. rewrite indent_after_app, Hb2.
        apply indent_after_plain. apply Forall_app. split; [exact Hplain|now constructor].
Qed.

Lemma no_Eof_lookup ts i t : no_Eof ts → ts !! i = Some t → is_Eof t = false.
Proof. intros H Hi. exact (proj1 (Forall_lookup _ ts) H i t Hi). Qed.

Lemma ParseLine_stream_inv lx t lx1 :
  stream_inv lx → at_last_token lx = true → is_Eof t = false →
  tokens_ lx !! cur_token_ lx = Some t →
  ∀ t1, ParseLine lx = Ok (t1, lx1) →
    stream_inv lx1
    ∧ tokens_ lx1 !! cur_token_ lx1 = Some t1
    ∧ cur_token_ lx1 = S (cur_token_ lx)
    ∧ tokens_ lx `prefix_of` tokens_ lx1.
Proof.
  intros (Hwt & Hbefore & Hshape) Hlast Ht Hcur t1 HP.
  assert (Hlen : length (tokens_ lx) = S (cur_token_ lx)).
  { unfold at_last_token in Hlast. destruct (length (tokens_ lx)); [discriminate|].
    apply Nat.eqb_eq in Hlast. now subst. }
  destruct Hshape as [[Hno Hdepth] | [(body & Hbody & Hno) _]].
  2:{ exfalso. rewrite Hbody in Hcur, Hlen. rewrite length_app in Hlen. cbn in Hlen.
      assert (Hpos : cur_token_ lx = length body) by lia.
      rewrite (list_lookup_middle body [] token_type.Eof _ Hpos) in Hcur.
      injection Hcur as <-. discriminate. }
  destruct (ParseLine_fuel_stream _ _ _ _ Hwt HP)
    as (new & Htok & Hhd & Hc & Hwt1 & Hnew).
  split; [|split; [|split]].
  - split; [exact Hwt1|]. split.
    + rewrite Hc, Htok, take_app_length. exact Hno.
    + rewrite Htok. destruct Hnew as [[Hno' Hd'] | (body & -> & Hno' & Hd')].
      * left. split; [now apply Forall_app|]. now rewrite indent_after_app, Hdepth.
      * right. split.
        -- exists (tokens_ lx ++ body). split; [now rewrite app_assoc|now apply Forall_app].
        -- now rewrite indent_after_app, Hdepth.
  - rewrite Hc, Htok. destruct new as [|t' new]; [discriminate|].
    injection Hhd as ->. now apply list_lookup_middle.
  - lia.
  - rewrite Htok. now apply prefix_app_r.
Qed.

(** The stream that the client reads from a lexer in such a state. *)
Lemma drain_stream fuel :
  ∀ cur lx toks lx',
    stream_inv lx →
    tokens_ lx !! cur_token_ lx = Some cur →
    drain fuel cur lx = Ok (toks, lx') →
    complete_stream (tokens_ lx')
    ∧ tokens_ lx `prefix_of` tokens_ lx'
    ∧ toks = drop (cur_token_ lx) (tokens_ lx').
Proof.
  assert (Hend : ∀ cur lx, stream_inv lx → tokens_ lx !! cur_token_ lx = Some cur →
            is_Eof cur = true →
            complete_stream (tokens_ lx) ∧ [cur] = drop (cur_token_ lx) (tokens_ lx)).
  { intros cur lx (_ & _ & Hshape) Hcur HEof.
    destruct Hshape as [[Hno _] | Hc].
    { rewrite (no_Eof_lookup _ _ _ Hno Hcur) in HEof. discriminate. }
    split; [exact Hc|]. destruct Hc as [(body & Hbody & Hno) _].
    rewrite Hbody in Hcur |- *.
    destruct (Nat.lt_ge_cases (cur_token_ lx) (length body)) as [Hlt|Hge].
    { rewrite lookup_app_l in Hcur by exact Hlt.
      rewrite (no_Eof_lookup _ _ _ Hno Hcur) in HEof. discriminate. }
    pose proof (lookup_lt_Some _ _ _ Hcur) as Hlt. rewrite length_app in Hlt. cbn in Hlt.
    assert (Hpos : cur_token_ lx = length body) by lia.
    rewrite (list_lookup_middle body [] token_type.Eof _ Hpos) in Hcur.
    injection Hcur as <-. now rewrite Hpos, drop_app_length. }
  induction fuel as [|fuel IH]; intros cur lx toks lx' Hinv Hcur; cbn [drain];
    destruct (is_Eof cur) eqn:HEof.
  - intros [= <- <-]. destruct (Hend _ _ Hinv Hcur HEof). split; [|split]; done.
  - discriminate.
  - intros [= <- <-]. destruct (Hend _ _ Hinv Hcur HEof). split; [|split]; done.
  - destruct (NextToken lx) as [[t lx1]|e|] eqn:HN; cbn [bindR]; try discriminate.
    destruct (drain fuel t lx1) as [[ts lx2]|e|] eqn:HD; cbn [bindR]; try discriminate.
    intros [= <- <-].
    assert (Hstep : stream_inv lx1 ∧ tokens_ lx1 !! cur_token_ lx1 = Some t
                    ∧ cur_token_ lx1 = S (cur_token_ lx)
                    ∧ tokens_ lx `prefix_of` tokens_ lx1).
    { unfold NextToken in HN. destruct (at_last_token lx) eqn:Hlast.
      - exact (ParseLine_stream_inv _ _ _ Hinv Hlast HEof Hcur _ HN).
      - unfold CurrentToken in HN. cbn [tokens_ cur_token_] in HN.
        destruct (tokens_ lx !! S (cur_token_ lx)) as [t'|] eqn:Hnext; cbn [bindR] in HN;
          [|discriminate].
        injection HN as <- <-. cbn [tokens_ cur_token_ input_ cur_indent_].
        destruct Hinv as (Hwt & Hbefore & Hshape).
        split; [|now repeat split].
        split; [exact Hwt|]. split; [|exact Hshape].
        cbn [tokens_ cur_token_]. rewrite (take_S_r _ _ _ Hcur).
        apply Forall_app. split; [exact Hbefore|now constructor]. }
    destruct Hstep as (Hinv1 & Hcur1 & HS & Hpre).
    destruct (IH _ _ _ _ Hinv1 Hcur1 HD) as (Hc & Hpre2 & ->).
    split; [exact Hc|]. split; [now transitivity (tokens_ lx1)|].
    rewrite HS. symmetry. apply drop_S.
    destruct Hpre as [k1 E1], Hpre2 as [k2 E2]. rewrite E2, E1, <- app_assoc.
    apply lookup_app_l_Some. exact Hcur.
Qed.

(** X1.  For a source without the byte 0xFF that is empty or ends with a
    newline, the stream that the client reads ends with its only [Eof],
    and its [Indent] and [Dedent] tokens are balanced: no [Dedent] comes at
    level 0, and the level behind the stream is 0. *)
Theorem well_terminated_source_stream input fuel toks lx :
  well_terminated input →
  TokenStream fuel input = Ok (toks, lx) →
  complete_stream toks ∧ toks = tokens_ lx.
Proof.
  intros Hwt. unfold TokenStream, Lexer_new.
  set (lx0 := {| tokens_ := []; input_ := input; cur_token_ := 0; cur_indent_ := 0 |}).
  destruct (ParseLine lx0) as [[t lx1]|e|] eqn:HP; cbn [bindR]; try discriminate.
  intros HD.
  destruct (ParseLine_fuel_stream _ lx0 _ _ Hwt HP) as (new & Htok & Hhd & Hc & Hwt1 & Hnew).
  cbn [lx0 tokens_ cur_indent_ app length] in Htok, Hc, Hnew.
  assert (Hinv : stream_inv lx1).
  { split; [exact Hwt1|]. split; [rewrite Hc; constructor|]. rewrite Htok.
    destruct Hnew as [[Hno Hd] | (body & -> & Hno & Hd)]; [now left|right].
    split; [now exists body|exact Hd]. }
  assert (Hcur : tokens_ lx1 !! cur_token_ lx1 = Some t) by now rewrite Hc, Htok.
  destruct (drain_stream _ _ _ _ _ Hinv Hcur HD) as (Hcomplete & _ & ->).
  rewrite Hc. cbn [drop]. now split.
Qed.

(** *** Termination *)

Lemma ProcessSpaces_length input :
  (length (snd (ProcessSpaces input)) ≤ length input)%nat.
Proof.
  induction input as [|c input IH]; [reflexivity|].
  cbn [ProcessSpaces]. destruct (same c SPACE); [|reflexivity].
  destruct (ProcessSpaces input). cbn [snd] in *. simpl. lia.
Qed.

Lemma ProcessComment_length input :
  (length (ProcessComment input) ≤ length input)%nat.
Proof.
  induction input as [|c input IH]; [reflexivity|].
  cbn [ProcessComment]. destruct (same c NL); [reflexivity|]. simpl. lia.
Qed.

Lemma take_digits_length input :
  (length (snd (take_digits input)) ≤ length input)%nat.
Proof.
  induction input as [|c input IH]; [reflexivity|].
  cbn [take_digits]. destruct (isdigit c); [|reflexivity].
  destruct (take_digits input). cbn [snd] in *. simpl. lia.
Qed.

Lemma take_ident_length input :
  (length (snd (take_ident input)) ≤ length input)%nat.
Proof.
  induction input as [|c input IH]; [reflexivity|].
  cbn [take_ident]. destruct (ident_char c); [|reflexivity].
  destruct (take_ident input). cbn [snd] in *. simpl. lia.
Qed.

Lemma ReadString_loop_length quote_type n :
  ∀ input s rest, (length input ≤ n)%nat →
    ReadString_loop quote_type input = Ok (s, rest) → (length rest < length input)%nat.
Proof.
  induction n as [|n IH]; intros input s rest Hlen.
  - destruct input; [discriminate|simpl in Hlen; lia].
  - destruct input as [|ch input]; [discriminate|].
    cbn [ReadString_loop]. simpl in Hlen.
    destruct (same ch quote_type); [intros [= <- <-]; simpl; lia|].
    destruct (same ch "\"%char).
    + destruct input as [|escaped_char input]; [discriminate|]. simpl in Hlen.
      assert (Hrec : ∀ c, (do (s0, r) <- ReadString_loop quote_type input;
                             Ok (String c s0, r)) = Ok (s, rest) →
                (length rest < length (ch :: escaped_char :: input))%nat).
      { intros c. destruct (ReadString_loop quote_type input) as [[s0 r]|e|] eqn:E;
          cbn [bindR]; try discriminate.
        intros [= <- <-]. specialize (IH input s0 r ltac:(lia) E). simpl. lia. }
      repeat match goal with
             | |- context [if ?b then _ else _] => destruct b; [apply Hrec|]
             end.
      discriminate.
    + destruct (same ch NL || same ch CR); [discriminate|].
      destruct (ReadString_loop quote_type input) as [[s0 r]|e|] eqn:E;
        cbn [bindR]; try discriminate.
      intros [= <- <-]. specialize (IH input s0 r ltac:(lia) E). simpl. lia.
Qed.

Lemma ReadString_loop_fuel quote_type n :
  ∀ input, (length input ≤ n)%nat → ReadString_loop quote_type input ≠ NoFuel.
Proof.
  induction n as [|n IH]; intros input Hlen.
  - destruct input; [discriminate|simpl in Hlen; lia].
  - destruct input as [|ch input]; [discriminate|].
    cbn [ReadString_loop]. simpl in Hlen.
    destruct (same ch quote_type); [discriminate|].
    destruct (same ch "\"%char).
    + destruct input as [|escaped_char input]; [discriminate|]. simpl in Hlen.
      assert (Hrec : ∀ c, (do (s0, r) <- ReadString_loop quote_type input;
                             Ok (String c s0, r)) ≠ NoFuel).
      { intros c. specialize (IH input ltac:(lia)).
        destruct (ReadString_loop quote_type input) as [[s0 r]|e|]; cbn [bindR];
          [discriminate|discriminate|exact IH]. }
      repeat match goal with
             | |- context [if ?b then _ else _] => destruct b; [apply Hrec|]
             end.
      discriminate.
    + destruct (same ch NL || same ch CR); [discriminate|].
      specialize (IH input ltac:(lia)).
      destruct (ReadString_loop quote_type input) as [[s0 r]|e|]; cbn [bindR];
        [discriminate|discriminate|exact IH].
Qed.

(** The loop of [ReadLine] does not run out of fuel, and it shortens the
    input unless it stops at the end of the stream. *)
Lemma ReadLine_loop_total fuel :
  ∀ input toks, (length input < fuel)%nat →
    ReadLine_loop fuel input toks ≠ NoFuel
    ∧ ∀ toks' rest, ReadLine_loop fuel input toks = Ok (toks', rest) →
        (length rest ≤ length input)%nat
        ∧ (last toks' ≠ Some token_type.Eof → (length rest < length input)%nat).
Proof.
  induction fuel as [|fuel IH]; intros input toks Hfuel; [lia|].
  assert (Hnext : ∀ input' toks0, (length input' < length input)%nat →
            ReadLine_loop fuel input' toks0 ≠ NoFuel
            ∧ ∀ toks' rest, ReadLine_loop fuel input' toks0 = Ok (toks', rest) →
                (length rest ≤ length input)%nat
                ∧ (last toks' ≠ Some token_type.Eof → (length rest < length input)%nat)).
  { intros input' toks0 Hlt. destruct (IH input' toks0 ltac:(lia)) as [Hne Hok].
    split; [exact Hne|]. intros toks' rest H. destruct (Hok _ _ H). split; [lia|].
    intros Hl. specialize (H1 Hl). lia. }
  assert (Hstop : ∀ toks1 : list Token,
            Ok (toks1 ++ [token_type.Eof], input) ≠ NoFuel
            ∧ ∀ toks' rest, Ok (toks1 ++ [token_type.Eof], input) = Ok (toks', rest) →
                (length rest ≤ length input)%nat
                ∧ (last toks' ≠ Some token_type.Eof → (length rest < length input)%nat)).
  { intros toks1. split; [discriminate|]. intros toks' rest [= <- <-].
    split; [lia|]. rewrite last_snoc. now intros []. }
  cbn [ReadLine_loop]. destruct input as [|c input]; [apply Hstop|].
  cbn [peek head is_EOF].
  destruct (same c SPACE) eqn:Hsp.
  { apply Hnext. cbn [ProcessSpaces]. rewrite Hsp.
    pose proof (ProcessSpaces_length input) as H.
    destruct (ProcessSpaces input). cbn [snd] in *. simpl. lia. }
  destruct (same c "#"%char) eqn:Hhash.
  { apply Hnext. apply same_eq in Hhash. subst c. cbn [ProcessComment].
    change (same "#"%char NL) with false. cbn iota.
    pose proof (ProcessComment_length input). simpl. lia. }
  destruct (same c "255"%char); [apply Hstop|].
  destruct (same c DQUOTE || same c "'"%char).
  { cbn [ReadString].
    pose proof (ReadString_loop_fuel c _ input (le_n _)) as Hfuel'.
    destruct (ReadString_loop c input) as [[s r]|e|] eqn:E; cbn [bindR].
    - apply Hnext. pose proof (ReadString_loop_length c _ input s r (le_n _) E).
      simpl. lia.
    - split; [discriminate|]. intros ? ? [=].
    - now destruct Hfuel'. }
  destruct (isdigit c) eqn:Hdigit.
  { unfold ReadNumber. cbn [take_digits]. rewrite Hdigit.
    pose proof (take_digits_length input) as H.
    destruct (take_digits input) as [s r]. cbn [snd] in H.
    unfold stoi. destruct (_ <=? _)%Z; cbn [bindR].
    - apply Hnext. simpl. lia.
    - split; [discriminate|]. intros ? ? [=]. }
  destruct (isalpha c || same c "_"%char) eqn:Halpha.
  { unfold ReadIdentifier. cbn [take_ident]. unfold ident_char. rewrite Halpha.
    cbn [orb]. pose proof (take_ident_length input) as H.
    destruct (take_ident input) as [s r]. cbn [snd] in H.
    apply Hnext. simpl. lia. }
  destruct (_ && _).
  { unfold ReadCompSymb. apply Hnext. destruct input; simpl; lia. }
  destruct (same c NL).
  { split; [discriminate|]. intros toks' rest [= <- <-]. simpl. split; lia. }
  apply Hnext. simpl. lia.
Qed.

Lemma ReadLine_total input :
  ReadLine input ≠ NoFuel
  ∧ ∀ line rest, ReadLine input = Ok (line, rest) →
      (length rest ≤ length input)%nat
      ∧ (last (line_tokens_ line) ≠ Some token_type.Eof → (length rest < length input)%nat).
Proof.
  unfold ReadLine.
  assert (H1 : (length (SkipNewLinesOnly input) ≤ length input)%nat).
  { induction input as [|c input IH]; [reflexivity|].
    cbn [SkipNewLinesOnly]. destruct (same c NL); simpl; lia. }
  pose proof (ProcessSpaces_length (SkipNewLinesOnly input)) as H2.
  destruct (ProcessSpaces (SkipNewLinesOnly input)) as [spaces input2]. cbn [snd] in H2.
  destruct (ReadLine_loop_total (S (length input2)) input2 [] (Nat.lt_succ_diag_r _))
    as [Hne Hok].
  destruct (ReadLine_loop _ input2 []) as [[toks rest]|e|]; cbn [bindR].
  - split; [discriminate|]. intros line rest' [= <- <-].
    destruct (Hok _ _ eq_refl) as [Hle Hlt]. split; [lia|].
    cbn [line_tokens_]. intros Hlast. specialize (Hlt Hlast). lia.
  - split; [discriminate|]. intros ? ? [=].
  - now destruct Hne.
Qed.

Lemma IsEmpty_last line :
  IsAllEof line = false → IsEmpty line = true →
  last (line_tokens_ line) ≠ Some token_type.Eof.
Proof.
  unfold IsAllEof, IsEmpty.
  destruct (line_tokens_ line) as [|t toks] using rev_ind; [discriminate|].
  intros _ HE. rewrite last_snoc. intros [= ->].
  assert (forallb is_Newline (toks ++ [token_type.Eof]) = true) as HE'
    by (destruct toks; exact HE).
  rewrite forallb_app in HE'. cbn in HE'. now rewrite andb_false_r in HE'.
Qed.

Lemma ParseLine_fuel_total fuel :
  ∀ lx, (length (input_ lx) < fuel)%nat → ParseLine_fuel fuel lx ≠ NoFuel.
Proof.
  induction fuel as [|fuel IH]; intros lx Hfuel; [lia|].
  destruct (ReadLine_total (input_ lx)) as [Hne Hok].
  destruct (ReadLine (input_ lx)) as [[line rest]|e|] eqn:HR.
  - rewrite (ParseLine_fuel_step _ _ _ _ HR).
    destruct (Nat.odd _); [discriminate|].
    destruct (Hok _ _ eq_refl) as [_ Hlt].
    destruct (IsAllEof line) eqn:HA, (IsEmpty line) eqn:HE; cbn [negb andb];
      try (unfold ParseLine_emit; rewrite HA, HE; cbn [negb andb];
           repeat match goal with
                  | |- context [if ?b then _ else _] => destruct b
                  end;
           unfold CurrentToken; destruct (_ !! _); discriminate).
    apply IH. cbn [set_input input_]. specialize (Hlt (IsEmpty_last _ HA HE)). lia.
  - cbn [ParseLine_fuel]. rewrite HR. discriminate.
  - now destruct Hne.
Qed.

(** [ParseLine] never runs out of fuel: the bound that it is given covers
    every source. *)
Lemma ParseLine_total lx : ParseLine lx ≠ NoFuel.
Proof. apply ParseLine_fuel_total. lia. Qed.

(** A call of [ParseLine] that returns has added tokens behind the old
    ones and put the cursor on the first of them; it has shortened the
    input, or the last token it added is [Eof]. *)
Lemma ParseLine_fuel_progress fuel :
  ∀ lx t lx1, ParseLine_fuel fuel lx = Ok (t, lx1) →
    tokens_ lx1 !! cur_token_ lx1 = Some t
    ∧ ((length (input_ lx1) < length (input_ lx))%nat
       ∨ (last (tokens_ lx1) = Some token_type.Eof)).
Proof.
  induction fuel as [|fuel IH]; intros lx t lx1; [discriminate|].
  destruct (ReadLine_total (input_ lx)) as [_ Hok].
  destruct (ReadLine (input_ lx)) as [[line rest]|e|] eqn:HR.
  2,3: cbn [ParseLine_fuel]; rewrite HR; discriminate.
  rewrite (ParseLine_fuel_step _ _ _ _ HR).
  destruct (Nat.odd _); [discriminate|].
  destruct (Hok _ _ eq_refl) as [Hle Hlt].
  assert (Hcur : ∀ lx', (do t0 <- CurrentToken lx'; Ok (t0, lx')) = Ok (t, lx1) →
            lx1 = lx' ∧ tokens_ lx' !! cur_token_ lx' = Some t).
  { intros lx'. unfold CurrentToken. destruct (_ !! _); cbn [bindR]; [|discriminate].
    now intros [= <- <-]. }
  destruct (IsAllEof line) eqn:HA, (IsEmpty line) eqn:HE; cbn [negb andb].
  1,2,4: unfold ParseLine_emit; rewrite HA, HE; cbn [negb andb].
  - intros H. apply Hcur in H as [-> H]. split; [exact H|]. right.
    cbn [tokens_]. now rewrite !app_assoc, last_snoc.
  - intros H. apply Hcur in H as [-> H]. split; [exact H|]. right.
    cbn [tokens_]. now rewrite !app_assoc, last_snoc.
  - set (ind := if (_ <? _)%nat then _ else _). destruct ind as [indent toks].
    intros H. apply Hcur in H as [-> H]. split; [exact H|].
    cbn [tokens_ input_]. unfold GetTokens.
    destruct (last (line_tokens_ line)) as [t'|] eqn:Hl.
    + destruct (is_Eof t') eqn:Ht'.
      * right. rewrite last_app, Hl. now destruct t'.
      * left. apply Hlt. intros [= ->]. discriminate.
    + left. apply Hlt. discriminate.
  - intros H. destruct (IH _ _ _ H) as [Hc Hp]. split; [exact Hc|].
    destruct Hp as [Hp|Hp]; [left|now right].
    cbn [set_input input_] in Hp. lia.
Qed.

Lemma NextToken_buffered lx t :
  tokens_ lx !! S (cur_token_ lx) = Some t →
  NextToken lx = Ok (t, {| tokens_ := tokens_ lx; input_ := input_ lx;
                           cur_token_ := S (cur_token_ lx);
                           cur_indent_ := cur_indent_ lx |}).
Proof.
  intros H. unfold NextToken, at_last_token.
  pose proof (lookup_lt_Some _ _ _ H) as Hlt.
  destruct (length (tokens_ lx)) as [|n]; [lia|].
  destruct (Nat.eqb_spec (cur_token_ lx) n); [lia|].
  unfold CurrentToken. cbn [tokens_ cur_token_]. now rewrite H.
Qed.

(** The client reaches an [Eof] that lies in the buffer [j] tokens after
    the cursor with fuel [j]. *)
Lemma drain_buffered j :
  ∀ lx cur,
    tokens_ lx !! cur_token_ lx = Some cur →
    tokens_ lx !! (cur_token_ lx + j)%nat = Some token_type.Eof →
    drain j cur lx ≠ NoFuel.
Proof.
  induction j as [|j IH]; intros lx cur Hcur HEof.
  - rewrite Nat.add_0_r, Hcur in HEof. injection HEof as ->. discriminate.
  - cbn [drain]. destruct (is_Eof cur); [discriminate|].
    destruct (tokens_ lx !! S (cur_token_ lx)) as [t|] eqn:Hnext.
    2:{ apply lookup_ge_None in Hnext. apply lookup_lt_Some in HEof. lia. }
    rewrite (NextToken_buffered _ _ Hnext). cbn [bindR].
    replace (cur_token_ lx + S j)%nat with (S (cur_token_ lx) + j)%nat in HEof by lia.
    match goal with |- context [drain j t ?lx1] => specialize (IH lx1 t Hnext HEof) end.
    destruct (drain j t _) as [[ts lx2]|e|]; cbn [bindR]; [discriminate|discriminate|].
    exact IH.
Qed.

Lemma drain_step fuel cur lx t lx1 :
  NextToken lx = Ok (t, lx1) → drain fuel t lx1 ≠ NoFuel → drain (S fuel) cur lx ≠ NoFuel.
Proof.
  intros HN HD. cbn [drain]. destruct (is_Eof cur); [discriminate|].
  rewrite HN. cbn [bindR].
  destruct (drain fuel t lx1) as [[ts lx2]|e|]; cbn [bindR]; [discriminate|discriminate|].
  exact HD.
Qed.

Lemma drain_terminates n :
  ∀ k lx cur,
    (length (input_ lx) < n)%nat →
    (length (tokens_ lx) - cur_token_ lx ≤ k)%nat →
    tokens_ lx !! cur_token_ lx = Some cur →
    ∃ fuel, drain fuel cur lx ≠ NoFuel.
Proof.
  induction n as [|n IHn]; [intros; lia|].
  induction k as [|k IHk]; intros lx cur Hn Hk Hcur.
  { apply lookup_lt_Some in Hcur. lia. }
  destruct (is_Eof cur) eqn:HEof.
  { exists 0%nat. cbn [drain]. now rewrite HEof. }
  destruct (NextToken lx) as [[t lx1]|e|] eqn:HN.
  - unfold NextToken in HN. destruct (at_last_token lx) eqn:Hlast.
    + destruct (ParseLine_fuel_progress _ _ _ _ HN) as [Hcur1 [Hshort|HlastEof]].
      * destruct (IHn (length (tokens_ lx1)) lx1 t ltac:(lia) ltac:(lia) Hcur1)
          as [fuel Hfuel].
        exists (S fuel). apply (drain_step _ cur lx t lx1); [|exact Hfuel].
        unfold NextToken. rewrite Hlast. exact HN.
      * exists (S (length (tokens_ lx1) - 1 - cur_token_ lx1)).
        apply (drain_step _ cur lx t lx1); [unfold NextToken; rewrite Hlast; exact HN|].
        apply drain_buffered; [exact Hcur1|].
        apply lookup_lt_Some in Hcur1.
        replace (cur_token_ lx1 + (length (tokens_ lx1) - 1 - cur_token_ lx1))%nat
          with (pred (length (tokens_ lx1))) by lia.
        now rewrite <- last_lookup.
    + unfold CurrentToken in HN. cbn [tokens_ cur_token_] in HN.
      destruct (tokens_ lx !! S (cur_token_ lx)) as [t'|] eqn:Hnext; cbn [bindR] in HN;
        [|discriminate].
      injection HN as <- <-.
      match goal with |- context [drain _ cur lx] =>
        destruct (IHk {| tokens_ := tokens_ lx; input_ := input_ lx;
                         cur_token_ := S (cur_token_ lx);
                         cur_indent_ := cur_indent_ lx |} t') as [fuel Hfuel]
      end; cbn [tokens_ cur_token_ input_]; try lia; [exact Hnext|].
      exists (S fuel). eapply drain_step; [|exact Hfuel].
      apply NextToken_buffered. exact Hnext.
  - exists 1%nat. cbn [drain]. now rewrite HEof, HN.
  - exfalso. unfold NextToken in HN. destruct (at_last_token lx).
    + now apply (ParseLine_total lx).
    + unfold CurrentToken in HN. cbn [tokens_ cur_token_] in HN.
      destruct (tokens_ lx !! S (cur_token_ lx)); cbn [bindR] in HN; discriminate.
Qed.

(** X2.  Reading the stream of any source ends: with enough fuel
    [TokenStream] gives the stream or the exception that the lexer throws. *)
Theorem TokenStream_terminates input : ∃ fuel, TokenStream fuel input ≠ NoFuel.
Proof.
  unfold TokenStream, Lexer_new.
  set (lx0 := {| tokens_ := []; input_ := input; cur_token_ := 0; cur_indent_ := 0 |}).
  pose proof (ParseLine_total lx0) as Hne.
  destruct (ParseLine lx0) as [[t lx1]|e|] eqn:HP; cbn [bindR].
  - destruct (ParseLine_fuel_progress _ _ _ _ HP) as [Hcur _].
    exact (drain_terminates _ _ lx1 t (Nat.lt_succ_diag_r _) (le_n _) Hcur).
  - exists 0%nat. discriminate.
  - now destruct Hne.
Qed.

(** An instance of [well_terminated_source_stream]: the source [if a:],
    newline, two spaces, [x], newline. *)
Lemma well_terminated_source_stream_witness :
  complete_stream
    [token_type.If; token_type.Id "a"; token_type.Char ":"; token_type.Newline;
     token_type.Indent; token_type.Id "x"; token_type.Newline;
     token_type.Dedent; token_type.Eof].
Proof.
  pose (input := ["i"; "f"; " "; "a"; ":"; NL; " "; " "; "x"; NL]%char).
  assert (Hwt : well_terminated input).
  { split; [repeat constructor|right; reflexivity]. }
  destruct (TokenStream 8 input) as [[toks lx]|e|] eqn:E; try discriminate.
  destruct (well_terminated_source_stream input 8 toks lx Hwt E) as [H _].
  vm_compute in E. injection E as <- _. exact H.
Defined.

(** ** The lines and the stream of any source *)

Lemma lexeme_plain t : lexeme t = true → plain t = true ∧ is_Newline t = false.
Proof. destruct t; cbn; try discriminate; auto. Qed.

Lemma take_digits_decimal input :
  ∀ acc, (0 ≤ acc)%Z → (0 ≤ decimal acc (fst (take_digits input)))%Z.
Proof.
  induction input as [|c input IH]; intros acc Hacc; [exact Hacc|].
  cbn [take_digits]. destruct (isdigit c) eqn:Hc; [|exact Hacc].
  destruct (take_digits input) as [s rest']. cbn [fst decimal] in *.
  apply IH. unfold isdigit in Hc. apply andb_true_iff in Hc as [H1 H2].
  apply N.leb_le in H1. lia.
Qed.

Lemma take_ident_chars input :
  forallb ident_char (list_ascii_of_string (fst (take_ident input))) = true.
Proof.
  induction input as [|c input IH]; [reflexivity|].
  cbn [take_ident]. destruct (ident_char c) eqn:Hc; [|reflexivity].
  destruct (take_ident input) as [s rest']. cbn [fst list_ascii_of_string forallb] in *.
  now rewrite Hc, IH.
Qed.

Lemma keyword_or_Id_lexeme s : identifier s = true → lexeme (keyword_or_Id s) = true.
Proof.
  intros Hs. unfold keyword_or_Id.
  repeat match goal with
         | |- context [if String.eqb s ?k then _ else _] =>
             destruct (String.eqb s k) eqn:?; [reflexivity|]
         end.
  cbn [lexeme keywords existsb]. rewrite Hs.
  repeat match goal with H : String.eqb _ _ = false |- _ => rewrite H; clear H end.
  reflexivity.
Qed.

Lemma IsEmpty_tokens_lexemes toks :
  Forall (λ t, lexeme t = true) toks → toks ≠ [] →
  IsEmpty_tokens toks = false ∧ ends_with_Newline toks = false.
Proof.
  intros H Hne. split.
  - destruct H as [|t toks Ht H]; [done|].
    cbn. destruct (lexeme_plain t Ht) as [_ ->]. reflexivity.
  - unfold ends_with_Newline. destruct (last toks) as [t|] eqn:Hl; [|reflexivity].
    apply last_Some_elem_of in Hl. rewrite Forall_forall in H.
    exact (proj2 (lexeme_plain t (H t Hl))).
Qed.

(** What the loop of [ReadLine] adds to the tokens of the line. *)
Lemma ReadLine_loop_shape fuel :
  ∀ input toks toks' rest,
    Forall (λ t, lexeme t = true) toks →
    ReadLine_loop fuel input toks = Ok (toks', rest) →
    ∃ body, Forall (λ t, lexeme t = true) body ∧ toks `prefix_of` body ∧
      (toks' = body ++ [token_type.Newline]
       ∨ (body ≠ [] ∧ toks' = body ++ [token_type.Newline; token_type.Eof]
          ∧ is_EOF (peek rest) = true)
       ∨ (body = [] ∧ toks' = [token_type.Eof] ∧ is_EOF (peek rest) = true)).
Proof.
  induction fuel as [|fuel IH]; intros input toks toks' rest Htoks; [discriminate|].
  assert (Hnext : ∀ t input', lexeme t = true →
            ReadLine_loop fuel input' (toks ++ [t]) = Ok (toks', rest) →
            ∃ body, Forall (λ t, lexeme t = true) body ∧ toks `prefix_of` body ∧
              (toks' = body ++ [token_type.Newline]
               ∨ (body ≠ [] ∧ toks' = body ++ [token_type.Newline; token_type.Eof]
                  ∧ is_EOF (peek rest) = true)
               ∨ (body = [] ∧ toks' = [token_type.Eof] ∧ is_EOF (peek rest) = true))).
  { intros t input' Ht H.
    assert (Htoks' : Forall (λ t, lexeme t = true) (toks ++ [t])).
    { apply Forall_app. split; [exact Htoks|now constructor]. }
    destruct (IH _ _ _ _ Htoks' H) as (body & Hb & Hpre & Hshape).
    exists body. split; [exact Hb|]. split; [|exact Hshape].
    transitivity (toks ++ [t]); [now apply prefix_app_r|exact Hpre]. }
  assert (Hend : ∀ input', is_EOF (peek input') = true →
            Ok ((if negb (IsEmpty_tokens toks) && negb (ends_with_Newline toks)
                 then toks ++ [token_type.Newline] else toks) ++ [token_type.Eof], input')
              = Ok (toks', rest) →
            ∃ body, Forall (λ t, lexeme t = true) body ∧ toks `prefix_of` body ∧
              (toks' = body ++ [token_type.Newline]
               ∨ (body ≠ [] ∧ toks' = body ++ [token_type.Newline; token_type.Eof]
                  ∧ is_EOF (peek rest) = true)
               ∨ (body = [] ∧ toks' = [token_type.Eof] ∧ is_EOF (peek rest) = true))).
  { intros input' HE H. exists toks. split; [exact Htoks|]. split; [reflexivity|].
    destruct toks as [|t0 toks0].
    - cbn in H. injection H as <- <-. right. right. done.
    - destruct (IsEmpty_tokens_lexemes (t0 :: toks0) Htoks ltac:(done)) as [E1 E2].
      rewrite E1, E2 in H. cbn [negb andb] in H. injection H as <- <-.
      right. left. split; [done|]. split; [|exact HE].
      now rewrite <- app_assoc. }
  cbn [ReadLine_loop].
  destruct input as [|c rest0]; [now apply Hend|].
  destruct (same c SPACE) eqn:Hsp; [now apply IH|].
  destruct (same c "#"%char) eqn:Hhash; [now apply IH|].
  destruct (is_EOF (peek (c :: rest0))) eqn:Heof; [now apply Hend|].
  cbn [peek head is_EOF] in Heof.
  destruct (same c DQUOTE || same c "'"%char) eqn:Hquote.
  { destruct (ReadString (c :: rest0) toks) as [[toks1 input1]|e|] eqn:E;
      cbn [bindR]; try discriminate.
    cbn [ReadString] in E.
    destruct (ReadString_loop c rest0) as [[s r]|e|]; cbn [bindR] in E; try discriminate.
    injection E as <- <-. now apply Hnext. }
  destruct (isdigit c) eqn:Hdigit.
  { unfold ReadNumber.
    pose proof (take_digits_decimal (c :: rest0) 0 ltac:(lia)) as Hpos.
    destruct (take_digits (c :: rest0)) as [s r]. cbn [fst] in Hpos.
    unfold stoi. destruct (decimal 0 s <=? INT_MAX)%Z eqn:Hmax; cbn [bindR]; [|discriminate].
    apply Hnext. cbn [lexeme]. rewrite Hmax. apply andb_true_iff. split; [|reflexivity].
    now apply Z.leb_le. }
  destruct (isalpha c || same c "_"%char) eqn:Halpha.
  { unfold ReadIdentifier.
    pose proof (take_ident_chars (c :: rest0)) as Hchars.
    cbn [take_ident] in Hchars |- *.
    assert (Hic : ident_char c = true).
    { unfold ident_char. rewrite Halpha. reflexivity. }
    rewrite Hic in Hchars |- *.
    destruct (take_ident rest0) as [s r]. cbn [fst list_ascii_of_string forallb] in Hchars.
    apply Hnext. apply keyword_or_Id_lexeme. cbn [identifier].
    rewrite Halpha. apply andb_true_iff in Hchars as [_ ->]. reflexivity. }
  destruct ((same c "!"%char || same c "="%char || same c "<"%char || same c ">"%char)
            && match peek rest0 with
               | Some d => same d "="%char
               | Datatypes.None => false
               end) eqn:Hcomp.
  { unfold ReadCompSymb.
    repeat match goal with
           | |- context [if ?b then _ else _] => destruct b; [now apply Hnext|]
           end.
    now apply IH. }
  destruct (same c NL) eqn:Hnl.
  { intros [= <- <-]. exists toks. split; [exact Htoks|]. split; [reflexivity|]. now left. }
  apply Hnext. cbn [lexeme]. rewrite Hsp, Hhash, Heof, Hdigit, Hnl.
  apply orb_false_iff in Hquote as [-> ->].
  apply orb_false_iff in Halpha as [-> ->]. reflexivity.
Qed.

Lemma ReadLine_shape input line rest :
  ReadLine input = Ok (line, rest) →
  ∃ body, Forall (λ t, lexeme t = true) body ∧
    (line_tokens_ line = body ++ [token_type.Newline]
     ∨ (body ≠ [] ∧ line_tokens_ line = body ++ [token_type.Newline; token_type.Eof]
        ∧ is_EOF (peek rest) = true)
     ∨ (body = [] ∧ line_tokens_ line = [token_type.Eof] ∧ is_EOF (peek rest) = true)).
Proof.
  unfold ReadLine. destruct (ProcessSpaces _) as [spaces input2].
  destruct (ReadLine_loop _ input2 []) as [[toks r]|e|] eqn:E; cbn [bindR]; try discriminate.
  intros [= <- <-]. cbn [line_tokens_].
  destruct (ReadLine_loop_shape _ _ _ _ _ (Forall_nil_2 _) E) as (body & Hb & _ & Hshape).
  now exists body.
Qed.

Lemma forallb_lexemes_Newline body t :
  Forall (λ t, lexeme t = true) body → body ≠ [] →
  forallb is_Newline (body ++ t) = false ∧ forallb is_Eof (body ++ t) = false.
Proof.
  intros H Hne. destruct H as [|t0 body Ht0 H]; [done|].
  cbn. destruct t0; try discriminate; done.
Qed.

(** The two tests of [ParseLine] on the lines that [ReadLine] makes. *)
Lemma ReadLine_tests input line rest :
  ReadLine input = Ok (line, rest) →
  (IsEmpty line = true ↔ line_tokens_ line = [token_type.Newline])
  ∧ (IsAllEof line = true ↔ line_tokens_ line = [token_type.Eof]).
Proof.
  intros HR. destruct (ReadLine_shape _ _ _ HR) as (body & Hb & Hshape).
  unfold IsEmpty, IsAllEof.
  destruct Hshape as [E | [(Hne & E & _) | (-> & E & _)]]; rewrite E.
  - destruct body as [|t0 body]; [done|].
    destruct (forallb_lexemes_Newline (t0 :: body) [token_type.Newline] Hb ltac:(done))
      as [H1 H2].
    cbn [app IsEmpty_tokens IsAllEof_tokens] in *. rewrite H1, H2.
    split; split; try discriminate; intros [= _ H]; now destruct body.
  - destruct body as [|t0 body]; [done|].
    destruct (forallb_lexemes_Newline (t0 :: body) [token_type.Newline; token_type.Eof]
                Hb ltac:(done)) as [H1 H2].
    cbn [app IsEmpty_tokens IsAllEof_tokens] in *. rewrite H1, H2.
    split; split; try discriminate; intros [= _ H]; now destruct body.
  - done.
Qed.


(** X6.  The line that [ReadLine] makes is one of three: tokens of the
    inside of a line and a [Newline]; at the end of the source, such tokens,
    at least one, a [Newline] and an [Eof]; or a lone [Eof]. So [IsEmpty] is
    true of a lone [Newline] only, and [IsAllEof] of a lone [Eof] only. *)
Theorem ReadLine_line_shape input line rest :
  ReadLine input = Ok (line, rest) →
  (∃ body, Forall (λ t, lexeme t = true) body ∧
     (line_tokens_ line = body ++ [token_type.Newline]
      ∨ (body ≠ [] ∧ line_tokens_ line = body ++ [token_type.Newline; token_type.Eof]
         ∧ is_EOF (peek rest) = true)
      ∨ (body = [] ∧ line_tokens_ line = [token_type.Eof] ∧ is_EOF (peek rest) = true)))
  ∧ (IsEmpty line = true ↔ line_tokens_ line = [token_type.Newline])
  ∧ (IsAllEof line = true ↔ line_tokens_ line = [token_type.Eof]).
Proof.
  intros HR. split; [exact (ReadLine_shape _ _ _ HR)|exact (ReadLine_tests _ _ _ HR)].
Qed.

(** An instance of [ReadLine_line_shape]: the last line of a source, with
    no newline behind it. *)
Lemma ReadLine_line_shape_witness :
  let line := {| starting_spaces_ := 2;
                 line_tokens_ := [token_type.Id "x"; token_type.Char "="; token_type.Number 1;
                                  token_type.Newline; token_type.Eof] |} in
  ReadLine (list_ascii_of_string "  x = 1") = Ok (line, [])
  ∧ (IsEmpty line = true ↔ line_tokens_ line = [token_type.Newline])
  ∧ (IsAllEof line = true ↔ line_tokens_ line = [token_type.Eof]).
Proof.
  intros line. split; [reflexivity|].
  exact (proj2 (ReadLine_line_shape (list_ascii_of_string "  x = 1") line [] eq_refl)).
Defined.

(** *** The exceptions of the lexer *)

Lemma ReadString_loop_reading_error quote_type n :
  ∀ input e, (length input ≤ n)%nat →
    ReadString_loop quote_type input = Throw e → reading_error e.
Proof.
  induction n as [|n IH]; intros input e Hlen.
  - destruct input; [|simpl in Hlen; lia].
    simpl. intros [= <-]. now left.
  - destruct input as [|ch rest]; simpl.
    + intros [= <-]. now left.
    + simpl in Hlen. destruct (same ch quote_type); [discriminate|].
      destruct (same ch "\"%char).
      * destruct rest as [|escaped_char rest']; [intros [= <-]; now left|].
        simpl in Hlen.
        assert (Hrec : ∀ c, (do (s, r) <- ReadString_loop quote_type rest';
                               Ok (String c s, r)) = Throw e → reading_error e).
        { intros c. destruct (ReadString_loop quote_type rest') as [[s r]|e'|] eqn:E;
            simpl; try discriminate.
          intros [= <-]. apply (IH rest'); [lia|exact E]. }
        repeat match goal with
               | |- context [if ?b then _ else _] => destruct b; [apply Hrec|]
               end.
        intros [= <-]. right. right. left. now exists escaped_char.
      * destruct (same ch NL || same ch CR); [intros [= <-]; right; now left|].
        destruct (ReadString_loop quote_type rest) as [[s r]|e'|] eqn:E;
          simpl; try discriminate.
        intros [= <-]. apply (IH rest); [lia|exact E].
Qed.

Lemma ReadLine_loop_reading_error fuel :
  ∀ input toks e, ReadLine_loop fuel input toks = Throw e → reading_error e.
Proof.
  induction fuel as [|fuel IH]; intros input toks e; simpl; [discriminate|].
  destruct input as [|c rest]; [discriminate|].
  repeat match goal with
         | |- context [if ?b then _ else _] => destruct b
         | |- (let '(_, _) := ?p in _) = _ → _ => destruct p
         | |- ReadLine_loop fuel _ _ = _ → _ => apply IH
         | |- Ok _ = Throw _ → _ => discriminate
         end.
  - destruct (ReadString (c :: rest) toks) as [[toks' input']|e'|] eqn:E;
      simpl; try discriminate; [apply IH|].
    intros [= <-]. cbn [ReadString] in E.
    destruct (ReadString_loop c rest) as [[s r]|e''|] eqn:E'; cbn [bindR] in E;
      try discriminate.
    injection E as <-. eapply ReadString_loop_reading_error; [reflexivity|exact E'].
  - destruct (ReadNumber (c :: rest) toks) as [[toks' input']|e'|] eqn:E;
      simpl; try discriminate; [apply IH|].
    intros [= <-]. unfold ReadNumber in E.
    destruct (take_digits (c :: rest)) as [parsed_num r].
    unfold stoi in E. destruct (_ <=? _)%Z; cbn [bindR] in E; [discriminate|].
    injection E as <-. right. right. now right.
Qed.

Lemma ReadLine_reading_error input e : ReadLine input = Throw e → reading_error e.
Proof.
  unfold ReadLine. destruct (ProcessSpaces _) as [spaces input2].
  destruct (ReadLine_loop _ input2 []) as [[toks rest]|e'|] eqn:E;
    simpl; try discriminate.
  intros [= <-]. eapply ReadLine_loop_reading_error, E.
Qed.

Lemma IsAllEof_nonempty line : IsAllEof line = false → line_tokens_ line ≠ [].
Proof. unfold IsAllEof. now destruct (line_tokens_ line). Qed.

(** What one call of [ParseLine] does to the buffer and to the cursor. *)
Lemma ParseLine_emit_cursor lx line rest :
  ∃ t lx1, ParseLine_emit lx line rest = Ok (t, lx1)
    ∧ CurrentToken lx1 = Ok t
    ∧ cur_token_ lx1 = length (tokens_ lx)
    ∧ cursor_in_buffer lx1
    ∧ tokens_ lx `prefix_of` tokens_ lx1
    ∧ input_ lx1 = rest.
Proof.
  unfold ParseLine_emit.
  destruct (negb (IsAllEof line) && negb (IsEmpty line)) eqn:Hb.
  - apply andb_true_iff in Hb as [HA _]. apply negb_true_iff in HA.
    apply IsAllEof_nonempty in HA. unfold GetTokens.
    destruct (line_tokens_ line) as [|t0 ts]; [done|].
    set (level := (GetStartingSpaces line / 2)%nat). clearbody level.
    assert (Hbr : ∃ indent brackets,
              (if (cur_indent_ lx <? level)%nat
               then (level, tokens_ lx ++ replicate (level - cur_indent_ lx) token_type.Indent)
               else if (level <? cur_indent_ lx)%nat
                    then (level, tokens_ lx
                                 ++ replicate (cur_indent_ lx - level) token_type.Dedent)
                    else (cur_indent_ lx, tokens_ lx))
              = (indent, tokens_ lx ++ brackets)).
    { destruct (_ <? _)%nat; [now eexists _, _|].
      destruct (_ <? _)%nat; [now eexists _, _|].
      exists (cur_indent_ lx), []. now rewrite app_nil_r. }
    destruct Hbr as (indent & brackets & ->).
    unfold CurrentToken. cbn [tokens_ cur_token_].
    rewrite <- (app_assoc (tokens_ lx) brackets (t0 :: ts)).
    destruct (brackets ++ t0 :: ts) as [|t1 new] eqn:Hnew.
    { now destruct brackets. }
    rewrite (list_lookup_middle _ _ _ _ eq_refl).
    cbn [bindR]. eexists _, _. split; [reflexivity|].
    cbn [tokens_ cur_token_ input_].
    rewrite (list_lookup_middle _ _ _ _ eq_refl).
    unfold cursor_in_buffer. cbn [tokens_ cur_token_]. rewrite length_app. cbn [length].
    repeat apply conj; try reflexivity; [lia|now apply prefix_app_r].
  - unfold CurrentToken. cbn [tokens_ cur_token_].
    destruct (replicate (cur_indent_ lx) token_type.Dedent ++ [token_type.Eof])
      as [|t1 new] eqn:Hnew.
    { now destruct (cur_indent_ lx). }
    rewrite (list_lookup_middle _ _ _ _ eq_refl).
    cbn [bindR]. eexists _, _. split; [reflexivity|].
    cbn [tokens_ cur_token_ input_].
    rewrite (list_lookup_middle _ _ _ _ eq_refl).
    unfold cursor_in_buffer. cbn [tokens_ cur_token_]. rewrite length_app. cbn [length].
    repeat apply conj; try reflexivity; [lia|now apply prefix_app_r].
Qed.

Lemma ParseLine_fuel_cursor fuel :
  ∀ lx,
    (∀ e, ParseLine_fuel fuel lx = Throw e → e = IncorrectIndent ∨ reading_error e)
    ∧ (∀ t lx1, ParseLine_fuel fuel lx = Ok (t, lx1) →
         CurrentToken lx1 = Ok t
         ∧ cur_token_ lx1 = length (tokens_ lx)
         ∧ cursor_in_buffer lx1
         ∧ tokens_ lx `prefix_of` tokens_ lx1).
Proof.
  induction fuel as [|fuel IH]; intros lx; [split; discriminate|].
  destruct (ReadLine (input_ lx)) as [[line rest]|e|] eqn:HR.
  - rewrite (ParseLine_fuel_step _ _ _ _ HR).
    destruct (Nat.odd _).
    { split; [intros e [= <-]; now left|discriminate]. }
    destruct (negb (IsAllEof line) && IsEmpty line).
    + exact (IH (set_input lx rest)).
    + destruct (ParseLine_emit_cursor lx line rest) as (t & lx1 & -> & H1 & H2 & H3 & H4 & _).
      split; [discriminate|]. now intros t' lx1' [= <- <-].
  - cbn [ParseLine_fuel]. rewrite HR. cbn [bindR].
    split; [|discriminate]. intros e' [= <-]. right. exact (ReadLine_reading_error _ _ HR).
  - cbn [ParseLine_fuel]. rewrite HR. cbn [bindR]. split; discriminate.
Qed.

Lemma NextToken_cursor_step lx :
  cursor_in_buffer lx →
  (∀ e, NextToken lx = Throw e → e = IncorrectIndent ∨ reading_error e)
  ∧ (∀ t lx1, NextToken lx = Ok (t, lx1) →
       CurrentToken lx1 = Ok t
       ∧ cur_token_ lx1 = S (cur_token_ lx)
       ∧ cursor_in_buffer lx1
       ∧ tokens_ lx `prefix_of` tokens_ lx1).
Proof.
  unfold cursor_in_buffer. intros Hcur. unfold NextToken, at_last_token.
  destruct (length (tokens_ lx)) as [|n] eqn:Hlen; [lia|].
  destruct (Nat.eqb_spec (cur_token_ lx) n) as [->|Hne].
  - destruct (ParseLine_fuel_cursor (S (length (input_ lx))) lx) as [He Hok].
    split; [exact He|]. intros t lx1 H. unfold ParseLine in H.
    destruct (Hok t lx1 H) as (H1 & H2 & H3 & H4). rewrite Hlen in H2. done.
  - unfold CurrentToken. cbn [tokens_ cur_token_].
    destruct (tokens_ lx !! S (cur_token_ lx)) as [t|] eqn:Ht.
    + cbn [bindR]. split; [discriminate|]. intros t' lx1 [= <- <-].
      unfold CurrentToken, cursor_in_buffer. cbn [tokens_ cur_token_]. rewrite Ht, Hlen.
      repeat apply conj; try reflexivity. lia.
    + apply lookup_ge_None in Ht. lia.
Qed.


(** *** The stream of any source *)

Lemma lexemes_stream body :
  Forall (λ t, lexeme t = true) body →
  Forall (λ t, stream_token t = true) body ∧ Forall (λ t, plain t = true) body.
Proof.
  intros H. split; (eapply Forall_impl; [exact H|]); intros t Ht.
  - destruct t; try done.
  - exact (proj1 (lexeme_plain t Ht)).
Qed.

Lemma stream_token_replicate n t :
  stream_token t = true → Forall (λ t, stream_token t = true) (replicate n t).
Proof. intros Ht. induction n; constructor; assumption. Qed.

(** What one call of [ParseLine] adds to the stream. *)
Lemma ParseLine_fuel_buffer fuel :
  ∀ lx t lx1,
    ParseLine_fuel fuel lx = Ok (t, lx1) →
    ∃ new, tokens_ lx1 = tokens_ lx ++ new
      ∧ Forall (λ t, stream_token t = true) new
      ∧ ((no_Eof new ∧ indent_after (cur_indent_ lx) new = Some (cur_indent_ lx1))
         ∨ (∃ body level, new = body ++ [token_type.Eof] ∧ no_Eof body
                          ∧ indent_after (cur_indent_ lx) new = Some level)).
Proof.
  induction fuel as [|fuel IH]; intros lx t lx1; [discriminate|].
  destruct (ReadLine (input_ lx)) as [[line rest]|e|] eqn:HR.
  2,3: cbn [ParseLine_fuel]; rewrite HR; discriminate.
  rewrite (ParseLine_fuel_step _ _ _ _ HR).
  destruct (Nat.odd _); [discriminate|].
  destruct (ReadLine_tests _ _ _ HR) as [HtE HtA].
  destruct (ReadLine_shape _ _ _ HR) as (body & Hb & Hshape).
  destruct (lexemes_stream body Hb) as [Hstream Hplain].
  assert (Hemit : line_tokens_ line ≠ [token_type.Newline] →
            line_tokens_ line ≠ [token_type.Eof] →
            ∀ tail, line_tokens_ line = body ++ tail →
            Forall (λ t, stream_token t = true) tail →
            indent_after (GetStartingSpaces line / 2) (body ++ tail)
              = Some (GetStartingSpaces line / 2)%nat →
            (no_Eof tail ∨ ∃ tail', tail = tail' ++ [token_type.Eof] ∧ no_Eof tail') →
            ParseLine_emit lx line rest = Ok (t, lx1) →
            ∃ new, tokens_ lx1 = tokens_ lx ++ new
              ∧ Forall (λ t, stream_token t = true) new
              ∧ ((no_Eof new ∧ indent_after (cur_indent_ lx) new = Some (cur_indent_ lx1))
                 ∨ (∃ body level, new = body ++ [token_type.Eof] ∧ no_Eof body
                                  ∧ indent_after (cur_indent_ lx) new = Some level))).
  { intros HnE HnA tail Hline Htail Hlevel Hend.
    assert (HE : IsEmpty line = false).
    { apply not_true_is_false. intros HE. now apply HnE, HtE. }
    assert (HA : IsAllEof line = false).
    { apply not_true_is_false. intros HA. now apply HnA, HtA. }
    unfold ParseLine_emit. rewrite HA, HE. cbn [negb andb].
    set (level := (GetStartingSpaces line / 2)%nat) in *. clearbody level.
    assert (Hbr : ∃ brackets,
              (if (cur_indent_ lx <? level)%nat
               then (level, tokens_ lx ++ replicate (level - cur_indent_ lx) token_type.Indent)
               else if (level <? cur_indent_ lx)%nat
                    then (level, tokens_ lx
                                 ++ replicate (cur_indent_ lx - level) token_type.Dedent)
                    else (cur_indent_ lx, tokens_ lx))
              = (level, tokens_ lx ++ brackets)
              ∧ no_Eof brackets
              ∧ Forall (λ t, stream_token t = true) brackets
              ∧ indent_after (cur_indent_ lx) brackets = Some level).
    { destruct (Nat.ltb_spec (cur_indent_ lx) level) as [Hlt|Hge].
      - eexists. split; [reflexivity|]. split; [now apply no_Eof_replicate|].
        split; [now apply stream_token_replicate|].
        rewrite indent_after_Indents. f_equal. lia.
      - destruct (Nat.ltb_spec level (cur_indent_ lx)) as [Hlt|Hge'].
        + eexists. split; [reflexivity|]. split; [now apply no_Eof_replicate|].
          split; [now apply stream_token_replicate|].
          rewrite indent_after_Dedents by lia. f_equal. lia.
        + exists []. rewrite app_nil_r.
          assert (cur_indent_ lx = level) as -> by lia.
          split; [reflexivity|]. split; [constructor|]. split; [constructor|reflexivity]. }
    destruct Hbr as (brackets & -> & Hb1 & Hb2 & Hb3).
    unfold GetTokens. rewrite Hline.
    destruct (CurrentToken _) as [t0| |]; cbn [bindR]; try discriminate.
    intros [= <- <-]. cbn [tokens_ cur_indent_].
    exists (brackets ++ body ++ tail). split; [now rewrite <- app_assoc|].
    split; [repeat (apply Forall_app; split); assumption|].
    rewrite indent_after_app, Hb3.
    destruct Hend as [Hno | (tail' & -> & Hno)].
    - left. split; [|exact Hlevel].
      repeat (apply Forall_app; split); try assumption. now apply plain_no_Eof.
    - right. exists (brackets ++ body ++ tail'), level.
      split; [now rewrite !app_assoc|]. split; [|exact Hlevel].
      repeat (apply Forall_app; split); try assumption. now apply plain_no_Eof. }
  destruct Hshape as [E | [(Hne & E & _) | (-> & E & _)]].
  - destruct body as [|t0 body].
    + (* a blank line: the next one is read *)
      assert (HE : IsEmpty line = true) by now apply HtE.
      assert (HA : IsAllEof line = false).
      { apply not_true_is_false. intros HA. apply HtA in HA. rewrite E in HA. discriminate. }
      rewrite HA, HE. cbn [negb andb]. intros H.
      destruct (IH (set_input lx rest) t lx1 H) as (new & H1 & H2 & H3).
      exists new. split; [exact H1|]. split; [exact H2|exact H3].
    + assert (HE : IsEmpty line = false).
      { apply not_true_is_false. intros HE. apply HtE in HE. rewrite E in HE.
        now destruct body. }
      rewrite HE, andb_false_r.
      apply (Hemit ltac:(rewrite E; now destruct body) ltac:(rewrite E; now destruct body)
                   [token_type.Newline] E).
      * now constructor.
      * apply indent_after_plain. apply Forall_app. split; [exact Hplain|now constructor].
      * left. now constructor.
  - assert (HE : IsEmpty line = false).
    { apply not_true_is_false. intros HE. apply HtE in HE. rewrite E in HE.
      now destruct body as [|? [|]]. }
    rewrite HE, andb_false_r.
    apply (Hemit ltac:(rewrite E; now destruct body as [|? [|]])
                 ltac:(rewrite E; now destruct body as [|? [|]])
                 [token_type.Newline; token_type.Eof] E).
    + now repeat constructor.
    + rewrite indent_after_app, (indent_after_plain _ body Hplain). reflexivity.
    + right. exists [token_type.Newline]. split; [reflexivity|now constructor].
  - assert (HA : IsAllEof line = true) by now apply HtA.
    rewrite HA. cbn [negb andb]. unfold ParseLine_emit. rewrite HA. cbn [negb andb].
    destruct (CurrentToken _) as [t0| |]; cbn [bindR]; try discriminate.
    intros [= <- <-]. cbn [tokens_ cur_indent_].
    eexists. split; [reflexivity|]. split.
    { apply Forall_app. split; [now apply stream_token_replicate|now constructor]. }
    right. exists (replicate (cur_indent_ lx) token_type.Dedent), 0.
    split; [reflexivity|]. split; [now apply no_Eof_replicate|].
    rewrite indent_after_app, indent_after_Dedents by lia.
    cbn. f_equal. lia.
Qed.


Lemma CurrentToken_lookup lx t :
  CurrentToken lx = Ok t → tokens_ lx !! cur_token_ lx = Some t.
Proof. unfold CurrentToken. destruct (_ !! _); [now intros [= ->]|discriminate]. Qed.

Lemma buffer_last_no_Eof lx t :
  buffer_inv lx → at_last_token lx = true →
  tokens_ lx !! cur_token_ lx = Some t → is_Eof t = false →
  length (tokens_ lx) = S (cur_token_ lx)
  ∧ no_Eof (tokens_ lx) ∧ indent_after 0 (tokens_ lx) = Some (cur_indent_ lx).
Proof.
  intros (_ & _ & Hshape) Hlast Hcur Ht.
  assert (Hlen : length (tokens_ lx) = S (cur_token_ lx)).
  { unfold at_last_token in Hlast. destruct (length (tokens_ lx)); [discriminate|].
    apply Nat.eqb_eq in Hlast. now subst. }
  split; [exact Hlen|].
  destruct Hshape as [[Hno Hdepth] | (body & level & Hbody & Hno & _)]; [done|].
  exfalso. rewrite Hbody in Hcur, Hlen. rewrite length_app in Hlen. cbn in Hlen.
  assert (Hpos : cur_token_ lx = length body) by lia.
  rewrite (list_lookup_middle body [] token_type.Eof _ Hpos) in Hcur.
  injection Hcur as <-. discriminate.
Qed.

Lemma NextToken_buffer_inv lx t t1 lx1 :
  buffer_inv lx → tokens_ lx !! cur_token_ lx = Some t → is_Eof t = false →
  NextToken lx = Ok (t1, lx1) →
  buffer_inv lx1.
Proof.
  intros Hinv Hcur Ht HN. unfold NextToken in HN.
  destruct (at_last_token lx) eqn:Hlast.
  - destruct (buffer_last_no_Eof _ _ Hinv Hlast Hcur Ht) as (Hlen & Hno & Hdepth).
    unfold ParseLine in HN.
    destruct (ParseLine_fuel_cursor (S (length (input_ lx))) lx) as [_ Hok].
    destruct (Hok _ _ HN) as (_ & Hc & _ & _).
    destruct (ParseLine_fuel_buffer _ _ _ _ HN) as (new & Htok & Hnew & Hshape).
    destruct Hinv as (_ & Hall & _).
    split; [|split].
    + rewrite Hc, Htok, take_app_length. exact Hno.
    + rewrite Htok. now apply Forall_app.
    + rewrite Htok. destruct Hshape as [[Hno' Hd'] | (body & level & -> & Hno' & Hd')].
      * left. split; [now apply Forall_app|]. now rewrite indent_after_app, Hdepth.
      * right. exists (tokens_ lx ++ body), level.
        split; [now rewrite app_assoc|]. split; [now apply Forall_app|].
        now rewrite indent_after_app, Hdepth.
  - unfold CurrentToken in HN. cbn [tokens_ cur_token_] in HN.
    destruct (tokens_ lx !! S (cur_token_ lx)) as [t'|] eqn:Hnext; cbn [bindR] in HN;
      [|discriminate].
    injection HN as <- <-. destruct Hinv as (Hbefore & Hall & Hshape).
    split; [|split; [exact Hall|exact Hshape]].
    cbn [tokens_ cur_token_]. rewrite (take_S_r _ _ _ Hcur).
    apply Forall_app. split; [exact Hbefore|now constructor].
Qed.

(** The stream that the client reads from a lexer in such a state, and the
    exceptions that end the reading. *)
Lemma drain_buffer fuel :
  ∀ cur lx,
    buffer_inv lx → cursor_in_buffer lx →
    tokens_ lx !! cur_token_ lx = Some cur →
    (∀ e, drain fuel cur lx = Throw e → e = IncorrectIndent ∨ reading_error e)
    ∧ (∀ toks lx', drain fuel cur lx = Ok (toks, lx') →
         buffer_inv lx'
         ∧ tokens_ lx `prefix_of` tokens_ lx'
         ∧ toks = drop (cur_token_ lx) (tokens_ lx')
         ∧ ∃ body, tokens_ lx' = body ++ [token_type.Eof] ∧ no_Eof body).
Proof.
  assert (Hend : ∀ cur lx, buffer_inv lx → tokens_ lx !! cur_token_ lx = Some cur →
            is_Eof cur = true →
            [cur] = drop (cur_token_ lx) (tokens_ lx)
            ∧ ∃ body, tokens_ lx = body ++ [token_type.Eof] ∧ no_Eof body).
  { intros cur lx (_ & _ & Hshape) Hcur HEof.
    destruct Hshape as [[Hno _] | (body & level & Hbody & Hno & _)].
    { rewrite (no_Eof_lookup _ _ _ Hno Hcur) in HEof. discriminate. }
    split; [|now exists body].
    rewrite Hbody in Hcur |- *.
    destruct (Nat.lt_ge_cases (cur_token_ lx) (length body)) as [Hlt|Hge].
    { rewrite lookup_app_l in Hcur by exact Hlt.
      rewrite (no_Eof_lookup _ _ _ Hno Hcur) in HEof. discriminate. }
    pose proof (lookup_lt_Some _ _ _ Hcur) as Hlt. rewrite length_app in Hlt. cbn in Hlt.
    assert (Hpos : cur_token_ lx = length body) by lia.
    rewrite (list_lookup_middle body [] token_type.Eof _ Hpos) in Hcur.
    injection Hcur as <-. now rewrite Hpos, drop_app_length. }
  induction fuel as [|fuel IH]; intros cur lx Hinv Hcb Hcur; cbn [drain];
    destruct (is_Eof cur) eqn:HEof.
  - split; [discriminate|]. intros toks lx' [= <- <-].
    destruct (Hend _ _ Hinv Hcur HEof). done.
  - split; discriminate.
  - split; [discriminate|]. intros toks lx' [= <- <-].
    destruct (Hend _ _ Hinv Hcur HEof). done.
  - destruct (NextToken_cursor_step lx Hcb) as [Herr Hstep].
    destruct (NextToken lx) as [[t lx1]|e|] eqn:HN; cbn [bindR].
    2:{ split; [|discriminate]. intros e' [= <-]. now apply Herr. }
    2:{ split; discriminate. }
    destruct (Hstep _ _ eq_refl) as (Hcur1 & HS & Hcb1 & Hpre).
    assert (Hinv1 : buffer_inv lx1) by exact (NextToken_buffer_inv _ _ _ _ Hinv Hcur HEof HN).
    assert (Hlk : tokens_ lx1 !! cur_token_ lx1 = Some t).
    { exact (CurrentToken_lookup _ _ Hcur1). }
    destruct (IH t lx1 Hinv1 Hcb1 Hlk) as [IHerr IHok].
    destruct (drain fuel t lx1) as [[ts lx2]|e|] eqn:HD; cbn [bindR].
    2:{ split; [|discriminate]. intros e' [= <-]. now apply IHerr. }
    2:{ split; discriminate. }
    split; [discriminate|]. intros toks lx' [= <- <-].
    destruct (IHok _ _ eq_refl) as (Hinv2 & Hpre2 & -> & Hbody).
    split; [exact Hinv2|]. split; [now transitivity (tokens_ lx1)|]. split; [|exact Hbody].
    rewrite HS. symmetry. apply drop_S.
    destruct Hpre as [k1 E1], Hpre2 as [k2 E2]. rewrite E2, E1, <- app_assoc.
    apply lookup_app_l_Some. exact Hcur.
Qed.

Lemma Lexer_new_buffer input :
  (∀ e, Lexer_new input = Throw e → e = IncorrectIndent ∨ reading_error e)
  ∧ (∀ t lx, Lexer_new input = Ok (t, lx) →
       buffer_inv lx ∧ cursor_in_buffer lx ∧ cur_token_ lx = 0
       ∧ tokens_ lx !! cur_token_ lx = Some t).
Proof.
  unfold Lexer_new, ParseLine.
  set (lx0 := {| tokens_ := []; input_ := input; cur_token_ := 0; cur_indent_ := 0 |}).
  destruct (ParseLine_fuel_cursor (S (length (input_ lx0))) lx0) as [Herr Hok].
  split; [exact Herr|]. intros t lx HP.
  destruct (Hok _ _ HP) as (Hcur & Hc & Hcb & _).
  destruct (ParseLine_fuel_buffer _ _ _ _ HP) as (new & Htok & Hnew & Hshape).
  cbn [lx0 tokens_ cur_indent_ app length] in Htok, Hc, Hshape.
  split; [|split; [exact Hcb|split; [exact Hc|]]].
  - split; [rewrite Hc; constructor|]. split; [now rewrite Htok|]. rewrite Htok.
    destruct Hshape as [[Hno Hd] | (body & level & -> & Hno & Hd)]; [now left|right].
    now exists body, level.
  - exact (CurrentToken_lookup _ _ Hcur).
Qed.

Lemma TokenStream_buffer fuel input :
  (∀ e, TokenStream fuel input = Throw e → e = IncorrectIndent ∨ reading_error e)
  ∧ (∀ toks lx, TokenStream fuel input = Ok (toks, lx) →
       buffer_inv lx ∧ toks = tokens_ lx
       ∧ ∃ body, toks = body ++ [token_type.Eof] ∧ no_Eof body).
Proof.
  unfold TokenStream. destruct (Lexer_new_buffer input) as [Herr Hok].
  destruct (Lexer_new input) as [[t lx1]|e|]; cbn [bindR].
  2:{ split; [|discriminate]. intros e' [= <-]. now apply Herr. }
  2:{ split; discriminate. }
  destruct (Hok _ _ eq_refl) as (Hinv & Hcb & Hc & Hcur).
  destruct (drain_buffer fuel t lx1 Hinv Hcb Hcur) as [Derr Dok].
  split; [exact Derr|]. intros toks lx HD.
  destruct (Dok _ _ HD) as (Hinv' & _ & -> & Hbody). rewrite Hc. cbn [drop].
  split; [exact Hinv'|]. split; [reflexivity|exact Hbody].
Qed.

(** X7.  For every source, the stream that the client reads is the buffer of
    the lexer; it ends with its only [Eof]; no [Dedent] in it comes at level
    0; and its tokens are well formed: a [Number] is an [int] that is not
    negative, an [Id] is a name that is no keyword, a [Char] is none of the
    characters that [ReadLine] treats otherwise. *)
Theorem TokenStream_of_any_source fuel input toks lx :
  TokenStream fuel input = Ok (toks, lx) →
  toks = tokens_ lx
  ∧ (∃ body, toks = body ++ [token_type.Eof] ∧ no_Eof body)
  ∧ (∃ level, indent_after 0 toks = Some level)
  ∧ Forall (λ t, stream_token t = true) toks.
Proof.
  intros H. destruct (TokenStream_buffer fuel input) as [_ Hok].
  destruct (Hok _ _ H) as ((_ & Hall & Hshape) & -> & Hbody).
  split; [reflexivity|]. split; [exact Hbody|]. split; [|exact Hall].
  destruct Hshape as [[_ Hd] | (body & level & _ & _ & Hd)]; eauto.
Qed.

(** An instance of [TokenStream_of_any_source]: the stream of a source
    whose last line is not ended by a newline. *)
Lemma TokenStream_of_any_source_witness :
  let stream := [token_type.If; token_type.Id "a"; token_type.Char ":"; token_type.Newline;
                 token_type.Indent; token_type.Id "x"; token_type.Newline; token_type.Eof] in
  (∃ body, stream = body ++ [token_type.Eof] ∧ no_Eof body)
  ∧ (∃ level, indent_after 0 stream = Some level)
  ∧ Forall (λ t, stream_token t = true) stream.
Proof.
  intros stream.
  exact (proj2 (TokenStream_of_any_source 7 (list_ascii_of_string "if a:" ++ NL :: list_ascii_of_string "  x") stream
                  {| tokens_ := stream; input_ := []; cur_token_ := 7; cur_indent_ := 1 |}
                  eq_refl)).
Defined.

(** X8.  The lexer throws the exception of [ParseLine], the three of
    [ReadString] and the one of [std::stoi], and no other: the assertion of
    [CurrentToken] holds whenever it is reached. *)
Theorem TokenStream_exceptions fuel input e :
  TokenStream fuel input = Throw e →
  e = IncorrectIndent ∨ reading_error e.
Proof.
  intros H. destruct (TokenStream_buffer fuel input) as [Herr _]. now apply Herr.
Qed.

(** An instance of [TokenStream_exceptions]: a line ends within a string
    literal. *)
Lemma TokenStream_exceptions_witness :
  LexerError "Unexpected end of line" = IncorrectIndent
  ∨ reading_error (LexerError "Unexpected end of line").
Proof.
  exact (TokenStream_exceptions 3 (list_ascii_of_string "x = 'abc" ++ [NL]) _ eq_refl).
Defined.


Lemma decimal_of_uint_acc d :
  ∀ acc, decimal (Z.pos acc) (NilEmpty.string_of_uint d) = Z.pos (Pos.of_uint_acc d acc).
Proof.
  induction d; intros acc; cbn [NilEmpty.string_of_uint decimal Pos.of_uint_acc];
    try reflexivity;
    match goal with
    | |- decimal ?z _ = _ =>
        match type of IHd with
        | ∀ acc, decimal _ _ = Z.pos (Pos.of_uint_acc _ acc) =>
            match goal with
            | |- _ = Z.pos (Pos.of_uint_acc _ ?a) =>
                replace z with (Z.pos a) by (cbn; lia); apply IHd
            end
        end
    end.
Qed.

Lemma decimal_of_uint d :
  decimal 0 (NilEmpty.string_of_uint d) = Z.of_N (Pos.of_uint d).
Proof.
  induction d; cbn [NilEmpty.string_of_uint decimal Pos.of_uint]; try reflexivity;
    try exact IHd;
    match goal with
    | |- decimal ?z _ = Z.of_N (N.pos (Pos.of_uint_acc _ ?a)) =>
        replace z with (Z.pos a) by (cbn; lia); apply decimal_of_uint_acc
    end.
Qed.

Lemma decimal_numeral n : decimal 0 (NilZero.string_of_uint (N.to_uint n)) = Z.of_N n.
Proof.
  rewrite <- (DecimalN.Unsigned.of_to n) at 2. unfold N.of_uint.
  rewrite <- decimal_of_uint. unfold NilZero.string_of_uint.
  destruct (N.to_uint n); reflexivity.
Qed.

Lemma string_of_uint_digits d :
  Forall (λ c, isdigit c = true) (list_ascii_of_string (NilEmpty.string_of_uint d)).
Proof. induction d; cbn; constructor; done. Qed.

Lemma numeral_digits n : Forall (λ c, isdigit c = true) (numeral n).
Proof.
  unfold numeral, NilZero.string_of_uint.
  destruct (N.to_uint n) eqn:E; try (rewrite <- E at 1); try apply string_of_uint_digits.
  all: try (repeat constructor).
Qed.

Lemma take_digits_app digits rest :
  Forall (λ c, isdigit c = true) digits → no_digit_ahead rest →
  take_digits (digits ++ rest) = (string_of_list_ascii digits, rest).
Proof.
  intros H Hrest. induction H as [|c digits Hc H IH]; cbn [app].
  - destruct rest as [|c rest]; [reflexivity|]. cbn in *. now rewrite Hrest.
  - cbn [take_digits]. rewrite Hc, IH. reflexivity.
Qed.

Lemma decimal_app s1 s2 acc :
  decimal acc (String.append s1 s2) = decimal (decimal acc s1) s2.
Proof. revert acc. induction s1; intros acc; cbn; [reflexivity|apply IHs1]. Qed.

Lemma decimal_zeros k s :
  decimal 0 (string_of_list_ascii (replicate k "0"%char ++ list_ascii_of_string s))
  = decimal 0 s.
Proof.
  induction k as [|k IH]; cbn [replicate app string_of_list_ascii decimal].
  - now rewrite string_of_list_ascii_of_string.
  - exact IH.
Qed.


(** X11.  [ReadNumber] on the decimal numeral of [n], after any number of
    zeros and before a character that is not a digit: the token is [Number
    n] when [n] is an [int]; otherwise [std::stoi] throws. *)
Theorem ReadNumber_numeral (zeros : nat) (n : N) rest toks :
  no_digit_ahead rest →
  ReadNumber (replicate zeros "0"%char ++ numeral n ++ rest) toks =
    if (Z.of_N n <=? INT_MAX)%Z
    then Ok (toks ++ [token_type.Number (Z.of_N n)], rest)
    else Throw std_out_of_range.
Proof.
  intros Hrest. unfold ReadNumber. rewrite app_assoc.
  rewrite take_digits_app; [|apply Forall_app; split|exact Hrest].
  - unfold stoi, numeral. rewrite decimal_zeros, decimal_numeral.
    destruct (_ <=? _)%Z; reflexivity.
  - clear. induction zeros; constructor; done.
  - apply numeral_digits.
Qed.

(** An instance of [ReadNumber_numeral]: leading zeros; the greatest [int];
    the number behind it. *)
Lemma ReadNumber_numeral_witness :
  ReadNumber (list_ascii_of_string "0042+1") [] = Ok ([token_type.Number 42], ["+"; "1"]%char)
  ∧ ReadNumber (list_ascii_of_string "2147483647") [] = Ok ([token_type.Number 2147483647], [])
  ∧ ReadNumber (list_ascii_of_string "2147483648 ") [] = Throw std_out_of_range.
Proof.
  split; [|split].
  - exact (ReadNumber_numeral 2 42 ["+"; "1"]%char [] eq_refl).
  - exact (ReadNumber_numeral 0 2147483647 [] [] I).
  - exact (ReadNumber_numeral 0 2147483648 [" "]%char [] eq_refl).
Defined.


Lemma same_refl c : same c c = true.
Proof. apply Ascii.eqb_refl. Qed.

Lemma ReadString_loop_escaped quote_type s rest :
  quote_type = DQUOTE ∨ quote_type = "'"%char →
  ReadString_loop quote_type (escaped quote_type s ++ quote_type :: rest) = Ok (s, rest).
Proof.
  intros Hquote.
  assert (Hq' : same "\"%char quote_type = false) by now destruct Hquote as [-> | ->].
  induction s as [|c s IH]; cbn [escaped app].
  - cbn [ReadString_loop]. now rewrite same_refl.
  - destruct (same c NL) eqn:Hnl.
    { apply same_eq in Hnl as ->. cbn [app ReadString_loop]. rewrite Hq'.
      cbn. rewrite IH. reflexivity. }
    destruct (same c TAB) eqn:Htab.
    { apply same_eq in Htab as ->. cbn [app ReadString_loop]. rewrite Hq'.
      cbn. rewrite IH. reflexivity. }
    destruct (same c CR) eqn:Hcr.
    { apply same_eq in Hcr as ->. cbn [app ReadString_loop]. rewrite Hq'.
      cbn. rewrite IH. reflexivity. }
    destruct (same c "\"%char) eqn:Hbs.
    { apply same_eq in Hbs as ->. cbn [app ReadString_loop]. rewrite Hq'.
      cbn. rewrite IH. reflexivity. }
    destruct (same c quote_type) eqn:Hcq.
    { apply same_eq in Hcq as ->. cbn [app ReadString_loop]. rewrite Hq'.
      destruct Hquote as [-> | ->]; cbn; cbn in IH; rewrite IH; reflexivity. }
    cbn [app ReadString_loop]. rewrite Hcq, Hbs, Hnl, Hcr. cbn [orb]. rewrite IH. reflexivity.
Qed.

(** X12.  Every string has a literal: between two quotes of one kind, the
    escaped text of [s] is read as the token [String s], and the stream is
    left behind the closing quote. *)
Theorem ReadString_escaped quote_type s rest toks :
  quote_type = DQUOTE ∨ quote_type = "'"%char →
  ReadString (quote_type :: escaped quote_type s ++ quote_type :: rest) toks
    = Ok (toks ++ [token_type.String s], rest).
Proof.
  intros Hquote. cbn [ReadString]. now rewrite ReadString_loop_escaped.
Qed.

(** An instance of [ReadString_escaped]: an escaped quote, and a [#] that
    starts no comment. *)
Lemma ReadString_escaped_witness :
  ReadString (list_ascii_of_string "'it\'s #1' + x") []
    = Ok ([token_type.String "it's #1"], list_ascii_of_string " + x").
Proof.
  exact (ReadString_escaped "'"%char "it's #1" (list_ascii_of_string " + x") [] (or_intror eq_refl)).
Defined.

Lemma ReadString_loop_literal quote_type body :
  Forall (literal_char quote_type) body →
  ∀ tail, ReadString_loop quote_type (body ++ tail) =
    do (s, r) <- ReadString_loop quote_type tail;
    Ok (String.append (string_of_list_ascii body) s, r).
Proof.
  induction 1 as [|c body (Hq & Hbs & Hnl & Hcr) Hbody IH]; intros tail; cbn [app].
  - cbn. now destruct (ReadString_loop quote_type tail) as [[s r]| |].
  - cbn [ReadString_loop]. rewrite Hq, Hbs, Hnl, Hcr. cbn [orb]. rewrite IH.
    now destruct (ReadString_loop quote_type tail) as [[s r]| |].
Qed.

(** X13.  The exceptions of [ReadString], behind the characters of a literal
    that need no escape: the stream ends before the closing quote, or just
    behind a backslash; the line ends; a backslash comes before a character
    other than n, t, r, the two quotes and the backslash. *)
Theorem ReadString_exceptions quote_type body toks :
  quote_type = DQUOTE ∨ quote_type = "'"%char →
  Forall (literal_char quote_type) body →
  ReadString (quote_type :: body) toks = Throw (LexerError "String parsing error")
  ∧ ReadString (quote_type :: body ++ ["\"%char]) toks
      = Throw (LexerError "String parsing error")
  ∧ (∀ c rest, c = NL ∨ c = CR →
       ReadString (quote_type :: body ++ c :: rest) toks
         = Throw (LexerError "Unexpected end of line"))
  ∧ (∀ c rest, c ∉ ["n"; "t"; "r"; DQUOTE; "'"; "\"]%char →
       ReadString (quote_type :: body ++ "\"%char :: c :: rest) toks
         = Throw (LexerError (String.append "Unrecognized escape sequence \"
                                            (String c EmptyString)))).
Proof.
  intros Hquote Hbody. cbn [ReadString].
  assert (Hq : same "\"%char quote_type = false) by now destruct Hquote as [-> | ->].
  split; [|split; [|split]].
  - rewrite <- (app_nil_r body), (ReadString_loop_literal _ _ Hbody). reflexivity.
  - rewrite (ReadString_loop_literal _ _ Hbody). cbn [ReadString_loop].
    rewrite Hq, same_refl. reflexivity.
  - intros c rest Hc. rewrite (ReadString_loop_literal _ _ Hbody). cbn [ReadString_loop].
    destruct Hc as [-> | ->], Hquote as [-> | ->]; reflexivity.
  - intros c rest Hc. rewrite (ReadString_loop_literal _ _ Hbody). cbn [ReadString_loop].
    rewrite Hq, same_refl.
    repeat match goal with
           | |- context [same c ?d] =>
               let E := fresh "E" in
               destruct (same c d) eqn:E;
               [apply same_eq in E; subst c; exfalso; apply Hc;
                apply (proj2 (list_elem_of_In _ _)); cbn; auto 10|]
           end.
    reflexivity.
Qed.

(** An instance of [ReadString_exceptions]: a literal that is not closed, and
    an escape sequence that is not known. *)
Lemma ReadString_exceptions_witness :
  ReadString (list_ascii_of_string "'abc") [] = Throw (LexerError "String parsing error")
  ∧ ReadString (DQUOTE :: list_ascii_of_string "a\q" ++ [DQUOTE]) []
      = Throw (LexerError "Unrecognized escape sequence \q").
Proof.
  pose proof (ReadString_exceptions "'"%char (list_ascii_of_string "abc") []
                (or_intror eq_refl) ltac:(repeat constructor)) as (H1 & _).
  pose proof (ReadString_exceptions DQUOTE ["a"%char] []
                (or_introl eq_refl) ltac:(repeat constructor)) as (_ & _ & _ & H4).
  split; [exact H1|].
  apply (H4 "q"%char [DQUOTE]). intros H. apply list_elem_of_In in H. cbn in H.
  intuition discriminate.
Defined.


Lemma take_ident_app word rest :
  Forall (λ c, ident_char c = true) word → no_ident_char_ahead rest →
  take_ident (word ++ rest) = (string_of_list_ascii word, rest).
Proof.
  intros H Hrest. induction H as [|c word Hc H IH]; cbn [app].
  - destruct rest as [|c rest]; [reflexivity|]. cbn in *. now rewrite Hrest.
  - cbn [take_ident]. rewrite Hc, IH. reflexivity.
Qed.

Lemma keyword_or_Id_keywords word :
  keyword_or_Id word = token_type.Id word ↔ word ∉ keywords.
Proof.
  unfold keyword_or_Id, keywords. rewrite list_elem_of_In. cbn [In].
  repeat match goal with
         | |- context [String.eqb word ?k] =>
             destruct (String.eqb_spec word k) as [->|?];
             [split; [discriminate|intros H; exfalso; apply H; auto 15]|]
         end.
  split; [|reflexivity]. intros _ H. decompose [or] H; congruence.
Qed.

(** X14.  [ReadIdentifier] reads a word to its end, whatever its length, and
    makes it a keyword token when it is one of the twelve keywords, and an
    [Id] otherwise. *)
Theorem ReadIdentifier_word word rest toks :
  Forall (λ c, ident_char c = true) word → no_ident_char_ahead rest →
  ReadIdentifier (word ++ rest) toks
    = (toks ++ [keyword_or_Id (string_of_list_ascii word)], rest)
  ∧ (keyword_or_Id (string_of_list_ascii word) = token_type.Id (string_of_list_ascii word)
     ↔ string_of_list_ascii word ∉ keywords)
  ∧ map keyword_or_Id keywords
    = [token_type.Class; token_type.Return; token_type.If; token_type.Else; token_type.Def;
       token_type.Print; token_type.And; token_type.Or; token_type.Not; token_type.None;
       token_type.True; token_type.False].
Proof.
  intros Hword Hrest. unfold ReadIdentifier. rewrite take_ident_app by assumption.
  split; [reflexivity|]. split; [apply keyword_or_Id_keywords|reflexivity].
Qed.

(** An instance of [ReadIdentifier_word]: a word that starts with a keyword,
    and the keyword. *)
Lemma ReadIdentifier_word_witness :
  ReadIdentifier (list_ascii_of_string "classes = 1") []
    = ([token_type.Id "classes"], list_ascii_of_string " = 1")
  ∧ ReadIdentifier (list_ascii_of_string "class A:") []
    = ([token_type.Class], list_ascii_of_string " A:").
Proof.
  split.
  - exact (proj1 (ReadIdentifier_word (list_ascii_of_string "classes")
                    (list_ascii_of_string " = 1") [] ltac:(repeat constructor) eq_refl)).
  - exact (proj1 (ReadIdentifier_word (list_ascii_of_string "class")
                    (list_ascii_of_string " A:") [] ltac:(repeat constructor) eq_refl)).
Defined.

(** *** The cursor *)

(** X9.  [NextToken] moves the cursor to the next place of the buffer, keeps
    the tokens that the buffer holds, and returns the token under the
    cursor; the index of [tokens_[++cur_token_]] is within the buffer. *)
Theorem NextToken_advances_cursor lx t lx1 :
  cursor_in_buffer lx →
  NextToken lx = Ok (t, lx1) →
  CurrentToken lx1 = Ok t
  ∧ cur_token_ lx1 = S (cur_token_ lx)
  ∧ cursor_in_buffer lx1
  ∧ tokens_ lx `prefix_of` tokens_ lx1.
Proof.
  intros Hcb H. destruct (NextToken_cursor_step lx Hcb) as [_ Hok]. now apply Hok.
Qed.

(** An instance of [NextToken_advances_cursor]: the cursor is on the last
    token of the buffer, and the next line is read. *)
Lemma NextToken_advances_cursor_witness :
  let lx := {| tokens_ := [token_type.Id "x"; token_type.Newline];
               input_ := list_ascii_of_string "  y" ++ [NL];
               cur_token_ := 1; cur_indent_ := 0 |} in
  let lx1 := {| tokens_ := [token_type.Id "x"; token_type.Newline; token_type.Indent;
                            token_type.Id "y"; token_type.Newline];
                input_ := []; cur_token_ := 2; cur_indent_ := 1 |} in
  NextToken lx = Ok (token_type.Indent, lx1) ∧ CurrentToken lx1 = Ok token_type.Indent.
Proof.
  intros lx lx1. split; [reflexivity|].
  refine (proj1 (NextToken_advances_cursor lx token_type.Indent lx1 _ eq_refl)).
  unfold cursor_in_buffer. cbn. lia.
Defined.

Lemma blank_ReadLine input :
  Forall (λ c, c = NL) input →
  ReadLine input = Ok ({| starting_spaces_ := 0; line_tokens_ := [token_type.Eof] |}, []).
Proof.
  intros H. unfold ReadLine.
  assert (E : SkipNewLinesOnly input = []).
  { induction H as [|c input -> H IH]; [reflexivity|]. exact IH. }
  rewrite E. reflexivity.
Qed.

(** X10.  When nothing but newlines is left of the source, [ParseLine] adds
    one [Dedent] for each open level and an [Eof] to the buffer, and leaves
    [cur_indent_] as it is: at every call of [NextToken] behind the last
    token the buffer grows by as many tokens again. *)
Theorem NextToken_at_end_of_source lx :
  Forall (λ c, c = NL) (input_ lx) → at_last_token lx = true →
  NextToken lx = Ok
    (if (cur_indent_ lx =? 0)%nat then token_type.Eof else token_type.Dedent,
     {| tokens_ := tokens_ lx ++ replicate (cur_indent_ lx) token_type.Dedent ++ [token_type.Eof];
        input_ := [];
        cur_token_ := length (tokens_ lx);
        cur_indent_ := cur_indent_ lx |}).
Proof.
  intros Hinput Hlast. unfold NextToken. rewrite Hlast. unfold ParseLine.
  rewrite (ParseLine_fuel_step _ _ _ _ (blank_ReadLine _ Hinput)).
  cbn -[replicate]. unfold CurrentToken. cbn [tokens_ cur_token_].
  rewrite lookup_app_r by lia. rewrite Nat.sub_diag.
  destruct (cur_indent_ lx); reflexivity.
Qed.

(** An instance of [NextToken_at_end_of_source]: behind the [Eof] of a
    stream that left one level open, the next token is a [Dedent]. *)
Lemma NextToken_at_end_of_source_witness :
  let stream := [token_type.Id "x"; token_type.Newline; token_type.Eof] in
  let lx := {| tokens_ := stream; input_ := []; cur_token_ := 2; cur_indent_ := 1 |} in
  NextToken lx = Ok
    (token_type.Dedent,
     {| tokens_ := stream ++ [token_type.Dedent; token_type.Eof]; input_ := [];
        cur_token_ := 3; cur_indent_ := 1 |}).
Proof.
  intros stream lx. exact (NextToken_at_end_of_source lx (Forall_nil_2 _) eq_refl).
Defined.


Lemma Token_eq_same lhs : Token_eq lhs lhs = Some true.
Proof.
  destruct lhs; cbn; try reflexivity.
  - now rewrite Z.eqb_refl.
  - now rewrite String.eqb_refl.
  - now rewrite same_refl.
  - now rewrite String.eqb_refl.
Qed.

(** X15.  [operator==] is the equality of tokens, [operator!=] its negation;
    the [std::get] of [operator==] never throws. *)
Theorem Token_eq_decides lhs rhs :
  ∃ b, Token_eq lhs rhs = Some b ∧ Token_neq lhs rhs = Some (negb b)
       ∧ (b = true ↔ lhs = rhs).
Proof.
  unfold Token_neq.
  destruct (Token_eq lhs rhs) as [b|] eqn:E.
  - exists b. split; [reflexivity|]. split; [reflexivity|]. split.
    + intros ->. destruct lhs, rhs; try discriminate; try reflexivity; cbn in E;
        injection E as E; f_equal.
      * now apply Z.eqb_eq.
      * now apply String.eqb_eq.
      * now apply same_eq.
      * now apply String.eqb_eq.
    + intros <-. rewrite Token_eq_same in E. now injection E.
  - exfalso. destruct lhs, rhs; discriminate.
Qed.


Lemma append_brace_inj s1 s2 : String.append s1 "}" = String.append s2 "}" → s1 = s2.
Proof.
  revert s2. induction s1 as [|c s1 IH]; intros [|d s2]; cbn; try reflexivity.
  - intros [= <- H]. now destruct s2.
  - intros [= -> H]. now destruct s1.
  - intros [= -> H]. f_equal. now apply IH.
Qed.

Lemma to_int_nonnil v : Z.to_int v ≠ Decimal.Pos Decimal.Nil ∧ Z.to_int v ≠ Decimal.Neg Decimal.Nil.
Proof.
  destruct v as [|p|p]; cbn; split; try discriminate; intros [= H];
    exact (DecimalPos.Unsigned.to_uint_nonnil p H).
Qed.

Lemma int_text_inj v1 v2 : int_text v1 = int_text v2 → v1 = v2.
Proof.
  unfold int_text. intros H. apply (f_equal NilZero.int_of_string) in H.
  destruct (to_int_nonnil v1), (to_int_nonnil v2).
  rewrite !NilZero.isi in H by assumption.
  injection H as H. now apply DecimalZ.to_int_inj.
Qed.

(** X16.  [operator<<] writes a text of its own for every token: the text
    [Unknown token :(] is never written, and two tokens with one text are
    equal. *)
Theorem Token_print_injective :
  (∀ t, Token_print t ≠ "Unknown token :(")
  ∧ (∀ t1 t2, Token_print t1 = Token_print t2 → t1 = t2).
Proof.
  split.
  - intros []; discriminate.
  - intros [] []; cbn; intros H; try discriminate H; try reflexivity;
      injection H as H; f_equal.
    + now apply int_text_inj, append_brace_inj.
    + now apply append_brace_inj.
    + exact H.
    + now apply append_brace_inj.
Qed.

Lemma Expect_CurrentToken T lx t :
  CurrentToken lx = Ok t →
  Expect T lx = if Is T t then Ok t else Throw (LexerError "Wrong current token type").
Proof. intros H. unfold Expect. rewrite H. cbn [bindR]. now destruct (Is T t). Qed.

(** X17.  [ExpectNext<T>()] is [NextToken()] followed by [Expect<T>()], and
    [ExpectNext<T>(value)] is [NextToken()] followed by [Expect<T>(value)],
    up to the text of the exception: the token that [NextToken] returns is
    the one that [CurrentToken] returns afterwards. *)
Theorem ExpectNext_NextToken_Expect T lx :
  cursor_in_buffer lx →
  (∀ t lx1, ExpectNext T lx = Ok (t, lx1) ↔ NextToken lx = Ok (t, lx1) ∧ Expect T lx1 = Ok t)
  ∧ (∀ lx1, ExpectNext_value T lx = Ok lx1 ↔
            ∃ t, NextToken lx = Ok (t, lx1) ∧ Expect_value T lx1 = Ok tt)
  ∧ (∀ t lx1, NextToken lx = Ok (t, lx1) →
       (Expect T lx1 = Ok t ↔ Is T t = true)
       ∧ (Expect_value T lx1 = Ok tt ↔ Is T t = true ∧ value_differs t T = false)).
Proof.
  intros Hcb. destruct (NextToken_cursor_step lx Hcb) as [_ Hok].
  unfold ExpectNext, ExpectNext_value.
  destruct (NextToken lx) as [[t0 lx0]|e|]; cbn [bindR].
  2,3: split; [|split]; [intros; split; [discriminate|now intros [[=] _]]
                        |intros; split; [discriminate|now intros (? & [=] & _)]
                        |discriminate].
  destruct (Hok _ _ eq_refl) as (Hcur & _).
  unfold Expect, Expect_value. 
  split; [|split].
  - intros t lx1. split.
    + destruct (Is T t0) eqn:HT; cbn [negb]; [|discriminate].
      rewrite Hcur. cbn [bindR]. intros [= <- <-]. rewrite Hcur. cbn [bindR].
      now rewrite HT.
    + intros [[= <- <-] H]. rewrite Hcur in H |- *. cbn [bindR] in H |- *.
      destruct (Is T t0); [reflexivity|discriminate].
  - intros lx1. split.
    + destruct (Is T t0) eqn:HT; cbn [negb]; [|discriminate].
      rewrite Hcur. cbn [bindR].
      destruct (value_differs t0 T) eqn:HV; [discriminate|].
      intros [= <-]. exists t0. rewrite Hcur. cbn [bindR]. now rewrite HT, HV.
    + intros (t & [= <- <-] & H). rewrite Hcur in H |- *. cbn [bindR] in H |- *.
      destruct (Is T t0); [|discriminate]. cbn [negb] in *.
      destruct (value_differs t0 T); [discriminate|reflexivity].
  - intros t lx1 [= <- <-]. rewrite Hcur. cbn [bindR].
    destruct (Is T t0); cbn [negb]; [|split; split; try discriminate; now intros []].
    destruct (value_differs t0 T); split; split; try done; now intros [].
Qed.

(** An instance of [ExpectNext_NextToken_Expect]. *)
Lemma ExpectNext_NextToken_Expect_witness :
  let lx := {| tokens_ := [token_type.Id "x"; token_type.Char "="; token_type.Number 1];
               input_ := []; cur_token_ := 0; cur_indent_ := 0 |} in
  let lx1 := {| tokens_ := [token_type.Id "x"; token_type.Char "="; token_type.Number 1];
                input_ := []; cur_token_ := 1; cur_indent_ := 0 |} in
  ExpectNext (token_type.Char "=") lx = Ok (token_type.Char "=", lx1)
  ∧ ExpectNext_value (token_type.Char "=") lx = Ok lx1
  ∧ ExpectNext_value (token_type.Char "+") lx = Throw (LexerError "Wrong next token value")
  ∧ ExpectNext (token_type.Id "") lx = Throw (LexerError "Wrong next token type").
Proof.
  intros lx lx1.
  assert (Hcb : cursor_in_buffer lx) by (unfold cursor_in_buffer; cbn; lia).
  destruct (ExpectNext_NextToken_Expect (token_type.Char "=") lx Hcb) as (H1 & H2 & _).
  split; [|split; [|split]].
  - apply H1. split; reflexivity.
  - apply H2. exists (token_type.Char "="). split; reflexivity.
  - reflexivity.
  - reflexivity.
Defined.

End LexerFacts.

(** * Properties of the evaluator *)

Section EvaluatorFacts.
Import ast.

Lemma Execute_S fuel stmt : Execute (S fuel) stmt = Execute_node (Execute fuel) fuel stmt.
Proof. reflexivity. Qed.

Lemma bind_Normal {E S A B} (m : M E S A) (k : A → M E S B) s a s' :
  m s = Normal a s' → bind m k s = k a s'.
Proof. unfold bind. now intros ->. Qed.

Lemma bind_Thrown {E S A B} (m : M E S A) (k : A → M E S B) s e s' :
  m s = Thrown e s' → bind m k s = Thrown e s'.
Proof. unfold bind. now intros ->. Qed.

Lemma bind_Undefined {E S A B} (m : M E S A) (k : A → M E S B) s :
  m s = Undefined → bind m k s = Undefined.
Proof. unfold bind. now intros ->. Qed.

Lemma bind_ret_l {E S A B} (a : A) (k : A → M E S B) s : bind (ret a) k s = k a s.
Proof. reflexivity. Qed.

Lemma bind_assoc {E S A B C} (m : M E S A) (k : A → M E S B) (h : B → M E S C) s :
  bind (bind m k) h s = bind m (fun a => bind (k a) h) s.
Proof. unfold bind. now destruct (m s). Qed.

(** C7.  Once the left operand of [And] or [Or] has given a holder, the
    right operand is evaluated, whatever the truth value of the left one:
    what the right operand throws is thrown by the node, and the state it
    leaves is the state the node leaves.  When both holders are non-empty
    the result is an owning Bool holder of the conjunction, or disjunction,
    of their [IsTrue] values; when one of them is empty the node throws its
    runtime error. *)
Theorem And_Or_evaluate_both_operands fuel lhs_ rhs_ s lhs_obj s1 :
  Execute fuel lhs_ s = Normal lhs_obj s1 →
  (∀ rhs_obj s2, Execute fuel rhs_ s1 = Normal rhs_obj s2 →
     (runtime.non_empty lhs_obj = true → runtime.non_empty rhs_obj = true →
        Execute (S fuel) (And lhs_ rhs_) s =
          Normal (runtime.Own (runtime.Bool (runtime.IsTrue lhs_obj && runtime.IsTrue rhs_obj))) s2
        ∧ Execute (S fuel) (Or lhs_ rhs_) s =
          Normal (runtime.Own (runtime.Bool (runtime.IsTrue lhs_obj || runtime.IsTrue rhs_obj))) s2)
     ∧ (runtime.non_empty lhs_obj = false ∨ runtime.non_empty rhs_obj = false →
        Execute (S fuel) (And lhs_ rhs_) s = Thrown And_error s2
        ∧ Execute (S fuel) (Or lhs_ rhs_) s = Thrown Or_error s2))
  ∧ (∀ e s2, Execute fuel rhs_ s1 = Thrown e s2 →
       Execute (S fuel) (And lhs_ rhs_) s = Thrown e s2
       ∧ Execute (S fuel) (Or lhs_ rhs_) s = Thrown e s2)
  ∧ (Execute fuel rhs_ s1 = Undefined →
       Execute (S fuel) (And lhs_ rhs_) s = Undefined
       ∧ Execute (S fuel) (Or lhs_ rhs_) s = Undefined).
Proof.
  intros Hl. rewrite !Execute_S. cbn [Execute_node].
  rewrite !(bind_Normal _ _ _ _ _ Hl).
  split; [|split].
  - intros rhs_obj s2 Hr. rewrite !(bind_Normal _ _ _ _ _ Hr). split.
    + intros -> ->. now split.
    + intros [-> | ->]; [|rewrite andb_false_r]; now split.
  - intros e s2 Hr. now rewrite !(bind_Thrown _ _ _ _ _ Hr).
  - intros Hr. now rewrite !(bind_Undefined _ _ _ Hr).
Qed.

(** An instance of [And_Or_evaluate_both_operands]: the right operand is an
    assignment, and the closure shows that it is executed after a false
    left operand of [And] and after a true left operand of [Or]. *)
Lemma And_Or_evaluate_both_operands_witness :
  let closure : Closure :=
    <["f" := runtime.Own (runtime.Bool false)]> (<["t" := runtime.Own (runtime.Bool true)]> ∅) in
  let seen : Closure := <["seen" := runtime.Own (runtime.Bool true)]> closure in
  let rhs_ := Assignment "seen" (var "t") in
  Execute 3 (And (var "f") rhs_) (closure, empty_World)
    = Normal (runtime.Own (runtime.Bool false)) (seen, empty_World)
  ∧ Execute 3 (Or (var "t") rhs_) (closure, empty_World)
    = Normal (runtime.Own (runtime.Bool true)) (seen, empty_World).
Proof.
  intros closure seen rhs_.
  pose (s := (closure, empty_World)).
  assert (Hf : Execute 2 (var "f") s = Normal (runtime.Own (runtime.Bool false)) s)
    by (vm_compute; reflexivity).
  assert (Ht : Execute 2 (var "t") s = Normal (runtime.Own (runtime.Bool true)) s)
    by (vm_compute; reflexivity).
  assert (Hr : Execute 2 rhs_ s = Normal (runtime.Own (runtime.Bool true)) (seen, empty_World))
    by (vm_compute; reflexivity).
  split.
  - destruct (And_Or_evaluate_both_operands 2 (var "f") rhs_ s _ _ Hf) as [H _].
    destruct (H _ _ Hr) as [H1 _]. exact (proj1 (H1 eq_refl eq_refl)).
  - destruct (And_Or_evaluate_both_operands 2 (var "t") rhs_ s _ _ Ht) as [H _].
    destruct (H _ _ Hr) as [H1 _]. exact (proj2 (H1 eq_refl eq_refl)).
Defined.

(** C5, as amended.  Once both operands of [Div] have given their holders:
    if both hold a Number, the right one is not zero and the quotient is a
    value of [int], the result is an owning holder of the quotient
    (truncated towards zero); if one of them holds no Number, or the right
    one holds zero, the node throws the one runtime error it has. *)
Theorem Div_quotient_or_error fuel lhs_ rhs_ s lhs_obj s1 rhs_obj s2 :
  Execute fuel lhs_ s = Normal lhs_obj s1 →
  Execute fuel rhs_ s1 = Normal rhs_obj s2 →
  (∀ l r, runtime.TryAs_Number lhs_obj = Some l →
          runtime.TryAs_Number rhs_obj = Some r →
          r ≠ 0%Z →
          (runtime.INT_MIN ≤ l ÷ r ≤ runtime.INT_MAX)%Z →
          Execute (S fuel) (Div lhs_ rhs_) s = Normal (runtime.Own (runtime.Number (l ÷ r))) s2)
  ∧ (runtime.TryAs_Number lhs_obj = None
     ∨ runtime.TryAs_Number rhs_obj = None
     ∨ runtime.TryAs_Number rhs_obj = Some 0%Z →
     Execute (S fuel) (Div lhs_ rhs_) s = Thrown Div_error s2).
Proof.
  intros Hl Hr. rewrite !Execute_S. cbn [Execute_node].
  rewrite !(bind_Normal _ _ _ _ _ Hl), !(bind_Normal _ _ _ _ _ Hr).
  split.
  - intros l r -> -> Hr0 [Hmin Hmax].
    destruct (Z.eqb_spec r 0) as [|_]; [contradiction|]. cbn [negb].
    unfold runtime.int_result.
    apply Z.leb_le in Hmin, Hmax. now rewrite Hmin, Hmax.
  - intros [-> | [-> | ->]].
    + reflexivity.
    + now destruct (runtime.TryAs_Number lhs_obj).
    + now destruct (runtime.TryAs_Number lhs_obj).
Qed.

(** C5, as it is stated, fails for the least [int] divided by -1: both
    operands hold a Number and the right one is not zero, but the quotient
    is no value of [int], and the division is undefined. *)
Lemma Div_of_INT_MIN_by_minus_one :
  let s : Closure * World :=
    (<["a" := number runtime.INT_MIN]> (<["b" := number (-1)]> ∅), empty_World) in
  Execute 1 (var "a") s = Normal (number runtime.INT_MIN) s
  ∧ Execute 1 (var "b") s = Normal (number (-1)) s
  ∧ Execute 2 (Div (var "a") (var "b")) s = Undefined.
Proof. now repeat split. Qed.

(** An instance of [Div_quotient_or_error]: 7 / 2 and -7 / 2 are 3 and -3;
    1 / 0 and 1 / "x" throw the same error. *)
Lemma Div_quotient_or_error_witness :
  let s : Closure * World :=
    (<["seven" := number 7]> (<["two" := number 2]> (<["one" := number 1]>
      (<["minus_seven" := number (-7)]> (<["zero" := number 0]>
      (<["x" := runtime.Own (runtime.String "x")]> ∅))))), empty_World) in
  Execute 2 (Div (var "seven") (var "two")) s = Normal (number 3) s
  ∧ Execute 2 (Div (var "minus_seven") (var "two")) s = Normal (number (-3)) s
  ∧ Execute 2 (Div (var "one") (var "zero")) s = Thrown Div_error s
  ∧ Execute 2 (Div (var "one") (var "x")) s = Thrown Div_error s.
Proof.
  intros s.
  assert (H7 : Execute 1 (var "seven") s = Normal (number 7) s) by (vm_compute; reflexivity).
  assert (Hm : Execute 1 (var "minus_seven") s = Normal (number (-7)) s)
    by (vm_compute; reflexivity).
  assert (H2 : Execute 1 (var "two") s = Normal (number 2) s) by (vm_compute; reflexivity).
  assert (H1 : Execute 1 (var "one") s = Normal (number 1) s) by (vm_compute; reflexivity).
  assert (H0 : Execute 1 (var "zero") s = Normal (number 0) s) by (vm_compute; reflexivity).
  assert (Hx : Execute 1 (var "x") s = Normal (runtime.Own (runtime.String "x")) s)
    by (vm_compute; reflexivity).
  split; [|split; [|split]].
  - apply (proj1 (Div_quotient_or_error 1 _ _ s _ s _ s H7 H2) 7%Z 2%Z eq_refl eq_refl);
      [discriminate | vm_compute; split; discriminate].
  - apply (proj1 (Div_quotient_or_error 1 _ _ s _ s _ s Hm H2) (-7)%Z 2%Z eq_refl eq_refl);
      [discriminate | vm_compute; split; discriminate].
  - apply (proj2 (Div_quotient_or_error 1 _ _ s _ s _ s H1 H0)).
    right; right; reflexivity.
  - apply (proj2 (Div_quotient_or_error 1 _ _ s _ s _ s H1 Hx)).
    right; left; reflexivity.
Defined.

(** *** MethodCall *)














(** *** FieldAssignment *)

(** X3.  What [FieldAssignment] does once its object has been resolved:
    for a holder that is on no ClassInstance the null typed view is
    dereferenced; for an instance the value is executed, stored in the
    fields of the instance and returned. *)
Lemma FieldAssignment_receiver fuel object_ field_name_ rv_ s obj s1 :
  VariableValue_Execute object_ s = Normal obj s1 →
  (runtime.TryAs_ClassInstance obj = None →
     Execute (S fuel) (FieldAssignment object_ field_name_ rv_) s = Undefined)
  ∧ (∀ cls this v s2 closure_,
       runtime.TryAs_ClassInstance obj = Some (cls, this) →
       Execute fuel rv_ s1 = Normal v s2 →
       runtime.instances (snd s2) !! this = Some closure_ →
       Execute (S fuel) (FieldAssignment object_ field_name_ rv_) s =
         Normal v (fst s2,
                   {| runtime.instances :=
                        <[this := <[field_name_ := v]> closure_]> (runtime.instances (snd s2));
                      runtime.output := runtime.output (snd s2);
                      runtime.instance_id := runtime.instance_id (snd s2) |})).
Proof.
  intros Ho. rewrite Execute_S. cbn [Execute_node].
  rewrite (bind_Normal _ _ _ _ _ Ho). split.
  - now intros ->.
  - intros cls this v s2 closure_ -> Hv Hc.
    rewrite (bind_Normal _ _ _ _ _ Hv).
    unfold bind, on_snd, Fields_set. now rewrite Hc.
Qed.

(** C3.  A [FieldAssignment] whose object is a Number, a String, a Bool, a
    Class or the empty holder throws no runtime error: the null result of
    [TryAs<ClassInstance>()] is dereferenced, which is undefined.  On an
    instance the field is set and the assigned holder is returned. *)
Theorem FieldAssignment_on_non_instance :
  let s := (holders, sample_World) in
  Execute 2 (assign_field "number") s = Undefined
  ∧ Execute 2 (assign_field "string") s = Undefined
  ∧ Execute 2 (assign_field "bool") s = Undefined
  ∧ Execute 2 (assign_field "class") s = Undefined
  ∧ Execute 2 (assign_field "none") s = Undefined
  ∧ Execute 2 (assign_field "obj") s =
      Normal (number 1)
             (holders,
              {| runtime.instances := [ <["f" := number 1]> ∅ ];
                 runtime.output := ""; runtime.instance_id := 1 |}).
Proof. now repeat split. Qed.

(** *** ClassInstance::Call *)

Lemma bind_params_other (n : string) formals :
  ∀ (locals : Closure) actuals,
    n ∉ formals → runtime.bind_params locals formals actuals !! n = locals !! n.
Proof.
  induction formals as [|p formals IH]; intros locals actuals Hn; [reflexivity|].
  destruct actuals as [|a actuals]; [reflexivity|]. cbn [runtime.bind_params].
  apply not_elem_of_cons in Hn as [Hne Hn].
  rewrite IH by exact Hn. now apply lookup_insert_ne.
Qed.

Lemma bind_params_last (n : string) formals :
  ∀ (locals : Closure) actuals i arg,
    formals !! i = Some n →
    (∀ j, (i < j)%nat → formals !! j ≠ Some n) →
    actuals !! i = Some arg →
    runtime.bind_params locals formals actuals !! n = Some arg.
Proof.
  induction formals as [|p formals IH]; intros locals actuals i arg Hi Hlast Ha;
    [discriminate|].
  destruct actuals as [|a actuals]; [destruct i; discriminate|].
  cbn [runtime.bind_params]. destruct i as [|i].
  - injection Hi as ->. injection Ha as ->.
    rewrite bind_params_other; [apply lookup_insert_eq|].
    intros Hin. apply list_elem_of_lookup in Hin as [j Hj].
    apply (Hlast (S j)); [lia|exact Hj].
  - apply (IH _ _ i); [exact Hi| |exact Ha].
    intros j Hj. apply (Hlast (S j)). lia.
Qed.

(** C9.  [Call] executes the body of the method in the scope
    [Call_locals], in which self is bound first and the formal parameters
    afterwards.  For a formal parameter named self (the last one, should
    there be several) the scope holds the actual argument under the name
    self; otherwise it holds a borrowing holder on the instance. *)
Theorem Call_self_parameter_overrides_receiver
    (exec : Statement → Exec ObjectHolder) cls this method actual_args p_method :
  runtime.HasMethod cls method (length actual_args) = true →
  runtime.GetMethod cls method = Some p_method →
  (∀ w, runtime.Call exec cls this method actual_args w =
          in_frame (runtime.Call_locals cls this (runtime.formal_params p_method) actual_args)
                   (exec (runtime.body p_method)) w)
  ∧ (∀ i arg,
       runtime.formal_params p_method !! i = Some "self" →
       (∀ j, (i < j)%nat → runtime.formal_params p_method !! j ≠ Some "self") →
       actual_args !! i = Some arg →
       runtime.Call_locals cls this (runtime.formal_params p_method) actual_args !! "self"
         = Some arg)
  ∧ ("self" ∉ runtime.formal_params p_method →
       runtime.Call_locals cls this (runtime.formal_params p_method) actual_args !! "self"
         = Some (runtime.Share (runtime.ClassInstance cls this))).
Proof.
  intros Hhas Hget. split; [|split].
  - intros w. unfold runtime.Call. now rewrite Hhas, Hget.
  - intros i arg Hi Hlast Ha. unfold runtime.Call_locals.
    now apply (bind_params_last "self" _ _ _ i).
  - intros Hn. unfold runtime.Call_locals.
    rewrite bind_params_other by exact Hn. apply lookup_insert_eq.
Qed.

(** An instance of [Call_self_parameter_overrides_receiver]: the method
    [get(self)] of [Sample] returns what it finds under the name self; it
    is called on the instance at address 0 with the Number 1, and returns
    the Number; [echo(o)] has no such parameter, and its scope holds the
    instance under the name self. *)
Lemma Call_self_parameter_overrides_receiver_witness :
  runtime.Call (Execute 3) Sample 0 "get" [number 1] sample_World
    = Normal (number 1) sample_World
  ∧ runtime.Call_locals Sample 0 ["self"] [number 1] !! "self" = Some (number 1)
  ∧ runtime.Call_locals Sample 0 ["o"] [number 1] !! "self"
    = Some (runtime.Share (runtime.ClassInstance Sample 0)).
Proof.
  pose (get := {| runtime.name := "get"; runtime.formal_params := ["self"];
                  runtime.body := returns "self" |} : Method).
  pose (echo := {| runtime.name := "echo"; runtime.formal_params := ["o"];
                   runtime.body := returns "o" |} : Method).
  destruct (Call_self_parameter_overrides_receiver
              (Execute 3) Sample 0 "get" [number 1] get eq_refl eq_refl) as (Hcall & Hself & _).
  destruct (Call_self_parameter_overrides_receiver
              (Execute 3) Sample 0 "echo" [number 1] echo eq_refl eq_refl) as (_ & _ & Hrecv).
  split; [|split].
  - rewrite Hcall. vm_compute. reflexivity.
  - apply (Hself 0 (number 1) eq_refl); [|reflexivity].
    intros [|j] Hj; [lia|discriminate].
  - apply Hrecv. intros Hin. apply list_elem_of_singleton in Hin. discriminate.
Defined.

(** *** The comparisons of runtime.cpp *)

Section Comparisons.
Variable exec : Statement → Exec ObjectHolder.

Lemma TryAs_ClassInstance_kind (h : ObjectHolder) cls this :
  runtime.TryAs_ClassInstance h = Some (cls, this) →
  runtime.TryAs_Bool h = None ∧ runtime.TryAs_Number h = None ∧ runtime.TryAs_String h = None.
Proof.
  unfold runtime.TryAs_ClassInstance, runtime.TryAs_Bool, runtime.TryAs_Number,
    runtime.TryAs_String.
  destruct (runtime.Get h) as [[]|]; try discriminate. now intros _.
Qed.

Lemma empty_kind (h : ObjectHolder) :
  runtime.non_empty h = false →
  runtime.TryAs_Bool h = None ∧ runtime.TryAs_Number h = None
  ∧ runtime.TryAs_String h = None ∧ runtime.TryAs_ClassInstance h = None.
Proof.
  unfold runtime.non_empty, runtime.TryAs_ClassInstance, runtime.TryAs_Bool,
    runtime.TryAs_Number, runtime.TryAs_String.
  destruct (runtime.Get h); [discriminate|]. now intros _.
Qed.

Lemma TryAs_Number_kind (h : ObjectHolder) v :
  runtime.TryAs_Number h = Some v → runtime.TryAs_Bool h = None.
Proof.
  unfold runtime.TryAs_Bool, runtime.TryAs_Number.
  destruct (runtime.Get h) as [[]|]; try discriminate. now intros _.
Qed.

Lemma TryAs_String_kind (h : ObjectHolder) v :
  runtime.TryAs_String h = Some v →
  runtime.TryAs_Bool h = None ∧ runtime.TryAs_Number h = None.
Proof.
  unfold runtime.TryAs_Bool, runtime.TryAs_Number, runtime.TryAs_String.
  destruct (runtime.Get h) as [[]|]; try discriminate. now intros _.
Qed.

Lemma Z_eqb_decide (l r : Z) : (l =? r)%Z = bool_decide (l = r).
Proof.
  destruct (Z.eqb_spec l r);
    [now rewrite bool_decide_eq_true_2 | now rewrite bool_decide_eq_false_2].
Qed.

Lemma String_eqb_decide (l r : string) : String.eqb l r = bool_decide (l = r).
Proof.
  destruct (String.eqb_spec l r);
    [now rewrite bool_decide_eq_true_2 | now rewrite bool_decide_eq_false_2].
Qed.

Lemma Bool_eqb_decide (l r : bool) : Bool.eqb l r = bool_decide (l = r).
Proof. now destruct l, r. Qed.

Lemma Equal_dispatch lhs rhs cls this w :
  runtime.TryAs_ClassInstance lhs = Some (cls, this) →
  runtime.HasMethod cls "__eq__" 1 = true →
  runtime.Equal exec lhs rhs w =
    (r <~ runtime.Call exec cls this "__eq__" [rhs] ;; runtime.unwrap_Bool r) w.
Proof.
  intros Hi Hm. destruct (TryAs_ClassInstance_kind _ _ _ Hi) as (Hb & Hn & Hs).
  unfold runtime.Equal, runtime.instance_with_method. now rewrite Hb, Hn, Hs, Hi, Hm.
Qed.

Lemma Less_dispatch lhs rhs cls this w :
  runtime.TryAs_ClassInstance lhs = Some (cls, this) →
  runtime.HasMethod cls "__lt__" 1 = true →
  runtime.Less exec lhs rhs w =
    (r <~ runtime.Call exec cls this "__lt__" [rhs] ;; runtime.unwrap_Bool r) w.
Proof.
  intros Hi Hm. destruct (TryAs_ClassInstance_kind _ _ _ Hi) as (Hb & Hn & Hs).
  unfold runtime.Less, runtime.instance_with_method. now rewrite Hb, Hn, Hs, Hi, Hm.
Qed.

(** C4.  [Equal] on two Bools, two Numbers or two Strings is the equality
    of the payloads; otherwise, on an instance whose class has [__eq__]
    with one parameter, it is the Bool that the call of [__eq__] on the
    right operand returns; otherwise it is true on two empty holders; in
    every case that remains it throws its runtime error. *)
Theorem Equal_cases lhs rhs w :
  (∀ l r, runtime.TryAs_Bool lhs = Some l → runtime.TryAs_Bool rhs = Some r →
          runtime.Equal exec lhs rhs w = Normal (bool_decide (l = r)) w)
  ∧ (∀ l r, runtime.TryAs_Number lhs = Some l → runtime.TryAs_Number rhs = Some r →
            runtime.Equal exec lhs rhs w = Normal (bool_decide (l = r)) w)
  ∧ (∀ l r, runtime.TryAs_String lhs = Some l → runtime.TryAs_String rhs = Some r →
            runtime.Equal exec lhs rhs w = Normal (bool_decide (l = r)) w)
  ∧ (∀ cls this r b w',
       runtime.TryAs_ClassInstance lhs = Some (cls, this) →
       runtime.HasMethod cls "__eq__" 1 = true →
       runtime.Call exec cls this "__eq__" [rhs] w = Normal r w' →
       runtime.TryAs_Bool r = Some b →
       runtime.Equal exec lhs rhs w = Normal b w')
  ∧ (runtime.non_empty lhs = false → runtime.non_empty rhs = false →
       runtime.Equal exec lhs rhs w = Normal true w)
  ∧ (same_kind lhs rhs = false →
     runtime.instance_with_method lhs "__eq__" 1 = None →
     runtime.non_empty lhs = true ∨ runtime.non_empty rhs = true →
     runtime.Equal exec lhs rhs w = Thrown Equal_error w).
Proof.
  repeat apply conj.
  - intros l r Hl Hr. unfold runtime.Equal.
    now rewrite Hl, Hr, Bool_eqb_decide.
  - intros l r Hl Hr. unfold runtime.Equal.
    now rewrite (TryAs_Number_kind _ _ Hl), Hl, Hr, Z_eqb_decide.
  - intros l r Hl Hr. unfold runtime.Equal.
    destruct (TryAs_String_kind _ _ Hl) as [Hb Hn].
    now rewrite Hb, Hn, Hl, Hr, String_eqb_decide.
  - intros cls this r b w' Hi Hm Hc Hb.
    rewrite (Equal_dispatch _ _ _ _ _ Hi Hm), (bind_Normal _ _ _ _ _ Hc).
    unfold runtime.unwrap_Bool. now rewrite Hb.
  - intros Hl Hr.
    destruct (empty_kind _ Hl) as (Hb & Hn & Hs & Hi).
    unfold runtime.Equal, runtime.instance_with_method.
    now rewrite Hb, Hn, Hs, Hi, Hl, Hr.
  - intros Hk Hi Hne. unfold runtime.Equal. unfold same_kind in Hk. rewrite Hi.
    destruct (runtime.TryAs_Bool lhs), (runtime.TryAs_Bool rhs); try discriminate;
      destruct (runtime.TryAs_Number lhs), (runtime.TryAs_Number rhs); try discriminate;
      destruct (runtime.TryAs_String lhs), (runtime.TryAs_String rhs); try discriminate;
      destruct Hne as [-> | ->]; try reflexivity; now rewrite andb_false_r.
Qed.

(** C8.  [NotEqual] is the negation of [Equal]; [GreaterOrEqual] is the
    negation of [Less]; [Greater] is the negation of [Less] and
    [NotEqual], which is called after [Less], and only when [Less] gave
    false; [LessOrEqual] is the negation of [Greater]. *)
Theorem derived_comparisons lhs rhs w :
  (∀ e w', runtime.Equal exec lhs rhs w = Normal e w' →
           runtime.NotEqual exec lhs rhs w = Normal (negb e) w')
  ∧ (∀ l w1 n w2,
       runtime.Less exec lhs rhs w = Normal l w1 →
       runtime.NotEqual exec lhs rhs w1 = Normal n w2 →
       runtime.Greater exec lhs rhs w = Normal (negb l && n) (if l then w1 else w2))
  ∧ (∀ g w', runtime.Greater exec lhs rhs w = Normal g w' →
             runtime.LessOrEqual exec lhs rhs w = Normal (negb g) w')
  ∧ (∀ l w', runtime.Less exec lhs rhs w = Normal l w' →
             runtime.GreaterOrEqual exec lhs rhs w = Normal (negb l) w').
Proof.
  repeat apply conj.
  - intros e w' H. unfold runtime.NotEqual. now rewrite (bind_Normal _ _ _ _ _ H).
  - intros l w1 n w2 Hl Hn. unfold runtime.Greater. rewrite (bind_Normal _ _ _ _ _ Hl).
    destruct l; [reflexivity|]. exact Hn.
  - intros g w' H. unfold runtime.LessOrEqual. now rewrite (bind_Normal _ _ _ _ _ H).
  - intros l w' H. unfold runtime.GreaterOrEqual. now rewrite (bind_Normal _ _ _ _ _ H).
Qed.

(** C10.  On an instance whose class has [__eq__] (for [Less]: [__lt__])
    with one parameter, [Equal] returns the Bool that the holder returned
    by the call is on; when that holder is empty or on another kind of
    object, the behaviour is undefined, and the runtime error of the last
    branch is not thrown.  [Equal] and [Less] return normally only in the
    first case. *)
Theorem dunder_result_is_unwrapped_unchecked lhs rhs cls this w :
  runtime.TryAs_ClassInstance lhs = Some (cls, this) →
  (runtime.HasMethod cls "__eq__" 1 = true →
     (∀ r w', runtime.Call exec cls this "__eq__" [rhs] w = Normal r w' →
        runtime.Equal exec lhs rhs w =
          match runtime.TryAs_Bool r with
          | Some b => Normal b w'
          | None => Undefined
          end)
     ∧ (∀ b w', runtime.Equal exec lhs rhs w = Normal b w' →
          ∃ r, runtime.Call exec cls this "__eq__" [rhs] w = Normal r w'
               ∧ runtime.TryAs_Bool r = Some b))
  ∧ (runtime.HasMethod cls "__lt__" 1 = true →
     (∀ r w', runtime.Call exec cls this "__lt__" [rhs] w = Normal r w' →
        runtime.Less exec lhs rhs w =
          match runtime.TryAs_Bool r with
          | Some b => Normal b w'
          | None => Undefined
          end)
     ∧ (∀ b w', runtime.Less exec lhs rhs w = Normal b w' →
          ∃ r, runtime.Call exec cls this "__lt__" [rhs] w = Normal r w'
               ∧ runtime.TryAs_Bool r = Some b)).
Proof.
  intros Hi. split; intros Hm.
  - rewrite (Equal_dispatch _ _ _ _ _ Hi Hm). split.
    + intros r w' Hc. rewrite (bind_Normal _ _ _ _ _ Hc).
      unfold runtime.unwrap_Bool. now destruct (runtime.TryAs_Bool r).
    + intros b w'. unfold bind.
      destruct (runtime.Call exec cls this "__eq__" [rhs] w) as [r w1| | |]; try discriminate.
      unfold runtime.unwrap_Bool. destruct (runtime.TryAs_Bool r) as [b'|] eqn:Hb;
        [|discriminate].
      intros [= -> ->]. now exists r.
  - rewrite (Less_dispatch _ _ _ _ _ Hi Hm). split.
    + intros r w' Hc. rewrite (bind_Normal _ _ _ _ _ Hc).
      unfold runtime.unwrap_Bool. now destruct (runtime.TryAs_Bool r).
    + intros b w'. unfold bind.
      destruct (runtime.Call exec cls this "__lt__" [rhs] w) as [r w1| | |]; try discriminate.
      unfold runtime.unwrap_Bool. destruct (runtime.TryAs_Bool r) as [b'|] eqn:Hb;
        [|discriminate].
      intros [= -> ->]. now exists r.
Qed.

End Comparisons.

(** Instances of [Equal_cases], one for each case; [__eq__] of [Sample]
    returns its argument. *)
Lemma Equal_cases_witness :
  let Equal := runtime.Equal (Execute 3) in
  Equal (boolean true) (boolean false) sample_World = Normal false sample_World
  ∧ Equal (number 2) (number 2) sample_World = Normal true sample_World
  ∧ Equal (text "a") (text "b") sample_World = Normal false sample_World
  ∧ Equal sample_instance (boolean true) sample_World = Normal true sample_World
  ∧ Equal runtime.None_ runtime.None_ sample_World = Normal true sample_World
  ∧ Equal (number 2) (text "2") sample_World = Thrown Equal_error sample_World
  ∧ Equal runtime.None_ (number 0) sample_World = Thrown Equal_error sample_World.
Proof.
  intros Equal. unfold Equal. repeat apply conj.
  - apply (proj1 (Equal_cases (Execute 3) (boolean true) (boolean false) sample_World)
             true false eq_refl eq_refl).
  - apply (proj1 (proj2 (Equal_cases (Execute 3) (number 2) (number 2) sample_World))
             2%Z 2%Z eq_refl eq_refl).
  - apply (proj1 (proj2 (proj2 (Equal_cases (Execute 3) (text "a") (text "b") sample_World)))
             "a" "b" eq_refl eq_refl).
  - apply (proj1 (proj2 (proj2 (proj2
             (Equal_cases (Execute 3) sample_instance (boolean true) sample_World))))
             Sample 0 (boolean true) true sample_World eq_refl eq_refl);
      [vm_compute; reflexivity | reflexivity].
  - apply (proj1 (proj2 (proj2 (proj2 (proj2
             (Equal_cases (Execute 3) runtime.None_ runtime.None_ sample_World)))))
             eq_refl eq_refl).
  - apply (proj2 (proj2 (proj2 (proj2 (proj2
             (Equal_cases (Execute 3) (number 2) (text "2") sample_World)))))
             eq_refl eq_refl).
    now left.
  - apply (proj2 (proj2 (proj2 (proj2 (proj2
             (Equal_cases (Execute 3) runtime.None_ (number 0) sample_World)))))
             eq_refl eq_refl).
    now right.
Defined.

(** Instances of [derived_comparisons], for 1 and 2 and for 2 and 2. *)
Lemma derived_comparisons_witness :
  let w := sample_World in
  runtime.NotEqual (Execute 1) (number 1) (number 2) w = Normal true w
  ∧ runtime.Greater (Execute 1) (number 1) (number 2) w = Normal false w
  ∧ runtime.Greater (Execute 1) (number 2) (number 1) w = Normal true w
  ∧ runtime.LessOrEqual (Execute 1) (number 2) (number 2) w = Normal true w
  ∧ runtime.GreaterOrEqual (Execute 1) (number 2) (number 2) w = Normal true w.
Proof.
  intros w.
  destruct (derived_comparisons (Execute 1) (number 1) (number 2) w) as (Hne & Hgt & _ & _).
  destruct (derived_comparisons (Execute 1) (number 2) (number 1) w) as (_ & Hgt' & _ & _).
  destruct (derived_comparisons (Execute 1) (number 2) (number 2) w) as (_ & Hgt2 & Hle & Hge).
  repeat apply conj.
  - apply (Hne false w eq_refl).
  - apply (Hgt true w true w eq_refl eq_refl).
  - apply (Hgt' false w true w eq_refl eq_refl).
  - apply (Hle false w). apply (Hgt2 false w false w eq_refl eq_refl).
  - apply (Hge false w eq_refl).
Defined.

(** Instances of [dunder_result_is_unwrapped_unchecked]: [__eq__] and
    [__lt__] of [Sample] return their argument; on a Bool the comparison
    returns it, on a Number or on the empty holder it is undefined. *)
Lemma dunder_result_is_unwrapped_unchecked_witness :
  let w := sample_World in
  runtime.Equal (Execute 3) sample_instance (boolean false) w = Normal false w
  ∧ runtime.Equal (Execute 3) sample_instance (number 1) w = Undefined
  ∧ runtime.Equal (Execute 3) sample_instance runtime.None_ w = Undefined
  ∧ runtime.Less (Execute 3) sample_instance (boolean true) w = Normal true w
  ∧ runtime.Less (Execute 3) sample_instance (text "s") w = Undefined.
Proof.
  intros w.
  assert (Hcall : ∀ method arg, method = "__eq__" ∨ method = "__lt__" →
            runtime.Call (Execute 3) Sample 0 method [arg] w = Normal arg w).
  { intros method arg [-> | ->]; reflexivity. }
  repeat apply conj.
  - apply (proj1 (proj1 (dunder_result_is_unwrapped_unchecked
                           (Execute 3) sample_instance (boolean false) Sample 0 w eq_refl)
                        eq_refl) (boolean false) w).
    apply Hcall. now left.
  - apply (proj1 (proj1 (dunder_result_is_unwrapped_unchecked
                           (Execute 3) sample_instance (number 1) Sample 0 w eq_refl)
                        eq_refl) (number 1) w).
    apply Hcall. now left.
  - apply (proj1 (proj1 (dunder_result_is_unwrapped_unchecked
                           (Execute 3) sample_instance runtime.None_ Sample 0 w eq_refl)
                        eq_refl) runtime.None_ w).
    apply Hcall. now left.
  - apply (proj1 (proj2 (dunder_result_is_unwrapped_unchecked
                           (Execute 3) sample_instance (boolean true) Sample 0 w eq_refl)
                        eq_refl) (boolean true) w).
    apply Hcall. now right.
  - apply (proj1 (proj2 (dunder_result_is_unwrapped_unchecked
                           (Execute 3) sample_instance (text "s") Sample 0 w eq_refl)
                        eq_refl) (text "s") w).
    apply Hcall. now right.
Defined.

(** An instance of [FieldAssignment_receiver]: [obj.f = number] on the
    instance at address 0. *)
Lemma FieldAssignment_receiver_witness :
  Execute 2 (assign_field "obj") (holders, sample_World) =
    Normal (number 1)
           (holders,
            {| runtime.instances := [ <["f" := number 1]> ∅ ];
               runtime.output := ""; runtime.instance_id := 1 |}).
Proof.
  apply (proj2 (FieldAssignment_receiver 1 {| name_ := "obj"; dotted_ids_ := [] |} "f"
                  (var "number") (holders, sample_World) sample_instance
                  (holders, sample_World) eq_refl)
               Sample 0 (number 1) (holders, sample_World) ∅ eq_refl eq_refl eq_refl).
Defined.

(** *** IsTrue and GetMethod *)

(** X4.  [IsTrue] of a holder: false for the empty holder, for zero, for
    the empty string, for a class and for an instance; the payload for a
    Bool; true for the other Numbers and Strings. *)
Theorem IsTrue_cases (h : ObjectHolder) :
  runtime.IsTrue h =
    match runtime.Get h with
    | None => false
    | Some (runtime.Number v) => negb (bool_decide (v = 0%Z))
    | Some (runtime.String v) => negb (bool_decide (v = ""))
    | Some (runtime.Bool v) => v
    | Some (runtime.ClassObject _) => false
    | Some (runtime.ClassInstance _ _) => false
    end.
Proof.
  destruct h as [|[]|[]]; cbn;
    rewrite <- ?Z_eqb_decide, <- ?String_eqb_decide; reflexivity.
Qed.

Lemma indexed_method_name (methods : list Method) n m :
  runtime.indexed_method methods n = Some m → runtime.name m = n.
Proof.
  induction methods as [|m' methods IH]; [discriminate|].
  cbn [runtime.indexed_method].
  destruct (runtime.indexed_method methods n); [exact IH|].
  destruct (String.eqb_spec (runtime.name m') n); [|discriminate].
  now intros [= <-].
Qed.

(** X5.  [GetMethod] looks the name up in the class's own methods, then in
    the parent's, and so on: a method of the class hides the one of the
    parent, a name that the class does not have is resolved as in the
    parent, and a method that is found has the name that was asked for. *)
Theorem GetMethod_resolution (n : string) :
  ∀ c : Class,
    (∀ m, runtime.indexed_method (runtime.methods_ c) n = Some m →
          runtime.GetMethod c n = Some m)
    ∧ (runtime.indexed_method (runtime.methods_ c) n = None →
         runtime.GetMethod c n =
           match runtime.parent_ c with
           | Some parent => runtime.GetMethod parent n
           | None => None
           end)
    ∧ (∀ m, runtime.GetMethod c n = Some m → runtime.name m = n).
Proof.
  fix IH 1. intros [name_ methods parent]. cbn [runtime.methods_ runtime.parent_].
  split; [|split].
  - intros m Hm. cbn [runtime.GetMethod]. now rewrite Hm.
  - intros Hm. cbn [runtime.GetMethod]. now rewrite Hm.
  - intros m. cbn [runtime.GetMethod].
    destruct (runtime.indexed_method methods n) as [m'|] eqn:Hm.
    + intros [= <-]. exact (indexed_method_name _ _ _ Hm).
    + destruct parent as [p|]; [|discriminate]. apply (IH p).
Qed.

(** ** More on the nodes and on the runtime *)

Section OrderComparisons.
Variable exec : Statement → Exec ObjectHolder.

Lemma String_ltb_lexicographic l r : String.ltb l r = true ↔ lexicographic l r.
Proof.
  unfold String.ltb. revert r. induction l as [|c l IH]; intros [|d r]; cbn.
  - split; [discriminate|inversion 1].
  - split; [constructor|reflexivity].
  - split; [discriminate|inversion 1].
  - unfold Ascii.compare. rewrite N.compare_antisym.
    destruct (N.compare_spec (N_of_ascii d) (N_of_ascii c)) as [E|E|E]; cbn.
    + apply (f_equal ascii_of_N) in E. rewrite !ascii_N_embedding in E. subst d.
      rewrite IH. split; [now constructor|].
      inversion 1; subst; [lia|assumption].
    + split; [discriminate|]. inversion 1; subst; [lia|lia].
    + split; [now constructor|reflexivity].
Qed.

Lemma Z_ltb_decide (l r : Z) : (l <? r)%Z = bool_decide (l < r)%Z.
Proof.
  destruct (Z.ltb_spec l r);
    [now rewrite bool_decide_eq_true_2 | rewrite bool_decide_eq_false_2; [reflexivity|lia]].
Qed.

(** X18.  [Less] on two Bools is "false before true"; on two Numbers the
    order of the integers; on two Strings the order of [std::string];
    otherwise, on an instance whose class has [__lt__] with one parameter,
    the Bool that the call of [__lt__] on the right operand returns; in
    every case that remains, two empty holders among them, it throws its
    runtime error. *)
Theorem Less_cases lhs rhs w :
  (∀ l r, runtime.TryAs_Bool lhs = Some l → runtime.TryAs_Bool rhs = Some r →
          runtime.Less exec lhs rhs w = Normal (bool_decide (l = false ∧ r = true)) w)
  ∧ (∀ l r, runtime.TryAs_Number lhs = Some l → runtime.TryAs_Number rhs = Some r →
            runtime.Less exec lhs rhs w = Normal (bool_decide (l < r)%Z) w)
  ∧ (∀ l r, runtime.TryAs_String lhs = Some l → runtime.TryAs_String rhs = Some r →
            ∃ b, runtime.Less exec lhs rhs w = Normal b w ∧ (b = true ↔ lexicographic l r))
  ∧ (∀ cls this r b w',
       runtime.TryAs_ClassInstance lhs = Some (cls, this) →
       runtime.HasMethod cls "__lt__" 1 = true →
       runtime.Call exec cls this "__lt__" [rhs] w = Normal r w' →
       runtime.TryAs_Bool r = Some b →
       runtime.Less exec lhs rhs w = Normal b w')
  ∧ (same_kind lhs rhs = false →
     runtime.instance_with_method lhs "__lt__" 1 = None →
     runtime.Less exec lhs rhs w = Thrown Less_error w).
Proof.
  repeat apply conj.
  - intros l r Hl Hr. unfold runtime.Less. rewrite Hl, Hr. now destruct l, r.
  - intros l r Hl Hr. unfold runtime.Less.
    now rewrite (TryAs_Number_kind _ _ Hl), Hl, Hr, Z_ltb_decide.
  - intros l r Hl Hr. unfold runtime.Less.
    destruct (TryAs_String_kind _ _ Hl) as [Hb Hn].
    rewrite Hb, Hn, Hl, Hr. eexists. split; [reflexivity|]. apply String_ltb_lexicographic.
  - intros cls this r b w' Hi Hm Hc Hb.
    rewrite (Less_dispatch _ _ _ _ _ _ Hi Hm), (bind_Normal _ _ _ _ _ Hc).
    unfold runtime.unwrap_Bool. now rewrite Hb.
  - intros Hk Hi. unfold runtime.Less. unfold same_kind in Hk. rewrite Hi.
    destruct (runtime.TryAs_Bool lhs), (runtime.TryAs_Bool rhs); try discriminate;
      destruct (runtime.TryAs_Number lhs), (runtime.TryAs_Number rhs); try discriminate;
      destruct (runtime.TryAs_String lhs), (runtime.TryAs_String rhs); try discriminate;
      reflexivity.
Qed.

Lemma comparator_on_Numbers cmp lhs rhs l r w :
  runtime.TryAs_Number lhs = Some l → runtime.TryAs_Number rhs = Some r →
  comparator exec cmp lhs rhs w = Normal (relation_on_Z cmp l r) w.
Proof.
  intros Hl Hr.
  assert (HE : runtime.Equal exec lhs rhs w = Normal (l =? r)%Z w).
  { unfold runtime.Equal. now rewrite (TryAs_Number_kind _ _ Hl), Hl, Hr. }
  assert (HL : runtime.Less exec lhs rhs w = Normal (l <? r)%Z w).
  { unfold runtime.Less. now rewrite (TryAs_Number_kind _ _ Hl), Hl, Hr. }
  assert (HN : runtime.NotEqual exec lhs rhs w = Normal (negb (l =? r)%Z) w).
  { unfold runtime.NotEqual. now rewrite (bind_Normal _ _ _ _ _ HE). }
  assert (HG : runtime.Greater exec lhs rhs w = Normal (r <? l)%Z w).
  { unfold runtime.Greater. rewrite (bind_Normal _ _ _ _ _ HL).
    destruct (Z.ltb_spec l r) as [H|H]; cbn [negb].
    - cbn. f_equal. symmetry. apply Z.ltb_ge. lia.
    - rewrite HN. f_equal.
      destruct (Z.eqb_spec l r), (Z.ltb_spec r l); cbn; try reflexivity; lia. }
  destruct cmp; cbn [comparator relation_on_Z].
  - now rewrite HE, Z_eqb_decide.
  - now rewrite HL, Z_ltb_decide.
  - rewrite HN. f_equal. rewrite Z_eqb_decide. symmetry. apply bool_decide_not.
  - now rewrite HG, Z_ltb_decide.
  - unfold runtime.LessOrEqual. rewrite (bind_Normal _ _ _ _ _ HG). cbn. f_equal.
    destruct (Z.ltb_spec r l);
      [rewrite bool_decide_eq_false_2 by lia | rewrite bool_decide_eq_true_2 by lia]; done.
  - unfold runtime.GreaterOrEqual. rewrite (bind_Normal _ _ _ _ _ HL). cbn. f_equal.
    destruct (Z.ltb_spec l r);
      [rewrite bool_decide_eq_false_2 by lia | rewrite bool_decide_eq_true_2 by lia]; done.
Qed.

End OrderComparisons.

(** X19.  On two Numbers the six comparators are the six relations of the
    integers: a [Comparison] node whose operands give the Numbers [l] and
    [r] returns an owning Bool holder of that relation between [l] and [r],
    and leaves the state that its right operand leaves. *)
Theorem Comparison_on_Numbers fuel cmp lhs_ rhs_ s lhs_obj s1 rhs_obj s2 l r :
  Execute fuel lhs_ s = Normal lhs_obj s1 →
  Execute fuel rhs_ s1 = Normal rhs_obj s2 →
  runtime.TryAs_Number lhs_obj = Some l →
  runtime.TryAs_Number rhs_obj = Some r →
  Execute (S fuel) (Comparison cmp lhs_ rhs_) s
    = Normal (runtime.Own (runtime.Bool (relation_on_Z cmp l r))) s2.
Proof.
  intros Hl Hr Hln Hrn. rewrite Execute_S. cbn [Execute_node].
  rewrite (bind_Normal _ _ _ _ _ Hl), (bind_Normal _ _ _ _ _ Hr).
  unfold bind, on_snd. rewrite (comparator_on_Numbers _ cmp _ _ _ _ _ Hln Hrn).
  now destruct s2.
Qed.

(** An instance of [Comparison_on_Numbers]: 3 > 2, and not 3 <= 2. *)
Lemma Comparison_on_Numbers_witness :
  let s := (numbers, empty_World) in
  Execute 2 (Comparison Greater (var "three") (var "two")) s = Normal (boolean true) s
  ∧ Execute 2 (Comparison LessOrEqual (var "three") (var "two")) s = Normal (boolean false) s.
Proof.
  intros s.
  assert (H2 : Execute 1 (var "two") s = Normal (number 2) s) by (vm_compute; reflexivity).
  assert (H3 : Execute 1 (var "three") s = Normal (number 3) s) by (vm_compute; reflexivity).
  split.
  - exact (Comparison_on_Numbers 1 Greater _ _ s _ s _ s 3 2 H3 H2 eq_refl eq_refl).
  - exact (Comparison_on_Numbers 1 LessOrEqual _ _ s _ s _ s 3 2 H3 H2 eq_refl eq_refl).
Defined.


Lemma int_result_outcome (v : Z) (s : Closure * World) :
  (x <~ runtime.int_result v ;; ret (runtime.Own (runtime.Number x))) s = int_outcome v s.
Proof.
  unfold int_outcome, runtime.int_result, bind, ret, undefined.
  destruct (Z.leb_spec runtime.INT_MIN v), (Z.leb_spec v runtime.INT_MAX); cbn [andb];
    [rewrite bool_decide_eq_true_2 by lia | rewrite bool_decide_eq_false_2 by lia ..];
    reflexivity.
Qed.

(** X20.  [Add], [Sub] and [Mult] on two Numbers give an owning holder of
    the sum, of the difference, of the product, when that is a value of
    [int]; the operation on [int] overflows otherwise, and the behaviour is
    undefined. [Add] on two Strings is their concatenation; on an instance
    whose class has [__add__] with one parameter, and any right operand, it
    is the call of [__add__]; on other operands it throws. [Sub] and [Mult]
    throw on every pair of operands that are not two Numbers: no method of
    an instance is called for them. *)
Theorem Add_Sub_Mult_cases fuel lhs_ rhs_ s lhs_obj s1 rhs_obj s2 :
  Execute fuel lhs_ s = Normal lhs_obj s1 →
  Execute fuel rhs_ s1 = Normal rhs_obj s2 →
  (∀ l r, runtime.TryAs_Number lhs_obj = Some l → runtime.TryAs_Number rhs_obj = Some r →
     Execute (S fuel) (Add lhs_ rhs_) s = int_outcome (l + r) s2
     ∧ Execute (S fuel) (Sub lhs_ rhs_) s = int_outcome (l - r) s2
     ∧ Execute (S fuel) (Mult lhs_ rhs_) s = int_outcome (l * r) s2)
  ∧ (∀ l r, runtime.TryAs_String lhs_obj = Some l → runtime.TryAs_String rhs_obj = Some r →
       Execute (S fuel) (Add lhs_ rhs_) s
         = Normal (runtime.Own (runtime.String (String.append l r))) s2)
  ∧ (∀ cls this,
       runtime.TryAs_ClassInstance lhs_obj = Some (cls, this) →
       runtime.HasMethod cls "__add__" 1 = true →
       Execute (S fuel) (Add lhs_ rhs_) s
         = on_snd (runtime.Call (Execute fuel) cls this "__add__" [rhs_obj]) s2)
  ∧ (runtime.TryAs_String lhs_obj = None ∨ runtime.TryAs_String rhs_obj = None →
     runtime.TryAs_Number lhs_obj = None ∨ runtime.TryAs_Number rhs_obj = None →
     runtime.instance_with_method lhs_obj "__add__" 1 = None →
     Execute (S fuel) (Add lhs_ rhs_) s = Thrown Add_error s2)
  ∧ (runtime.TryAs_Number lhs_obj = None ∨ runtime.TryAs_Number rhs_obj = None →
     Execute (S fuel) (Sub lhs_ rhs_) s = Thrown Sub_error s2
     ∧ Execute (S fuel) (Mult lhs_ rhs_) s = Thrown Mult_error s2).
Proof.
  intros Hl Hr. rewrite !Execute_S. cbn [Execute_node].
  rewrite !(bind_Normal _ _ _ _ _ Hl), !(bind_Normal _ _ _ _ _ Hr).
  repeat apply conj.
  - intros l r Hln Hrn. rewrite Hln, Hrn.
    assert (Hs : runtime.TryAs_String lhs_obj = None).
    { unfold runtime.TryAs_String, runtime.TryAs_Number in *.
      destruct (runtime.Get lhs_obj) as [[]|]; done. }
    rewrite Hs. repeat split; apply int_result_outcome.
  - now intros l r -> ->.
  - intros cls this Hi Hm.
    destruct (TryAs_ClassInstance_kind _ _ _ Hi) as (_ & Hn & Hs).
    unfold runtime.instance_with_method, ADD_METHOD. now rewrite Hn, Hs, Hi, Hm.
  - intros Hs Hn Hi. unfold ADD_METHOD. rewrite Hi.
    destruct Hs as [-> | ->], Hn as [-> | ->];
      repeat match goal with
             | |- context [match ?x with _ => _ end] => destruct x
             end; reflexivity.
  - intros [-> | ->]; split; try reflexivity; now destruct (runtime.TryAs_Number lhs_obj).
Qed.

(** An instance of [Add_Sub_Mult_cases]: 1 + 1; the greatest [int] + 1; two
    Strings; a String and a Number. *)
Lemma Add_Sub_Mult_cases_witness :
  let s := (operands, empty_World) in
  Execute 2 (Add (var "one") (var "one")) s = Normal (number 2) s
  ∧ Execute 2 (Add (var "max") (var "one")) s = Undefined
  ∧ Execute 2 (Add (var "a") (var "b")) s = Normal (text "ab") s
  ∧ Execute 2 (Add (var "a") (var "one")) s = Thrown Add_error s
  ∧ Execute 2 (Mult (var "a") (var "one")) s = Thrown Mult_error s.
Proof.
  intros s.
  assert (H1 : Execute 1 (var "one") s = Normal (number 1) s) by (vm_compute; reflexivity).
  assert (Hm : Execute 1 (var "max") s = Normal (number runtime.INT_MAX) s)
    by (vm_compute; reflexivity).
  assert (Ha : Execute 1 (var "a") s = Normal (text "a") s) by (vm_compute; reflexivity).
  assert (Hb : Execute 1 (var "b") s = Normal (text "b") s) by (vm_compute; reflexivity).
  split; [|split; [|split; [|split]]].
  - exact (proj1 (proj1 (Add_Sub_Mult_cases 1 _ _ s _ s _ s H1 H1) 1%Z 1%Z eq_refl eq_refl)).
  - exact (proj1 (proj1 (Add_Sub_Mult_cases 1 _ _ s _ s _ s Hm H1)
                        runtime.INT_MAX 1%Z eq_refl eq_refl)).
  - exact (proj1 (proj2 (Add_Sub_Mult_cases 1 _ _ s _ s _ s Ha Hb)) "a" "b" eq_refl eq_refl).
  - exact (proj1 (proj2 (proj2 (proj2 (Add_Sub_Mult_cases 1 _ _ s _ s _ s Ha H1))))
                 (or_intror eq_refl) (or_introl eq_refl) eq_refl).
  - exact (proj2 (proj2 (proj2 (proj2 (proj2 (Add_Sub_Mult_cases 1 _ _ s _ s _ s Ha H1))))
                        (or_introl eq_refl))).
Defined.

(** *** Assignment and lookup *)

(** X21.  An [Assignment] binds the name to the holder that its right-hand
    side gives, in the closure that the right-hand side leaves, and returns
    the holder; a [VariableValue] of this name then gives this holder, and
    one of another name what it gave before. The empty name is an exception:
    it can be bound, but a [VariableValue] of the empty name throws. *)
Theorem Assignment_then_VariableValue fuel name rv s v s1 :
  Execute fuel rv s = Normal v s1 →
  let s2 := (<[name := v]> (fst s1), snd s1) in
  Execute (S fuel) (Assignment name rv) s = Normal v s2
  ∧ (name ≠ "" → Execute 1 (var name) s2 = Normal v s2)
  ∧ (∀ other, other ≠ name → other ≠ "" →
       Execute 1 (var other) s2 =
         match fst s1 !! other with
         | Some h => Normal h s2
         | None => Thrown (Unknown_variable other) s2
         end)
  ∧ Execute 1 (var "") s2 = Thrown (runtime.runtime_error "Unknown variable") s2.
Proof.
  intros Hrv s2. rewrite Execute_S. cbn [Execute_node].
  rewrite (bind_Normal _ _ _ _ _ Hrv).
  split; [reflexivity|]. cbn [Execute Execute_node var]. unfold VariableValue_Execute.
  cbn [ast.name_ dotted_ids_].
  repeat apply conj.
  - intros Hne. destruct (String.eqb_spec name ""); [done|]. cbn [negb].
    unfold s2. cbn [fst]. now rewrite lookup_insert_eq.
  - intros other Hother Hne. destruct (String.eqb_spec other ""); [done|]. cbn [negb].
    unfold s2. cbn [fst]. now rewrite lookup_insert_ne.
  - reflexivity.
Qed.

(** An instance of [Assignment_then_VariableValue]: [x = three], then [x]. *)
Lemma Assignment_then_VariableValue_witness :
  let s := (numbers, empty_World) in
  let s2 := (<["x" := number 3]> numbers, empty_World) in
  Execute 2 (Assignment "x" (var "three")) s = Normal (number 3) s2
  ∧ Execute 1 (var "x") s2 = Normal (number 3) s2.
Proof.
  intros s s2.
  assert (H3 : Execute 1 (var "three") s = Normal (number 3) s) by (vm_compute; reflexivity).
  destruct (Assignment_then_VariableValue 1 "x" (var "three") s _ s H3) as (HA & HV & _).
  split; [exact HA|]. apply HV. discriminate.
Defined.


Lemma VariableValue_Execute_state v s r s1 :
  VariableValue_Execute v s = Normal r s1 → s1 = s.
Proof.
  unfold VariableValue_Execute.
  destruct (negb _).
  - destruct (_ !! _); [now intros [= _ <-]|discriminate].
  - destruct (dotted_ids_ v); [discriminate|].
    destruct (walk_dotted_ids _ _ _); try discriminate. now intros [= _ <-].
Qed.

(** X22.  After a [FieldAssignment] the field is read through every holder
    of the same object, whatever the name under which the closure has it,
    and whether the holder owns the object or borrows it; the other fields
    of the object are as they were. *)
Theorem FieldAssignment_then_field_lookup fuel object_ field_name_ rv_ s obj s1 cls this v s2 closure_ :
  VariableValue_Execute object_ s = Normal obj s1 →
  runtime.TryAs_ClassInstance obj = Some (cls, this) →
  Execute fuel rv_ s1 = Normal v s2 →
  runtime.instances (snd s2) !! this = Some closure_ →
  let s3 := (fst s2,
             {| runtime.instances :=
                  <[this := <[field_name_ := v]> closure_]> (runtime.instances (snd s2));
                runtime.output := runtime.output (snd s2);
                runtime.instance_id := runtime.instance_id (snd s2) |}) in
  Execute (S fuel) (FieldAssignment object_ field_name_ rv_) s = Normal v s3
  ∧ ∀ name h cls',
      fst s2 !! name = Some h →
      runtime.TryAs_ClassInstance h = Some (cls', this) →
      Execute 1 (dotted [name; field_name_]) s3 = Normal v s3
      ∧ ∀ other, other ≠ field_name_ →
          Execute 1 (dotted [name; other]) s3 =
            match closure_ !! other with
            | Some h' => Normal h' s3
            | None => Thrown (Unknown_variable other) s3
            end.
Proof.
  intros Hobj Hi Hrv Hthis s3. split.
  - rewrite Execute_S. cbn [Execute_node].
    rewrite (bind_Normal _ _ _ _ _ Hobj), Hi, (bind_Normal _ _ _ _ _ Hrv).
    unfold bind, on_snd, Fields_set. rewrite Hthis. reflexivity.
  - intros name h cls' Hname Hh.
    assert (Hlk : runtime.instances (snd s3) !! this = Some (<[field_name_ := v]> closure_)).
    { unfold s3. cbn [snd runtime.instances]. apply list_lookup_insert_eq.
      exact (lookup_lt_Some _ _ _ Hthis). }
    assert (Hwalk : ∀ f, Execute 1 (dotted [name; f]) s3 =
              match <[field_name_ := v]> closure_ !! f with
              | Some h' => Normal h' s3
              | None => Thrown (Unknown_variable f) s3
              end).
    { intros f. cbn [Execute Execute_node dotted]. unfold VariableValue_Execute.
      cbn [ast.name_ dotted_ids_ String.eqb negb walk_dotted_ids].
      replace (fst s3) with (fst s2) by reflexivity.
      rewrite Hname, Hh, Hlk. now destruct (_ !! f). }
    split.
    + now rewrite Hwalk, lookup_insert_eq.
    + intros other Hother. now rewrite Hwalk, lookup_insert_ne.
Qed.

(** An instance of [FieldAssignment_then_field_lookup]: the field is set
    through the borrowing holder [self] and read through the owning holder
    [obj] of the same object. *)
Lemma FieldAssignment_then_field_lookup_witness :
  let s : Closure * World :=
    (<["self" := runtime.Share (runtime.ClassInstance Sample 0)]> holders, sample_World) in
  let s3 : Closure * World :=
    (fst s, {| runtime.instances := [ <["f" := number 1]> ∅ ];
               runtime.output := ""; runtime.instance_id := 1 |}) in
  Execute 2 (assign_field "self") s = Normal (number 1) s3
  ∧ Execute 1 (dotted ["obj"; "f"]) s3 = Normal (number 1) s3.
Proof.
  intros s s3.
  assert (Ho : VariableValue_Execute {| name_ := "self"; dotted_ids_ := [] |} s
               = Normal (runtime.Share (runtime.ClassInstance Sample 0)) s)
    by (vm_compute; reflexivity).
  assert (Hn : Execute 1 (var "number") s = Normal (number 1) s) by (vm_compute; reflexivity).
  destruct (FieldAssignment_then_field_lookup 1 _ "f" (var "number") s _ s Sample 0 _ s ∅
              Ho eq_refl Hn eq_refl) as [HF HL].
  split; [exact HF|].
  exact (proj1 (HL "obj" sample_instance Sample ltac:(vm_compute; reflexivity) eq_refl)).
Defined.

(** *** Compound, Return and MethodBody *)

Lemma Compound_loop_app (exec : Statement → Exec ObjectHolder) xs ys st :
  Compound_loop exec (xs ++ ys) st = (Compound_loop exec xs ;;; Compound_loop exec ys) st.
Proof.
  revert st. induction xs as [|x xs IH]; intros st; cbn [Compound_loop app]; unfold bind in *.
  - reflexivity.
  - destruct (exec x st) as [v st'| | |]; try reflexivity. apply IH.
Qed.

(** X23.  A [Return] ends the sequence of statements it is in: the
    statements behind it are not executed, the [Compound] is left by the
    exception that carries the value, and a [MethodBody] around it returns
    the value. A [MethodBody] whose body ends without a [Return] returns the
    empty holder, and it lets every other exception through. *)
Theorem MethodBody_returns_at_Return fuel before e after s s1 v s2 :
  Compound_loop (Execute (S fuel)) before s = Normal tt s1 →
  Execute fuel e s1 = Normal v s2 →
  Execute (S (S fuel)) (Compound (before ++ Return e :: after)) s
    = Thrown (runtime.ExeptionWithObject v) s2
  ∧ Execute (S (S (S fuel))) (MethodBody (Compound (before ++ Return e :: after))) s
    = Normal v s2
  ∧ Execute (S (S (S fuel))) (MethodBody (Compound before)) s = Normal runtime.None_ s1
  ∧ (∀ body what s', Execute fuel body s = Thrown (runtime.runtime_error what) s' →
       Execute (S fuel) (MethodBody body) s = Thrown (runtime.runtime_error what) s').
Proof.
  intros Hbefore He.
  assert (HC : Execute (S (S fuel)) (Compound (before ++ Return e :: after)) s
               = Thrown (runtime.ExeptionWithObject v) s2).
  { rewrite Execute_S. cbn [Execute_node]. unfold bind at 1.
    rewrite Compound_loop_app. rewrite (bind_Normal _ _ _ _ _ Hbefore).
    cbn [Compound_loop]. rewrite Execute_S. cbn [Execute_node].
    unfold bind at 1. now rewrite (bind_Normal _ _ _ _ _ He). }
  repeat apply conj.
  - exact HC.
  - rewrite Execute_S. cbn [Execute_node]. now rewrite HC.
  - rewrite Execute_S. cbn [Execute_node]. rewrite Execute_S. cbn [Execute_node].
    now rewrite (bind_Normal _ _ _ _ _ Hbefore).
  - intros body what s' Hb. rewrite Execute_S. cbn [Execute_node]. now rewrite Hb.
Qed.

(** An instance of [MethodBody_returns_at_Return]: the assignment behind
    the [Return] is not executed. *)
Lemma MethodBody_returns_at_Return_witness :
  let s := (numbers, empty_World) in
  let s1 := (<["x" := number 2]> numbers, empty_World) in
  let body := Compound [Assignment "x" (var "two"); Return (var "three");
                        Assignment "x" (var "three")] in
  Execute 4 (MethodBody body) s = Normal (number 3) s1.
Proof.
  intros s s1 body.
  assert (Hb : Compound_loop (Execute 2) [Assignment "x" (var "two")] s = Normal tt s1)
    by (vm_compute; reflexivity).
  assert (He : Execute 1 (var "three") s1 = Normal (number 3) s1) by (vm_compute; reflexivity).
  exact (proj1 (proj2 (MethodBody_returns_at_Return 1 [Assignment "x" (var "two")]
                         (var "three") [Assignment "x" (var "three")] s s1 _ s1 Hb He))).
Defined.

(** *** Print and Stringify *)

(** X24.  [print e] writes the text that [str(e)] returns, and a newline:
    when [Stringify] of a node gives the String [text], [Print] of this node
    alone leaves the state that [Stringify] leaves, with [text] and a
    newline written to the output. *)
Theorem Print_writes_what_Stringify_returns fuel arg s r s1 :
  Execute (S fuel) (Stringify arg) s = Normal r s1 →
  ∃ text, r = runtime.Own (runtime.String text)
    ∧ Execute (S fuel) (Print [arg]) s
      = Normal runtime.None_
               (fst s1, written (written (snd s1) text) (String NL EmptyString)).
Proof.
  rewrite !Execute_S. cbn [Execute_node Print_loop]. unfold bind, ret, on_snd.
  destruct (Execute fuel arg s) as [obj s0| | |]; try discriminate.
  destruct (Print_holder (Execute fuel) fuel obj (snd s0)) as [text w| | |];
    try discriminate.
  intros [= <- <-]. exists text. split; [reflexivity|]. reflexivity.
Qed.

(** An instance of [Print_writes_what_Stringify_returns]: a Bool. *)
Lemma Print_writes_what_Stringify_returns_witness :
  let s := (holders, sample_World) in
  ∃ text, text = "True"
    ∧ Execute 2 (Print [var "bool"]) s
      = Normal runtime.None_
               (holders, written (written sample_World text) (String NL EmptyString)).
Proof.
  intros s.
  assert (Hs : Execute 2 (Stringify (var "bool")) s = Normal (text "True") s)
    by (vm_compute; reflexivity).
  destruct (Print_writes_what_Stringify_returns 1 _ s _ s Hs) as (t & Ht & HP).
  exists t. split; [|exact HP]. now injection Ht.
Defined.

Lemma append_associative a b c :
  String.append (String.append a b) c = String.append a (String.append b c).
Proof.
  induction a as [|x a IH]; [reflexivity|].
  change (String x (String.append (String.append a b) c)
          = String x (String.append a (String.append b c))).
  now rewrite IH.
Qed.

Lemma append_empty a : String.append a "" = a.
Proof.
  induction a as [|x a IH]; [reflexivity|].
  change (String x (String.append a "") = String x a). now rewrite IH.
Qed.

Lemma written_written w a b : written (written w a) b = written w (String.append a b).
Proof. unfold written. cbn. f_equal. apply append_associative. Qed.

Lemma written_nothing w : written w "" = w.
Proof. destruct w as [i o n]. unfold written. cbn. f_equal. apply append_empty. Qed.

Lemma Print_loop_variables (exec : Statement → Exec ObjectHolder) fuel closure names :
  ∀ hs texts w,
    Forall2 (λ n h, ∀ w', exec (var n) (closure, w') = Normal h (closure, w')) names hs →
    Forall2 (λ h text, ∀ w', Print_holder exec fuel h w' = Normal text w') hs texts →
    Print_loop exec fuel (map var names) (closure, w)
      = Normal tt (closure, written w (String.concat " " texts)).
Proof.
  induction names as [|n names IH]; intros hs texts w Hn Ht.
  - inversion Hn; subst. inversion Ht; subst. cbn. now rewrite written_nothing.
  - inversion Hn as [|? h ? hs' Hh Hn']; subst. inversion Ht as [|? text ? texts' Htext Ht']; subst.
    cbn [map Print_loop]. unfold bind at 1. rewrite Hh.
    unfold bind at 1, on_snd at 1. cbn [snd fst]. rewrite Htext.
    unfold bind at 1, on_snd at 1, write at 1, modify_state. cbn [snd fst].
    fold (written w text).
    destruct names as [|n' names].
    + inversion Hn'; subst. inversion Ht'; subst. reflexivity.
    + unfold bind at 1, on_snd at 1, write at 1, modify_state. cbn [map snd fst].
      fold (written (written w text) " ").
      rewrite (IH _ _ _ Hn' Ht'), !written_written.
      inversion Hn'; subst. inversion Ht'; subst. reflexivity.
Qed.

(** X25.  [print a, b, ...] of variables whose values are printed without a
    call of a method writes the texts of the values with one space between
    two of them, and a newline; it returns the empty holder and leaves the
    closure as it is. *)
Theorem Print_separates_by_spaces fuel closure names hs texts w :
  Forall2 (λ n h, n ≠ "" ∧ closure !! n = Some h) names hs →
  Forall2 (λ h text, ∀ w', Print_holder (Execute (S fuel)) (S fuel) h w' = Normal text w')
          hs texts →
  Execute (S (S fuel)) (Print (map var names)) (closure, w)
    = Normal runtime.None_
             (closure,
              written w (String.append (String.concat " " texts) (String NL EmptyString))).
Proof.
  intros Hn Ht. rewrite Execute_S. cbn [Execute_node].
  unfold bind at 1. rewrite (Print_loop_variables _ _ _ _ hs texts w).
  - unfold bind, on_snd, write, modify_state, ret. cbn [snd fst].
    fold (written (written w (String.concat " " texts)) (String NL EmptyString)).
    now rewrite written_written.
  - eapply Forall2_impl; [exact Hn|]. intros n h [Hne Hlk] w'.
    cbn [Execute Execute_node var]. unfold VariableValue_Execute. cbn [ast.name_ fst].
    destruct (String.eqb_spec n ""); [done|]. cbn [negb]. now rewrite Hlk.
  - exact Ht.
Qed.

(** An instance of [Print_separates_by_spaces]: a Bool, the empty holder and
    a class. *)
Lemma Print_separates_by_spaces_witness :
  Execute 2 (Print [var "bool"; var "none"; var "class"]) (holders, sample_World)
    = Normal runtime.None_
             (holders,
              written sample_World
                      (String.append "True None Class Sample" (String NL EmptyString))).
Proof.
  refine (Print_separates_by_spaces 0 holders ["bool"; "none"; "class"]
            [boolean true; runtime.None_; runtime.Own (runtime.ClassObject Sample)]
            ["True"; "None"; "Class Sample"] sample_World _ _).
  - repeat constructor; try discriminate; vm_compute; reflexivity.
  - repeat constructor.
Defined.

(** *** IfElse and Not *)

(** X26.  [if not c: a else: b] is [if c: b else: a]: once the condition has
    given a holder that is not empty, the node continues with [b] when the
    holder is true, and with [a] when it is not; an instance and a class are
    not true. On the empty holder [Not] throws, and so does the node. *)
Theorem IfElse_Not fuel c a b s v s1 :
  Execute fuel c s = Normal v s1 →
  (runtime.non_empty v = true →
     Execute (S (S fuel)) (IfElse (Not c) a (Some b)) s
       = if runtime.IsTrue v then Execute (S fuel) b s1 else Execute (S fuel) a s1)
  ∧ (runtime.non_empty v = false →
     Execute (S (S fuel)) (IfElse (Not c) a (Some b)) s = Thrown Not_error s1)
  ∧ Execute (S fuel) (IfElse c a None) s
    = if runtime.IsTrue v then Execute fuel a s1 else Normal runtime.None_ s1.
Proof.
  intros Hc. repeat apply conj.
  - intros Hv. rewrite Execute_S. cbn [Execute_node]. rewrite Execute_S. cbn [Execute_node].
    unfold bind at 1. rewrite (bind_Normal _ _ _ _ _ Hc), Hv. cbn [ret].
    now destruct (runtime.IsTrue v).
  - intros Hv. rewrite Execute_S. cbn [Execute_node]. rewrite Execute_S. cbn [Execute_node].
    unfold bind at 1. now rewrite (bind_Normal _ _ _ _ _ Hc), Hv.
  - rewrite Execute_S. cbn [Execute_node].
    rewrite (bind_Normal _ _ _ _ _ Hc). now destruct (runtime.IsTrue v).
Qed.

(** An instance of [IfElse_Not]: an instance is not true, so [not obj] is. *)
Lemma IfElse_Not_witness :
  let s := (holders, sample_World) in
  Execute 3 (IfElse (Not (var "obj")) (var "number") (Some (var "string"))) s
    = Normal (number 1) s.
Proof.
  intros s.
  assert (Ho : Execute 1 (var "obj") s = Normal sample_instance s) by (vm_compute; reflexivity).
  rewrite (proj1 (IfElse_Not 1 (var "obj") (var "number") (var "string") s _ s Ho) eq_refl).
  vm_compute. reflexivity.
Defined.


(** *** Classes and instances *)

Lemma indexed_method_app (before after : list Method) n :
  runtime.indexed_method (before ++ after) n =
    match runtime.indexed_method after n with
    | Some m => Some m
    | None => runtime.indexed_method before n
    end.
Proof.
  induction before as [|m before IH]; cbn [app runtime.indexed_method].
  - now destruct (runtime.indexed_method after n).
  - rewrite IH. now destruct (runtime.indexed_method after n).
Qed.

Lemma indexed_method_absent (methods : list Method) n :
  Forall (λ m, runtime.name m ≠ n) methods → runtime.indexed_method methods n = None.
Proof.
  induction 1 as [|m methods Hm _ IH]; [reflexivity|].
  cbn [runtime.indexed_method]. rewrite IH.
  now destruct (String.eqb_spec (runtime.name m) n).
Qed.

(** X27.  A method is found by its name alone, and the count of its
    parameters is compared afterwards: the last method of a name in the list
    of a class is the method of this name, whatever the methods before it in
    the list and the methods of the parent are, and [HasMethod] is true for
    the count of its parameters only. *)
Theorem last_method_of_a_name_is_found name before m after parent argument_count :
  Forall (λ m', runtime.name m' ≠ runtime.name m) after →
  let cls : Class := runtime.mkClass name (before ++ m :: after) parent in
  runtime.GetMethod cls (runtime.name m) = Some m
  ∧ runtime.HasMethod cls (runtime.name m) argument_count
    = bool_decide (length (runtime.formal_params m) = argument_count).
Proof.
  intros Hafter cls.
  assert (HG : runtime.GetMethod cls (runtime.name m) = Some m).
  { cbn [cls runtime.GetMethod]. rewrite indexed_method_app.
    cbn [runtime.indexed_method]. rewrite (indexed_method_absent _ _ Hafter).
    now rewrite String.eqb_refl. }
  split; [exact HG|]. unfold runtime.HasMethod. rewrite HG.
  destruct (Nat.eqb_spec (length (runtime.formal_params m)) argument_count);
    [now rewrite bool_decide_eq_true_2 | now rewrite bool_decide_eq_false_2].
Qed.

(** An instance of [last_method_of_a_name_is_found]: two methods of one name
    and different counts of parameters. *)
Lemma last_method_of_a_name_is_found_witness :
  let first := {| runtime.name := "m"; runtime.formal_params := ["a"];
                  runtime.body := returns "a" |} in
  let second := {| runtime.name := "m"; runtime.formal_params := ["a"; "b"];
                   runtime.body := returns "b" |} in
  let cls : Class := runtime.mkClass "C" [first; second] None in
  runtime.GetMethod cls "m" = Some second
  ∧ runtime.HasMethod cls "m" 1 = false.
Proof.
  intros first second cls.
  destruct (last_method_of_a_name_is_found "C" [first] second [] None 1 (Forall_nil_2 _))
    as [HG HH].
  split; [exact HG|exact HH].
Defined.

(** X28.  When the class has no [__init__] with as many parameters as the
    node has arguments, [NewInstance] does not execute the arguments: it
    makes a new object without fields, leaves the objects that exist as they
    are, binds the new object to a name made of a number and the name of the
    class, and returns an owning holder of it. *)
Theorem NewInstance_without_init fuel class__ args_ s :
  runtime.HasMethod class__ "__init__" (length args_) = false →
  let this := length (runtime.instances (snd s)) in
  let name := String.append (to_string (runtime.instance_id (snd s)))
                            (String "_" (runtime.GetName class__)) in
  let h := runtime.Own (runtime.ClassInstance class__ this) in
  ∃ w, Execute (S fuel) (NewInstance class__ args_) s = Normal h (<[name := h]> (fst s), w)
    ∧ runtime.instances (snd s) !! this = None
    ∧ runtime.instances w !! this = Some ∅
    ∧ (∀ i, i ≠ this → runtime.instances w !! i = runtime.instances (snd s) !! i)
    ∧ runtime.output w = runtime.output (snd s).
Proof.
  intros Hinit this name h. eexists. split.
  - rewrite Execute_S. cbn [Execute_node]. unfold INIT_METHOD. rewrite Hinit.
    unfold bind, on_snd, NewInstanceId, new_ClassInstance, closure_set, closure_lookup,
      modify_state, ret.
    cbn [fst snd runtime.instances runtime.instance_id runtime.output].
    fold name. fold this. fold h. rewrite lookup_insert_eq. reflexivity.
  - cbn [runtime.instances runtime.output]. repeat apply conj.
    + apply lookup_ge_None. unfold this. lia.
    + unfold this. now rewrite lookup_app_r, Nat.sub_diag by lia.
    + intros i Hi. destruct (Nat.lt_ge_cases i this) as [Hlt|Hge].
      * now rewrite lookup_app_l.
      * rewrite !(proj2 (lookup_ge_None _ _)); [reflexivity|unfold this in *; lia|].
        rewrite length_app. cbn. unfold this in *. lia.
    + reflexivity.
Qed.

(** An instance of [NewInstance_without_init]: the argument, a division by
    zero, is not executed. *)
Lemma NewInstance_without_init_witness :
  let h : ObjectHolder := runtime.Own (runtime.ClassInstance Sample 1) in
  ∃ w, Execute 1 (NewInstance Sample [Div (var "one") (var "zero")])
               (sample_closure, sample_World)
       = Normal h (<["1_Sample" := h]> sample_closure, w).
Proof.
  intros h.
  destruct (NewInstance_without_init 0 Sample [Div (var "one") (var "zero")]
              (sample_closure, sample_World) eq_refl) as (w & H & _).
  exists w. exact H.
Defined.


Lemma keeps_names_refl s : keeps_names s s.
Proof. now intros n. Qed.

Lemma keeps_names_trans s1 s2 s3 : keeps_names s1 s2 → keeps_names s2 s3 → keeps_names s1 s3.
Proof. intros H1 H2 n Hn. now apply H2, H1. Qed.

Lemma keeps_names_fst (s s' : Closure * World) : fst s' = fst s → keeps_names s s'.
Proof. intros E n. now rewrite E. Qed.

Lemma keeps_names_insert (s : Closure * World) n v w :
  keeps_names s (<[n := v]> (fst s), w).
Proof.
  intros n' Hn'. cbn [fst]. destruct (decide (n = n')) as [->|Hne].
  - rewrite lookup_insert_eq. eauto.
  - now rewrite lookup_insert_ne.
Qed.

Lemma sound_bind {A B} (m : Exec A) (k : A → Exec B) s :
  sound s (m s) → (∀ a s', m s = Normal a s' → sound s' (k a s')) → sound s (bind m k s).
Proof.
  unfold bind. destruct (m s) as [a s'|e s'| |]; cbn; try done.
  intros H1 H2. specialize (H2 a s' eq_refl).
  destruct (k a s') as [b s''|e s''| |]; cbn in *; try done.
  - now apply (keeps_names_trans _ s').
  - destruct H2. split; [now apply (keeps_names_trans _ s')|done].
Qed.

Lemma sound_w_bind {A B} (m : M Signal World A) (k : A → M Signal World B) w :
  sound_w (m w) → (∀ a w', m w = Normal a w' → sound_w (k a w')) → sound_w (bind m k w).
Proof.
  unfold bind. destruct (m w) as [a w'|e w'| |]; cbn; try done.
  intros _ H2. exact (H2 a w' eq_refl).
Qed.

Lemma sound_on_snd {A} (m : M Signal World A) (s : Closure * World) :
  sound_w (m (snd s)) → sound s (on_snd m s).
Proof.
  unfold on_snd. destruct (m (snd s)) as [a w'|e w'| |]; cbn; try done.
  - intros _. now apply keeps_names_fst.
  - intros H. split; [now apply keeps_names_fst|exact H].
Qed.

Lemma sound_w_in_frame {A} (frame : Closure) (m : Exec A) w :
  sound (frame, w) (m (frame, w)) → sound_w (in_frame frame m w).
Proof.
  unfold in_frame. destruct (m (frame, w)) as [a s'|e s'| |]; cbn; try done. now intros [_ H].
Qed.

Lemma evaluation_signal_runtime_error what :
  (∀ method, what ≠ String.append "Error call " (String.append method ".")) →
  evaluation_signal (runtime.runtime_error what).
Proof.
  intros H. split; [discriminate|]. intros method [= E]. exact (H method E).
Qed.

Lemma evaluation_signal_ExeptionWithObject obj :
  evaluation_signal (runtime.ExeptionWithObject obj).
Proof. split; [discriminate|]. intros method. discriminate. Qed.

Ltac signal :=
  first [ apply evaluation_signal_ExeptionWithObject
        | apply evaluation_signal_runtime_error; intros ?method; cbn; discriminate ].

Section NodeSoundness.
Variable exec : Statement → Exec ObjectHolder.
Hypothesis exec_sound : ∀ stmt s, sound s (exec stmt s).

Lemma HasMethod_GetMethod (cls : Class) method n :
  runtime.HasMethod cls method n = true → ∃ m, runtime.GetMethod cls method = Some m.
Proof. unfold runtime.HasMethod. destruct (runtime.GetMethod cls method); [eauto|discriminate]. Qed.

Lemma Call_sound cls this method actual_args w :
  runtime.HasMethod cls method (length actual_args) = true →
  sound_w (runtime.Call exec cls this method actual_args w).
Proof.
  intros H. unfold runtime.Call. rewrite H. cbn [negb].
  destruct (HasMethod_GetMethod _ _ _ H) as [m ->].
  apply sound_w_in_frame, exec_sound.
Qed.

Lemma instance_with_method_HasMethod (h : ObjectHolder) method n cls this :
  runtime.instance_with_method h method n = Some (cls, this) →
  runtime.HasMethod cls method n = true.
Proof.
  unfold runtime.instance_with_method.
  destruct (runtime.TryAs_ClassInstance h) as [[cls' this']|]; [|discriminate].
  destruct (runtime.HasMethod cls' method n) eqn:E; [|discriminate].
  now intros [= <- <-].
Qed.

Lemma Print_sound fuel : ∀ o w, sound_w (runtime.Print exec fuel o w).
Proof.
  induction fuel as [|fuel IH]; intros o w; destruct o; cbn [runtime.Print]; try exact I.
  - destruct (runtime.HasMethod cls_ "__str__" 0); exact I.
  - destruct (runtime.HasMethod cls_ "__str__" 0) eqn:E; [|exact I].
    apply sound_w_bind; [now apply Call_sound|].
    intros r w' _. destruct (runtime.Get r); [apply IH|exact I].
Qed.

Lemma Print_holder_sound fuel obj w : sound_w (Print_holder exec fuel obj w).
Proof. unfold Print_holder. destruct (runtime.Get obj); [apply Print_sound|exact I]. Qed.

Lemma unwrap_Bool_sound (h : ObjectHolder) (w : World) :
  sound_w (runtime.unwrap_Bool (Executable := Statement) h w).
Proof. unfold runtime.unwrap_Bool. now destruct (runtime.TryAs_Bool h). Qed.

Lemma Equal_sound lhs rhs w : sound_w (runtime.Equal exec lhs rhs w).
Proof.
  unfold runtime.Equal.
  destruct (runtime.TryAs_Bool lhs), (runtime.TryAs_Bool rhs); try exact I;
    destruct (runtime.TryAs_Number lhs), (runtime.TryAs_Number rhs); try exact I;
    destruct (runtime.TryAs_String lhs), (runtime.TryAs_String rhs); try exact I;
    (destruct (runtime.instance_with_method lhs "__eq__" 1) as [[cls this]|] eqn:E;
     [apply sound_w_bind;
      [apply Call_sound; exact (instance_with_method_HasMethod _ _ _ _ _ E)
      |intros; apply unwrap_Bool_sound]
     |destruct (_ && _); [exact I|cbn; signal]]).
Qed.

Lemma Less_sound lhs rhs w : sound_w (runtime.Less exec lhs rhs w).
Proof.
  unfold runtime.Less.
  destruct (runtime.TryAs_Bool lhs), (runtime.TryAs_Bool rhs); try exact I;
    destruct (runtime.TryAs_Number lhs), (runtime.TryAs_Number rhs); try exact I;
    destruct (runtime.TryAs_String lhs), (runtime.TryAs_String rhs); try exact I;
    (destruct (runtime.instance_with_method lhs "__lt__" 1) as [[cls this]|] eqn:E;
     [apply sound_w_bind;
      [apply Call_sound; exact (instance_with_method_HasMethod _ _ _ _ _ E)
      |intros; apply unwrap_Bool_sound]
     |cbn; signal]).
Qed.

Lemma comparator_sound cmp lhs rhs w : sound_w (comparator exec cmp lhs rhs w).
Proof.
  assert (HN : ∀ w, sound_w (runtime.NotEqual exec lhs rhs w)).
  { intros w0. apply sound_w_bind; [apply Equal_sound|]. intros; exact I. }
  assert (HG : ∀ w, sound_w (runtime.Greater exec lhs rhs w)).
  { intros w0. apply sound_w_bind; [apply Less_sound|].
    intros l w' _. destruct (negb l); [apply HN|exact I]. }
  destruct cmp; cbn [comparator].
  - apply Equal_sound.
  - apply Less_sound.
  - apply HN.
  - apply HG.
  - apply sound_w_bind; [apply HG|]. intros; exact I.
  - apply sound_w_bind; [apply Less_sound|]. intros; exact I.
Qed.

Lemma ExecuteArgs_sound args :
  ∀ s, sound s (ExecuteArgs exec args s)
       ∧ ∀ vs s', ExecuteArgs exec args s = Normal vs s' → length vs = length args.
Proof.
  induction args as [|arg args IH]; intros s; cbn [ExecuteArgs].
  - split; [apply keeps_names_refl|]. now intros vs s' [= <- _].
  - split.
    + apply sound_bind; [apply exec_sound|]. intros a s' _.
      apply sound_bind; [apply IH|]. intros vs s'' _. apply keeps_names_refl.
    + intros vs s'. unfold bind, ret.
      destruct (exec arg s) as [a s0| | |]; try discriminate.
      destruct (IH s0) as [_ Hlen].
      destruct (ExecuteArgs exec args s0) as [vs0 s1| | |]; try discriminate.
      intros [= <- _]. cbn. f_equal. exact (Hlen _ _ eq_refl).
Qed.

Lemma Print_loop_sound fuel args : ∀ s, sound s (Print_loop exec fuel args s).
Proof.
  induction args as [|arg args IH]; intros s; cbn [Print_loop].
  - apply keeps_names_refl.
  - apply sound_bind; [apply exec_sound|]. intros obj s1 _.
    apply sound_bind; [apply sound_on_snd, Print_holder_sound|]. intros text s2 _.
    apply sound_bind; [now apply sound_on_snd|]. intros _ s3 _.
    apply sound_bind; [|intros; apply IH].
    destruct args; [apply keeps_names_refl|now apply sound_on_snd].
Qed.

Lemma Compound_loop_sound args : ∀ s, sound s (Compound_loop exec args s).
Proof.
  induction args as [|arg args IH]; intros s; cbn [Compound_loop].
  - apply keeps_names_refl.
  - apply sound_bind; [apply exec_sound|]. intros; apply IH.
Qed.

Lemma walk_dotted_ids_sound w ids :
  ∀ closure e, walk_dotted_ids w closure ids = Thrown e tt → evaluation_signal e.
Proof.
  induction ids as [|id ids IH]; intros closure e; cbn [walk_dotted_ids]; [discriminate|].
  destruct ids as [|id' ids].
  - destruct (closure !! id); [discriminate|]. intros [= <-]. signal.
  - destruct (closure !! id) as [res|]; [|intros [= <-]; signal].
    destruct (runtime.TryAs_ClassInstance res) as [[cls this]|]; [|intros [= <-]; signal].
    destruct (runtime.instances w !! this); [apply IH|discriminate].
Qed.

Lemma VariableValue_Execute_sound v s : sound s (VariableValue_Execute v s).
Proof.
  unfold VariableValue_Execute. destruct (negb _).
  - destruct (_ !! _); cbn; [apply keeps_names_refl|].
    split; [apply keeps_names_refl|signal].
  - destruct (dotted_ids_ v) as [|id ids] eqn:E.
    + cbn. split; [apply keeps_names_refl|signal].
    + destruct (walk_dotted_ids _ _ _) as [res []|e []| |] eqn:W; cbn; try exact I.
      * apply keeps_names_refl.
      * split; [apply keeps_names_refl|]. exact (walk_dotted_ids_sound _ _ _ _ W).
Qed.

Lemma int_result_sound {S} v (s : S) :
  match runtime.int_result (E := Signal) v s with Thrown _ _ => False | _ => True end.
Proof. unfold runtime.int_result. now destruct (_ && _). Qed.

Lemma Execute_node_sound fuel stmt s : sound s (Execute_node exec fuel stmt s).
Proof.
  destruct stmt; cbn [Execute_node].
  - (* Assignment *)
    apply sound_bind; [apply exec_sound|]. intros v s1 _.
    apply keeps_names_insert.
  - apply VariableValue_Execute_sound.
  - (* Print *)
    apply sound_bind; [apply Print_loop_sound|]. intros _ s1 _.
    apply sound_bind; [now apply sound_on_snd|]. intros; apply keeps_names_refl.
  - (* MethodCall *)
    apply sound_bind; [apply exec_sound|]. intros obj s1 _.
    destruct (runtime.TryAs_ClassInstance obj) as [[cls this]|]; [|apply keeps_names_refl].
    apply sound_bind; [apply keeps_names_refl|]. intros s1' s1'' [= <- <-].
    destruct (survives obj [] s1); cbn [negb]; [|exact I].
    destruct (runtime.HasMethod cls method_ (length args_)) eqn:E; [|apply keeps_names_refl].
    destruct (ExecuteArgs_sound args_ s1) as [Hs Hlen].
    apply sound_bind; [exact Hs|]. intros vs s2 Hvs.
    apply sound_bind; [apply keeps_names_refl|]. intros s2' s2'' [= <- <-].
    destruct (survives obj vs s2); cbn [negb]; [|exact I].
    apply sound_on_snd, Call_sound. now rewrite (Hlen _ _ Hvs).
  - (* Stringify *)
    apply sound_bind; [apply exec_sound|]. intros res s1 _.
    apply sound_bind; [apply sound_on_snd, Print_holder_sound|]. intros; apply keeps_names_refl.
  - (* Add *)
    apply sound_bind; [apply exec_sound|]. intros l s1 _.
    apply sound_bind; [apply exec_sound|]. intros r s2 _.
    assert (Hrest : sound s2
              (match runtime.TryAs_Number l, runtime.TryAs_Number r with
               | Some l0, Some r0 =>
                   v <~ runtime.int_result (l0 + r0) ;; ret (runtime.Own (runtime.Number v))
               | _, _ =>
                   match runtime.instance_with_method l ADD_METHOD 1 with
                   | Some (cls, lhs_class) =>
                       on_snd (runtime.Call exec cls lhs_class ADD_METHOD [r])
                   | None =>
                       throw (runtime.runtime_error
                                "Addition is not implemented for these operands")
                   end
               end s2)).
    { assert (Hd : sound s2
                (match runtime.instance_with_method l ADD_METHOD 1 with
                 | Some (cls, lhs_class) =>
                     on_snd (runtime.Call exec cls lhs_class ADD_METHOD [r])
                 | None =>
                     throw (runtime.runtime_error
                              "Addition is not implemented for these operands")
                 end s2)).
      { destruct (runtime.instance_with_method l ADD_METHOD 1) as [[cls this]|] eqn:E.
        - apply sound_on_snd, Call_sound.
          exact (instance_with_method_HasMethod _ _ _ _ _ E).
        - cbn. split; [apply keeps_names_refl|signal]. }
      destruct (runtime.TryAs_Number l), (runtime.TryAs_Number r); try exact Hd.
      unfold bind, ret. pose proof (int_result_sound (z + z0)%Z s2) as Hi.
      destruct (runtime.int_result _ s2) as [v s'| | |] eqn:Ei; cbn; try done.
      unfold runtime.int_result in Ei. destruct (_ && _); [|discriminate].
      injection Ei as _ <-. apply keeps_names_refl. }
    destruct (runtime.TryAs_String l), (runtime.TryAs_String r); try exact Hrest.
    apply keeps_names_refl.
  - (* Sub *)
    apply sound_bind; [apply exec_sound|]. intros l s1 _.
    apply sound_bind; [apply exec_sound|]. intros r s2 _.
    destruct (runtime.TryAs_Number l), (runtime.TryAs_Number r);
      try (cbn; split; [apply keeps_names_refl|signal]).
    unfold bind, ret, runtime.int_result. destruct (_ && _); cbn; [apply keeps_names_refl|exact I].
  - (* Mult *)
    apply sound_bind; [apply exec_sound|]. intros l s1 _.
    apply sound_bind; [apply exec_sound|]. intros r s2 _.
    destruct (runtime.TryAs_Number l), (runtime.TryAs_Number r);
      try (cbn; split; [apply keeps_names_refl|signal]).
    unfold bind, ret, runtime.int_result. destruct (_ && _); cbn; [apply keeps_names_refl|exact I].
  - (* Div *)
    apply sound_bind; [apply exec_sound|]. intros l s1 _.
    apply sound_bind; [apply exec_sound|]. intros r s2 _.
    destruct (runtime.TryAs_Number l), (runtime.TryAs_Number r);
      try (cbn; split; [apply keeps_names_refl|signal]).
    destruct (negb _); [|cbn; split; [apply keeps_names_refl|signal]].
    unfold bind, ret, runtime.int_result. destruct (_ && _); cbn; [apply keeps_names_refl|exact I].
  - (* Compound *)
    apply sound_bind; [apply Compound_loop_sound|]. intros; apply keeps_names_refl.
  - (* Return *)
    apply sound_bind; [apply exec_sound|]. intros res s1 _.
    cbn. split; [apply keeps_names_refl|signal].
  - (* ClassDefinition *)
    destruct (runtime.TryAs_Class cls_); [|exact I].
    cbn. apply keeps_names_insert.
  - (* FieldAssignment *)
    apply sound_bind; [apply VariableValue_Execute_sound|]. intros obj s1 _.
    destruct (runtime.TryAs_ClassInstance obj) as [[cls this]|]; [|exact I].
    apply sound_bind; [apply exec_sound|]. intros v s2 _.
    apply sound_bind; [|intros; apply keeps_names_refl].
    apply sound_on_snd. unfold Fields_set. now destruct (_ !! _).
  - (* IfElse *)
    apply sound_bind; [apply exec_sound|]. intros c s1 _.
    destruct (runtime.IsTrue c); [apply exec_sound|].
    destruct else_body_; [apply exec_sound|apply keeps_names_refl].
  - (* Or *)
    apply sound_bind; [apply exec_sound|]. intros l s1 _.
    apply sound_bind; [apply exec_sound|]. intros r s2 _.
    destruct (_ && _); cbn; [apply keeps_names_refl|split; [apply keeps_names_refl|signal]].
  - (* And *)
    apply sound_bind; [apply exec_sound|]. intros l s1 _.
    apply sound_bind; [apply exec_sound|]. intros r s2 _.
    destruct (_ && _); cbn; [apply keeps_names_refl|split; [apply keeps_names_refl|signal]].
  - (* Not *)
    apply sound_bind; [apply exec_sound|]. intros obj s1 _.
    destruct (runtime.non_empty obj); cbn;
      [apply keeps_names_refl|split; [apply keeps_names_refl|signal]].
  - (* Comparison *)
    apply sound_bind; [apply exec_sound|]. intros l s1 _.
    apply sound_bind; [apply exec_sound|]. intros r s2 _.
    apply sound_bind; [apply sound_on_snd, comparator_sound|]. intros; apply keeps_names_refl.
  - (* NewInstance *)
    apply sound_bind; [now apply sound_on_snd|]. intros id s1 _.
    apply sound_bind; [now apply sound_on_snd|]. intros class_inst s2 _.
    set (name := String.append (to_string id) (String "_" (runtime.GetName class__))).
    apply sound_bind; [apply keeps_names_insert|]. intros [] s3 Hset.
    assert (Hname : is_Some (fst s3 !! name)).
    { unfold closure_set, modify_state in Hset. injection Hset as Hs3. rewrite <- Hs3.
      cbn [fst]. rewrite lookup_insert_eq. eauto. }
    assert (Hinit : sound s3
              ((if runtime.HasMethod class__ INIT_METHOD (length args_)
                then
                  args_executed <~ ExecuteArgs exec args_ ;;
                  on_snd (runtime.Call exec class__ class_inst INIT_METHOD args_executed) ;;;
                  ret tt
                else ret tt) s3)).
    { destruct (runtime.HasMethod class__ INIT_METHOD (length args_)) eqn:E;
        [|apply keeps_names_refl].
      destruct (ExecuteArgs_sound args_ s3) as [Hs Hlen].
      apply sound_bind; [exact Hs|]. intros vs s4 Hvs.
      apply sound_bind; [|intros; apply keeps_names_refl].
      apply sound_on_snd, Call_sound. now rewrite (Hlen _ _ Hvs). }
    apply sound_bind; [exact Hinit|]. intros [] s4 Hs4.
    rewrite Hs4 in Hinit. cbn in Hinit. apply Hinit in Hname.
    unfold bind, closure_lookup. destruct Hname as [h Hh]. rewrite Hh.
    apply keeps_names_refl.
  - (* MethodBody *)
    pose proof (exec_sound stmt s) as H.
    destruct (exec stmt s) as [r s'|e s'| |]; cbn in *; try done.
    destruct e; cbn; [exact H| apply H |exact H].
Qed.

End NodeSoundness.

Lemma Execute_sound fuel : ∀ stmt s, sound s (Execute fuel stmt s).
Proof.
  induction fuel as [|fuel IH]; intros stmt s; [exact I|].
  rewrite Execute_S. now apply Execute_node_sound.
Qed.

(** X29.  [ClassInstance::Call] is called for a method that the class has,
    with as many arguments as the method has parameters: no node is left by
    the exception of [Call]. *)
Theorem Call_error_is_never_raised fuel stmt s e s' :
  Execute fuel stmt s = Thrown e s' → ∀ method, e ≠ Call_error method.
Proof.
  intros H. pose proof (Execute_sound fuel stmt s) as Hs. rewrite H in Hs.
  exact (proj2 (proj2 Hs)).
Qed.

(** An instance of [Call_error_is_never_raised]: a division by zero. *)
Lemma Call_error_is_never_raised_witness : Div_error ≠ Call_error "__init__".
Proof.
  exact (Call_error_is_never_raised 2 (Div (var "one") (var "zero"))
           (sample_closure, sample_World) Div_error (sample_closure, sample_World)
           ltac:(vm_compute; reflexivity) "__init__").
Defined.

(** X30.  No node takes a name out of the closure: a name that is bound
    before a node is executed is bound afterwards, whether the node returns
    or throws; and [closure.at] does not throw. *)
Theorem closure_keeps_its_names fuel stmt s :
  (∀ r s', Execute fuel stmt s = Normal r s' → keeps_names s s')
  ∧ (∀ e s', Execute fuel stmt s = Thrown e s' → keeps_names s s' ∧ e ≠ runtime.out_of_range).
Proof.
  pose proof (Execute_sound fuel stmt s) as Hs. split.
  - intros r s' H. now rewrite H in Hs.
  - intros e s' H. rewrite H in Hs. destruct Hs as [H1 [H2 _]]. now split.
Qed.

(** *** A program *)

(** [class Point] with [__init__(v)] that sets [self.v], [__eq__(o)] that
    compares the fields [v], and [__str__()] that returns [str(self.v)];
    [class Pixel(Point)] adds nothing. *)
Definition Point : Class :=
  runtime.mkClass "Point"
    [ {| runtime.name := "__init__"; runtime.formal_params := ["v"];
         runtime.body :=
           MethodBody (Compound [FieldAssignment {| name_ := "self"; dotted_ids_ := [] |}
                                                 "v" (var "v")]) |};
      {| runtime.name := "__eq__"; runtime.formal_params := ["o"];
         runtime.body :=
           MethodBody (Compound [Return (Comparison Equal (dotted ["self"; "v"])
                                                          (dotted ["o"; "v"]))]) |};
      {| runtime.name := "__str__"; runtime.formal_params := [];
         runtime.body := MethodBody (Compound [Return (Stringify (dotted ["self"; "v"]))]) |} ]
    None.

Definition Pixel : Class := runtime.mkClass "Pixel" [] (Some Point).

(** [print Point(three) == Pixel(three), Pixel(ten), ten + three < ten]
    writes [True 10 False] and a newline. *)
Example program_output :
  let closure : Closure := <["three" := number 3]> (<["ten" := number 10]> ∅) in
  let program :=
    Print [ Comparison Equal (NewInstance Point [var "three"]) (NewInstance Pixel [var "three"]);
            NewInstance Pixel [var "ten"];
            Comparison Less (Add (var "ten") (var "three")) (var "ten") ] in
  match Execute 9 program (closure, empty_World) with
  | Normal h s =>
      h = runtime.None_
      ∧ runtime.output (snd s) = String.append "True 10 False" (String NL EmptyString)
  | _ => False
  end.
Proof. vm_compute. split; reflexivity. Qed.

End EvaluatorFacts.
